(** * Replicate configuration validator (pkg/util/replicateutil)

    A shallow embedding of [ReplicateConfigValidator] and of the checks
    [Validate] runs, followed by the properties of the validator that the
    specification states.

    Conventions of the embedding:
    - a Go [string] is a [string] (a byte sequence), a Go [int] is a [Z];
      every [int] of this code is a length or a counter bounded by a length,
      so no operation wraps around;
    - a protobuf pointer ([*commonpb.MilvusCluster], ...) is an [option],
      [None] being [nil]; the generated getters are nil-safe and return
      the zero value on [nil];
    - a Go [map] is a [gmap]; a [map[string]struct{}] is a [gset];
      reading a missing key gives the zero value;
    - a method with receiver [v *ReplicateConfigValidator] that returns
      [error] is a function from the validator to the validator it leaves
      behind and an [option error], [None] being the [nil] error. *)

From Stdlib Require Import ZArith String Ascii List.
From stdpp Require Import base gmap strings list fin_maps fin_sets pretty.

Open Scope string_scope.
Open Scope Z_scope.

(** ** Data model (commonpb) *)

Record ConnectionParam := {
  Uri : string;
  Token : string
}.

Record MilvusCluster := {
  ClusterId : string;
  ConnectionParam_ : option ConnectionParam;
  Pchannels : list string
}.

Record CrossClusterTopology := {
  SourceClusterId : string;
  TargetClusterId : string
}.

Record ReplicateConfiguration := {
  Clusters : list (option MilvusCluster);
  CrossClusterTopology_ : list (option CrossClusterTopology)
}.

(** The nil-safe getters of the generated protobuf code. *)

Definition GetClusterId (c : option MilvusCluster) : string :=
  match c with Some c => ClusterId c | None => "" end.

Definition GetConnectionParam (c : option MilvusCluster) : option ConnectionParam :=
  match c with Some c => ConnectionParam_ c | None => None end.

Definition GetPchannels (c : option MilvusCluster) : list string :=
  match c with Some c => Pchannels c | None => [] end.

Definition GetUri (p : option ConnectionParam) : string :=
  match p with Some p => Uri p | None => "" end.

Definition GetToken (p : option ConnectionParam) : string :=
  match p with Some p => Token p | None => "" end.

Definition GetSourceClusterId (t : option CrossClusterTopology) : string :=
  match t with Some t => SourceClusterId t | None => "" end.

Definition GetTargetClusterId (t : option CrossClusterTopology) : string :=
  match t with Some t => TargetClusterId t | None => "" end.

Definition GetClusters (c : option ReplicateConfiguration) : list (option MilvusCluster) :=
  match c with Some c => Clusters c | None => [] end.

Definition GetCrossClusterTopology (c : option ReplicateConfiguration)
  : list (option CrossClusterTopology) :=
  match c with Some c => CrossClusterTopology_ c | None => [] end.

(** [len] of a slice and of a map, as Go [int]s. *)

Definition len {A} (l : list A) : Z := Z.of_nat (length l).

Definition len_map {A} (m : gmap string A) : Z := Z.of_nat (size m).

(** ** Errors

    One constructor per [fmt.Errorf] call of the source, carrying the
    arguments of its format string. *)

Inductive error :=
| ErrConfigNil
| ErrClustersEmpty
| ErrClusterNil (i : Z)
| ErrEmptyClusterID (i : Z)
| ErrClusterIDWhitespace (i : Z) (clusterID : string)
| ErrNilConnectionParam (clusterID : string)
| ErrEmptyURI (clusterID : string)
| ErrInvalidURI (clusterID uri : string)
| ErrDuplicateURI (uri existingClusterID clusterID : string)
| ErrEmptyPchannels (clusterID : string)
| ErrEmptyPchannel (clusterID : string) (j : Z)
| ErrDuplicatePchannel (clusterID pchannel : string)
| ErrPchannelCount (clusterID : string) (n expected : Z) (firstClusterID : string)
| ErrDuplicateClusterID (clusterID : string)
| ErrNotIncluded (currentClusterID : string)
| ErrPchannelsMismatch (current config : list string)
| ErrTopologyNil (i : Z)
| ErrUnknownSource (i : Z) (source : string)
| ErrUnknownTarget (i : Z) (target : string)
| ErrDuplicateEdge (edgeKey : string)
| ErrMultipleCenters
| ErrNoCenter
| ErrNotStar (clusterID : string) (inDeg outDeg : Z)
| ErrPchannelsDecrease (clusterID : string) (current incoming : Z)
| ErrPchannelsNotPreserved (clusterID : string) (current incoming : list string)
| ErrUriChanged (clusterID current incoming : string)
| ErrTokenChanged (clusterID : string)
| ErrGrowthClusterCount (current incoming : Z)
| ErrGrowthClusterMissing (clusterID : string)
| ErrGrowthEdgeCount (current incoming : Z)
| ErrGrowthEdgeNotInCurrent (edge : string).

(** [%d] of an [int] and [%v] of a [[]string]. *)

Definition fmt_d (n : Z) : string := pretty n.

Definition fmt_v (l : list string) : string := "[" +:+ String.concat " " l +:+ "]".

(** [err.Error()]: the message each [fmt.Errorf] call builds. *)
Definition error_message (e : error) : string :=
  match e with
  | ErrConfigNil => "config cannot be nil"
  | ErrClustersEmpty => "clusters list cannot be empty"
  | ErrClusterNil i => "cluster at index " +:+ fmt_d i +:+ " is nil"
  | ErrEmptyClusterID i => "cluster at index " +:+ fmt_d i +:+ " has empty clusterID"
  | ErrClusterIDWhitespace i clusterID =>
      "cluster at index " +:+ fmt_d i +:+ " has clusterID '" +:+ clusterID
      +:+ "' containing whitespace characters"
  | ErrNilConnectionParam clusterID =>
      "cluster '" +:+ clusterID +:+ "' has nil connection_param"
  | ErrEmptyURI clusterID => "cluster '" +:+ clusterID +:+ "' has empty URI"
  | ErrInvalidURI clusterID uri =>
      "cluster '" +:+ clusterID +:+ "' has invalid URI format: '" +:+ uri +:+ "'"
  | ErrDuplicateURI uri existingClusterID clusterID =>
      "duplicate URI found: '" +:+ uri +:+ "' is used by both cluster '"
      +:+ existingClusterID +:+ "' and cluster '" +:+ clusterID +:+ "'"
  | ErrEmptyPchannels clusterID => "cluster '" +:+ clusterID +:+ "' has empty pchannels"
  | ErrEmptyPchannel clusterID j =>
      "cluster '" +:+ clusterID +:+ "' has empty pchannel at index " +:+ fmt_d j
  | ErrDuplicatePchannel clusterID pchannel =>
      "cluster '" +:+ clusterID +:+ "' has duplicate pchannel: '" +:+ pchannel +:+ "'"
  | ErrPchannelCount clusterID n expected firstClusterID =>
      "cluster '" +:+ clusterID +:+ "' has " +:+ fmt_d n +:+ " pchannels, but expected "
      +:+ fmt_d expected +:+ " (same as cluster '" +:+ firstClusterID +:+ "')"
  | ErrDuplicateClusterID clusterID =>
      "duplicate clusterID found: '" +:+ clusterID +:+ "'"
  | ErrNotIncluded currentClusterID =>
      "current Milvus cluster '" +:+ currentClusterID
      +:+ "' must be included in the clusters list"
  | ErrPchannelsMismatch current config =>
      "current pchannels do not match the pchannels in the config, current pchannels: "
      +:+ fmt_v current +:+ ", config pchannels: " +:+ fmt_v config
  | ErrTopologyNil i => "topology at index " +:+ fmt_d i +:+ " is nil"
  | ErrUnknownSource i source =>
      "topology at index " +:+ fmt_d i +:+ " references non-existent source cluster: '"
      +:+ source +:+ "'"
  | ErrUnknownTarget i target =>
      "topology at index " +:+ fmt_d i +:+ " references non-existent target cluster: '"
      +:+ target +:+ "'"
  | ErrDuplicateEdge edgeKey =>
      "duplicate topology relationship found: '" +:+ edgeKey +:+ "'"
  | ErrMultipleCenters =>
      "multiple center nodes found, only one center node is allowed in star topology"
  | ErrNoCenter =>
      "no center node found, star topology must have exactly one center node"
  | ErrNotStar clusterID inDeg outDeg =>
      "cluster '" +:+ clusterID +:+ "' does not follow star topology pattern (in-degree="
      +:+ fmt_d inDeg +:+ ", out-degree=" +:+ fmt_d outDeg +:+ ")"
  | ErrPchannelsDecrease clusterID current incoming =>
      "cluster '" +:+ clusterID +:+ "' pchannels cannot decrease: current="
      +:+ fmt_d current +:+ ", incoming=" +:+ fmt_d incoming
  | ErrPchannelsNotPreserved clusterID current incoming =>
      "cluster '" +:+ clusterID
      +:+ "' existing pchannels must be preserved at the same positions: current="
      +:+ fmt_v current +:+ ", incoming=" +:+ fmt_v incoming
  | ErrUriChanged clusterID current incoming =>
      "cluster '" +:+ clusterID +:+ "' connection_param.uri cannot be changed: current="
      +:+ current +:+ ", incoming=" +:+ incoming
  | ErrTokenChanged clusterID =>
      "cluster '" +:+ clusterID +:+ "' connection_param.token cannot be changed"
  | ErrGrowthClusterCount current incoming =>
      "when pchannels are increasing, cluster set must remain identical: current has "
      +:+ fmt_d current +:+ " clusters, incoming has " +:+ fmt_d incoming
  | ErrGrowthClusterMissing clusterID =>
      "when pchannels are increasing, cluster set must remain identical: cluster '"
      +:+ clusterID +:+ "' missing from incoming config"
  | ErrGrowthEdgeCount current incoming =>
      "when pchannels are increasing, topology must remain identical: current has "
      +:+ fmt_d current +:+ " edges, incoming has " +:+ fmt_d incoming
  | ErrGrowthEdgeNotInCurrent edge =>
      "when pchannels are increasing, topology must remain identical: edge '"
      +:+ edge +:+ "' not in current config"
  end.

(** The phase of [Validate] an error comes from. *)

Inductive phase :=
| PreCheck | ClusterBasic | Relevance | EdgeUniqueness | StarShape | Transition.

Definition error_phase (e : error) : phase :=
  match e with
  | ErrConfigNil | ErrClustersEmpty => PreCheck
  | ErrClusterNil _ | ErrEmptyClusterID _ | ErrClusterIDWhitespace _ _
  | ErrNilConnectionParam _ | ErrEmptyURI _ | ErrInvalidURI _ _
  | ErrDuplicateURI _ _ _ | ErrEmptyPchannels _ | ErrEmptyPchannel _ _
  | ErrDuplicatePchannel _ _ | ErrPchannelCount _ _ _ _
  | ErrDuplicateClusterID _ => ClusterBasic
  | ErrNotIncluded _ | ErrPchannelsMismatch _ _ => Relevance
  | ErrTopologyNil _ | ErrUnknownSource _ _ | ErrUnknownTarget _ _
  | ErrDuplicateEdge _ => EdgeUniqueness
  | ErrMultipleCenters | ErrNoCenter | ErrNotStar _ _ _ => StarShape
  | ErrPchannelsDecrease _ _ _ | ErrPchannelsNotPreserved _ _ _
  | ErrUriChanged _ _ _ | ErrTokenChanged _ | ErrGrowthClusterCount _ _
  | ErrGrowthClusterMissing _ | ErrGrowthEdgeCount _ _
  | ErrGrowthEdgeNotInCurrent _ => Transition
  end.

(** ** The validator *)

Record ReplicateConfigValidator := {
  currentClusterID : string;
  currentPChannels : list string;
  clusterMap : gmap string MilvusCluster;
  incomingConfig : option ReplicateConfiguration;
  currentConfig : option ReplicateConfiguration;
  isPChannelIncreasing : bool
}.

Definition NewReplicateConfigValidator
    (incomingConfig currentConfig : option ReplicateConfiguration)
    (currentClusterID : string) (currentPChannels : list string)
  : ReplicateConfigValidator :=
  {| currentClusterID := currentClusterID;
     currentPChannels := currentPChannels;
     clusterMap := ∅;
     incomingConfig := incomingConfig;
     currentConfig := currentConfig;
     isPChannelIncreasing := false |}.

Definition set_clusterMap (m : gmap string MilvusCluster)
    (v : ReplicateConfigValidator) : ReplicateConfigValidator :=
  {| currentClusterID := currentClusterID v;
     currentPChannels := currentPChannels v;
     clusterMap := m;
     incomingConfig := incomingConfig v;
     currentConfig := currentConfig v;
     isPChannelIncreasing := isPChannelIncreasing v |}.

Definition set_isPChannelIncreasing (b : bool)
    (v : ReplicateConfigValidator) : ReplicateConfigValidator :=
  {| currentClusterID := currentClusterID v;
     currentPChannels := currentPChannels v;
     clusterMap := clusterMap v;
     incomingConfig := incomingConfig v;
     currentConfig := currentConfig v;
     isPChannelIncreasing := b |}.

(** A method returning [error]: the validator it leaves and the error. *)

Definition check : Type :=
  ReplicateConfigValidator -> ReplicateConfigValidator * option error.

Definition ok : check := fun v => (v, None).

Definition fail (e : error) : check := fun v => (v, Some e).

(** [if err := c1; err != nil { return err }; c2] *)
Definition and_then (c1 c2 : check) : check :=
  fun v => match c1 v with
           | (v', None) => c2 v'
           | (v', Some e) => (v', Some e)
           end.

Notation "c1 >>> c2" := (and_then c1 c2) (at level 65, right associativity).

(** ** What the validator uses of the Go runtime and standard library

    [url.ParseRequestURI] belongs to the Go standard library;
    [ParseRequestURI_ok uri] says that it returns no error on [uri].
    The order in which a [range] statement visits a map is unspecified:
    [range_map site m] is the order taken by the [range] statement
    number [site] over the map [m], some arrangement of its entries. *)

Class GoEnv := {
  ParseRequestURI_ok : string -> bool;
  range_map : nat -> gmap string MilvusCluster -> list (string * MilvusCluster);
  range_map_perm : forall site m, range_map site m ≡ₚ map_to_list m
}.

(** [strings.ContainsAny s chars] for [chars] made of ASCII characters. *)
Fixpoint ContainsAny (s chars : string) : bool :=
  match s with
  | EmptyString => false
  | String c s' =>
      if bool_decide (c ∈ list_ascii_of_string chars) then true
      else ContainsAny s' chars
  end.

(** The literal [" \t\n\r"]. *)
Definition whitespace : string :=
  String " " (String "009" (String "010" (String "013" EmptyString))).

(** ** equalIgnoreOrder *)

Definition counts_get (counts : gmap string Z) (k : string) : Z :=
  default 0 (counts !! k).

(** [for _, v := range a { counts[v]++ }] *)
Fixpoint count_up (a : list string) (counts : gmap string Z) : gmap string Z :=
  match a with
  | [] => counts
  | v :: a' => count_up a' (<[v := counts_get counts v + 1]> counts)
  end.

(** [for _, v := range b { if counts[v] == 0 { return false }; counts[v]-- }] *)
Fixpoint count_down (b : list string) (counts : gmap string Z) : bool :=
  match b with
  | [] => true
  | v :: b' =>
      if counts_get counts v =? 0 then false
      else count_down b' (<[v := counts_get counts v - 1]> counts)
  end.

Definition equalIgnoreOrder (a b : list string) : bool :=
  if negb (len a =? len b) then false
  else count_down b (count_up a ∅).

Section Validator.

Context {env : GoEnv}.

(** ** validateClusterBasic *)

(** The inner loop over the pchannels of one cluster. *)
Fixpoint pchannels_loop (clusterID : string) (j : Z)
    (pchannelSet : gmap string bool) (pchannels : list string) : option error :=
  match pchannels with
  | [] => None
  | pchannel :: rest =>
      if decide (pchannel = "") then Some (ErrEmptyPchannel clusterID j)
      else if default false (pchannelSet !! pchannel) then
        Some (ErrDuplicatePchannel clusterID pchannel)
      else pchannels_loop clusterID (j + 1) (<[pchannel := true]> pchannelSet) rest
  end.

(** The loop over the clusters, from index [i] on, with the locals
    [expectedPchannelCount], [firstClusterID] and [uriSet]. *)
Fixpoint validateClusterBasic_loop (i expectedPchannelCount : Z)
    (firstClusterID : string) (uriSet : gmap string string)
    (clusters : list (option MilvusCluster)) : check :=
  match clusters with
  | [] => ok
  | None :: _ => fail (ErrClusterNil i)
  | Some cluster :: rest => fun v =>
    let clusterID := ClusterId cluster in
    if decide (clusterID = "") then (v, Some (ErrEmptyClusterID i))
    else if ContainsAny clusterID whitespace then
      (v, Some (ErrClusterIDWhitespace i clusterID))
    else
    match ConnectionParam_ cluster with
    | None => (v, Some (ErrNilConnectionParam clusterID))
    | Some connParam =>
      let uri := Uri connParam in
      if decide (uri = "") then (v, Some (ErrEmptyURI clusterID))
      else if negb (ParseRequestURI_ok uri) then (v, Some (ErrInvalidURI clusterID uri))
      else
      match uriSet !! uri with
      | Some existingClusterID =>
          (v, Some (ErrDuplicateURI uri existingClusterID clusterID))
      | None =>
        let uriSet := <[uri := clusterID]> uriSet in
        let pchannels := Pchannels cluster in
        if len pchannels =? 0 then (v, Some (ErrEmptyPchannels clusterID))
        else
        match pchannels_loop clusterID 0 ∅ pchannels with
        | Some e => (v, Some e)
        | None =>
          let counted :=
            if i =? 0 then inr (len pchannels, clusterID)
            else if negb (len pchannels =? expectedPchannelCount) then
              inl (ErrPchannelCount clusterID (len pchannels)
                     expectedPchannelCount firstClusterID)
            else inr (expectedPchannelCount, firstClusterID) in
          match counted with
          | inl e => (v, Some e)
          | inr (expectedPchannelCount, firstClusterID) =>
            match clusterMap v !! clusterID with
            | Some _ => (v, Some (ErrDuplicateClusterID clusterID))
            | None =>
              validateClusterBasic_loop (i + 1) expectedPchannelCount
                firstClusterID uriSet rest
                (set_clusterMap (<[clusterID := cluster]> (clusterMap v)) v)
            end
          end
        end
      end
    end
  end.

Definition validateClusterBasic (clusters : list (option MilvusCluster)) : check :=
  validateClusterBasic_loop 0 0 "" ∅ clusters.

(** ** validateRelevance *)

Definition validateRelevance : check := fun v =>
  match clusterMap v !! currentClusterID v with
  | None => (v, Some (ErrNotIncluded (currentClusterID v)))
  | Some currentCluster =>
      if negb (equalIgnoreOrder (currentPChannels v) (Pchannels currentCluster)) then
        (v, Some (ErrPchannelsMismatch (currentPChannels v) (Pchannels currentCluster)))
      else (v, None)
  end.

(** ** validateTopologyEdgeUniqueness *)

(** [fmt.Sprintf("%s->%s", source, target)], also written
    [source + "->" + target] in the source. *)
Definition edgeKey (source target : string) : string :=
  source +:+ "->" +:+ target.

Fixpoint edge_loop (clusterMap : gmap string MilvusCluster) (i : Z)
    (edgeSet : gset string) (topologies : list (option CrossClusterTopology))
  : option error :=
  match topologies with
  | [] => None
  | None :: _ => Some (ErrTopologyNil i)
  | Some topology :: rest =>
      let sourceClusterID := SourceClusterId topology in
      let targetClusterID := TargetClusterId topology in
      match clusterMap !! sourceClusterID with
      | None => Some (ErrUnknownSource i sourceClusterID)
      | Some _ =>
        match clusterMap !! targetClusterID with
        | None => Some (ErrUnknownTarget i targetClusterID)
        | Some _ =>
          let key := edgeKey sourceClusterID targetClusterID in
          if decide (key ∈ edgeSet) then Some (ErrDuplicateEdge key)
          else edge_loop clusterMap (i + 1) ({[key]} ∪ edgeSet) rest
        end
      end
  end.

Definition validateTopologyEdgeUniqueness
    (topologies : list (option CrossClusterTopology)) : check := fun v =>
  if len topologies =? 0 then (v, None)
  else (v, edge_loop (clusterMap v) 0 ∅ topologies).

(** ** validateTopologyTypeConstraint *)

(** [inDegree[clusterID] = 0; outDegree[clusterID] = 0] for every cluster. *)
Fixpoint init_degrees (ids : list (string * MilvusCluster))
    (inDegree outDegree : gmap string Z) : gmap string Z * gmap string Z :=
  match ids with
  | [] => (inDegree, outDegree)
  | (clusterID, _) :: rest =>
      init_degrees rest (<[clusterID := 0]> inDegree) (<[clusterID := 0]> outDegree)
  end.

(** [outDegree[source]++; inDegree[target]++] for every edge. *)
Fixpoint count_degrees (topologies : list (option CrossClusterTopology))
    (inDegree outDegree : gmap string Z) : gmap string Z * gmap string Z :=
  match topologies with
  | [] => (inDegree, outDegree)
  | topology :: rest =>
      let source := GetSourceClusterId topology in
      let target := GetTargetClusterId topology in
      let outDegree := <[source := counts_get outDegree source + 1]> outDegree in
      let inDegree := <[target := counts_get inDegree target + 1]> inDegree in
      count_degrees rest inDegree outDegree
  end.

Definition is_center (inDegree outDegree : gmap string Z) (clusterCount : Z)
    (clusterID : string) : bool :=
  (counts_get outDegree clusterID =? clusterCount - 1)
  && (counts_get inDegree clusterID =? 0).

(** The search for the center node; [centerNode] is the local variable,
    [""] while none is found. *)
Fixpoint find_center (inDegree outDegree : gmap string Z) (clusterCount : Z)
    (centerNode : string) (ids : list (string * MilvusCluster)) : error + string :=
  match ids with
  | [] => inr centerNode
  | (clusterID, _) :: rest =>
      if is_center inDegree outDegree clusterCount clusterID then
        if negb (bool_decide (centerNode = "")) then inl ErrMultipleCenters
        else find_center inDegree outDegree clusterCount clusterID rest
      else find_center inDegree outDegree clusterCount centerNode rest
  end.

Fixpoint check_leaves (inDegree outDegree : gmap string Z) (centerNode : string)
    (ids : list (string * MilvusCluster)) : option error :=
  match ids with
  | [] => None
  | (clusterID, _) :: rest =>
      if bool_decide (clusterID = centerNode) then
        check_leaves inDegree outDegree centerNode rest
      else if negb (counts_get inDegree clusterID =? 1)
              || negb (counts_get outDegree clusterID =? 0) then
        Some (ErrNotStar clusterID (counts_get inDegree clusterID)
                (counts_get outDegree clusterID))
      else check_leaves inDegree outDegree centerNode rest
  end.

Definition degrees (clusterMap : gmap string MilvusCluster)
    (topologies : list (option CrossClusterTopology)) : gmap string Z * gmap string Z :=
  let '(inDegree, outDegree) := init_degrees (range_map 0 clusterMap) ∅ ∅ in
  count_degrees topologies inDegree outDegree.

Definition validateTopologyTypeConstraint
    (topologies : list (option CrossClusterTopology)) : check := fun v =>
  if len topologies =? 0 then (v, None)
  else
    let '(inDegree, outDegree) := degrees (clusterMap v) topologies in
    let clusterCount := len_map (clusterMap v) in
    match find_center inDegree outDegree clusterCount "" (range_map 1 (clusterMap v)) with
    | inl e => (v, Some e)
    | inr centerNode =>
        if bool_decide (centerNode = "") then (v, Some ErrNoCenter)
        else (v, check_leaves inDegree outDegree centerNode (range_map 2 (clusterMap v)))
    end.

(** ** validateClusterConsistency *)

Definition validateClusterConsistency (current incoming : option MilvusCluster)
  : check := fun v =>
  let currentPchannels := GetPchannels current in
  let incomingPchannels := GetPchannels incoming in
  if len incomingPchannels <? len currentPchannels then
    (v, Some (ErrPchannelsDecrease (GetClusterId current)
                (len currentPchannels) (len incomingPchannels)))
  else if negb (bool_decide
                  (currentPchannels = take (length currentPchannels) incomingPchannels)) then
    (v, Some (ErrPchannelsNotPreserved (GetClusterId current)
                currentPchannels incomingPchannels))
  else
    let v := if len incomingPchannels >? len currentPchannels
             then set_isPChannelIncreasing true v else v in
    let currentConn := GetConnectionParam current in
    let incomingConn := GetConnectionParam incoming in
    if negb (bool_decide (GetUri currentConn = GetUri incomingConn)) then
      (v, Some (ErrUriChanged (GetClusterId current)
                  (GetUri currentConn) (GetUri incomingConn)))
    else if negb (bool_decide (GetToken currentConn = GetToken incomingConn)) then
      (v, Some (ErrTokenChanged (GetClusterId current)))
    else (v, None).

(** ** validatePChannelIncreasingConstraints *)

Fixpoint missing_cluster_loop (clusterMap : gmap string MilvusCluster)
    (ids : list (string * MilvusCluster)) : option error :=
  match ids with
  | [] => None
  | (clusterID, _) :: rest =>
      match clusterMap !! clusterID with
      | None => Some (ErrGrowthClusterMissing clusterID)
      | Some _ => missing_cluster_loop clusterMap rest
      end
  end.

Fixpoint collect_edges (topos : list (option CrossClusterTopology))
    (currentEdges : gset string) : gset string :=
  match topos with
  | [] => currentEdges
  | topo :: rest =>
      collect_edges rest
        ({[edgeKey (GetSourceClusterId topo) (GetTargetClusterId topo)]} ∪ currentEdges)
  end.

Fixpoint edges_in_current_loop (currentEdges : gset string)
    (incomingTopos : list (option CrossClusterTopology)) : option error :=
  match incomingTopos with
  | [] => None
  | topo :: rest =>
      let edge := edgeKey (GetSourceClusterId topo) (GetTargetClusterId topo) in
      if decide (edge ∈ currentEdges) then edges_in_current_loop currentEdges rest
      else Some (ErrGrowthEdgeNotInCurrent edge)
  end.

Definition validatePChannelIncreasingConstraints
    (currentClusterMap : gmap string MilvusCluster) : check := fun v =>
  if negb (len_map currentClusterMap =? len_map (clusterMap v)) then
    (v, Some (ErrGrowthClusterCount (len_map currentClusterMap) (len_map (clusterMap v))))
  else
  match missing_cluster_loop (clusterMap v) (range_map 3 currentClusterMap) with
  | Some e => (v, Some e)
  | None =>
    let currentTopos := GetCrossClusterTopology (currentConfig v) in
    let incomingTopos := GetCrossClusterTopology (incomingConfig v) in
    if negb (len currentTopos =? len incomingTopos) then
      (v, Some (ErrGrowthEdgeCount (len currentTopos) (len incomingTopos)))
    else
      let currentEdges := collect_edges currentTopos ∅ in
      (v, edges_in_current_loop currentEdges incomingTopos)
  end.

(** ** validateConfigComparison *)

(** [currentClusterMap[cluster.GetClusterId()] = cluster] for every
    non-nil current cluster: a later cluster replaces an earlier one of
    the same ID. *)
Fixpoint build_currentClusterMap (currentClusters : list (option MilvusCluster))
    (currentClusterMap : gmap string MilvusCluster) : gmap string MilvusCluster :=
  match currentClusters with
  | [] => currentClusterMap
  | None :: rest => build_currentClusterMap rest currentClusterMap
  | Some cluster :: rest =>
      build_currentClusterMap rest (<[ClusterId cluster := cluster]> currentClusterMap)
  end.

Fixpoint comparison_loop (currentClusterMap : gmap string MilvusCluster)
    (incomingClusters : list (option MilvusCluster)) : check :=
  match incomingClusters with
  | [] => ok
  | incomingCluster :: rest =>
      let clusterID := GetClusterId incomingCluster in
      match currentClusterMap !! clusterID with
      | Some currentCluster =>
          validateClusterConsistency (Some currentCluster) incomingCluster
          >>> comparison_loop currentClusterMap rest
      | None => comparison_loop currentClusterMap rest
      end
  end.

Definition validateConfigComparison : check := fun v =>
  let currentClusters := GetClusters (currentConfig v) in
  let currentClusterMap := build_currentClusterMap currentClusters ∅ in
  (comparison_loop currentClusterMap (GetClusters (incomingConfig v))
   >>> (fun v =>
          if isPChannelIncreasing v
          then validatePChannelIncreasingConstraints currentClusterMap v
          else (v, None))) v.

(** ** Validate *)

Definition Validate : check := fun v =>
  match incomingConfig v with
  | None => (v, Some ErrConfigNil)
  | Some _ =>
    let clusters := GetClusters (incomingConfig v) in
    if len clusters =? 0 then (v, Some ErrClustersEmpty)
    else
      let topologies := GetCrossClusterTopology (incomingConfig v) in
      (validateClusterBasic clusters
       >>> validateRelevance
       >>> validateTopologyEdgeUniqueness topologies
       >>> validateTopologyTypeConstraint topologies
       >>> (fun v => match currentConfig v with
                     | Some _ => validateConfigComparison v
                     | None => (v, None)
                     end)) v
  end.

Definition IsPChannelIncreasing (v : ReplicateConfigValidator) : bool :=
  isPChannelIncreasing v.

(** One call of the validator on fresh inputs, as its callers use it:
    [NewReplicateConfigValidator(...)] followed by [Validate()]. *)
Definition run (incoming current : option ReplicateConfiguration)
    (localClusterID : string) (localPChannels : list string)
  : ReplicateConfigValidator * option error :=
  Validate (NewReplicateConfigValidator incoming current localClusterID localPChannels).

End Validator.

(** ** Sample inputs, taken from the package's tests *)

Module Samples.

(** The URIs of the tests, which [url.ParseRequestURI] accepts. *)
Definition test_uris : list string :=
  ["localhost:19530"; "localhost:19531"; "localhost:19532"].

(** An environment that accepts the URIs of the tests and visits maps
    in the order of [map_to_list]. *)
Definition test_env : GoEnv := {|
  ParseRequestURI_ok uri := bool_decide (uri ∈ test_uris);
  range_map _ m := map_to_list m;
  range_map_perm _ m := reflexivity (map_to_list m)
|}.

Definition makeCluster (id uri : string) (pchannels : list string) : option MilvusCluster :=
  Some {| ClusterId := id;
          ConnectionParam_ := Some {| Uri := uri; Token := "t" |};
          Pchannels := pchannels |}.

Definition edge (s t : string) : option CrossClusterTopology :=
  Some {| SourceClusterId := s; TargetClusterId := t |}.

Definition two_clusters (chans : list string) (edges : list (option CrossClusterTopology))
  : option ReplicateConfiguration :=
  Some {| Clusters := [makeCluster "c1" "localhost:19530" chans;
                       makeCluster "c2" "localhost:19531" chans];
          CrossClusterTopology_ := edges |}.

(** [createStarTopologyConfig]: a center and two leaves. *)
Definition star3 : option ReplicateConfiguration :=
  Some {| Clusters := [makeCluster "center-cluster" "localhost:19530" ["channel-1"; "channel-2"];
                       makeCluster "leaf-cluster-1" "localhost:19531" ["channel-1"; "channel-2"];
                       makeCluster "leaf-cluster-2" "localhost:19532" ["channel-1"; "channel-2"]];
          CrossClusterTopology_ := [edge "center-cluster" "leaf-cluster-1";
                                    edge "center-cluster" "leaf-cluster-2"] |}.

(** Two clusters and a third one added, as in "new cluster added". *)
Definition three_clusters (chans : list string) : option ReplicateConfiguration :=
  Some {| Clusters := [makeCluster "c1" "localhost:19530" chans;
                       makeCluster "c2" "localhost:19531" chans;
                       makeCluster "c3" "localhost:19532" chans];
          CrossClusterTopology_ := [edge "c1" "c2"; edge "c1" "c3"] |}.

(** Both clusters grow, and the token of the second one changes. *)
Definition grown_with_token_change : option ReplicateConfiguration :=
  Some {| Clusters :=
            [makeCluster "c1" "localhost:19530" ["ch-1"; "ch-2"];
             Some {| ClusterId := "c2";
                     ConnectionParam_ := Some {| Uri := "localhost:19531"; Token := "other" |};
                     Pchannels := ["ch-1"; "ch-2"] |}];
          CrossClusterTopology_ := [edge "c1" "c2"] |}.

(** Two clusters whose IDs are ["a"] and ["a->a"], with one edge. *)
Definition arrow_clusters (chans : list string) (s t : string)
  : option ReplicateConfiguration :=
  Some {| Clusters := [makeCluster "a" "localhost:19530" chans;
                       makeCluster "a->a" "localhost:19531" chans];
          CrossClusterTopology_ := [edge s t] |}.

(** A cluster as a plain record, [makeCluster] without the pointer. *)
Definition plain_cluster (id uri : string) (pchannels : list string) : MilvusCluster :=
  {| ClusterId := id;
     ConnectionParam_ := Some {| Uri := uri; Token := "t" |};
     Pchannels := pchannels |}.

(** The environment of the tests with the maps visited in the reverse
    order. *)
Definition reversed_env : GoEnv := {|
  ParseRequestURI_ok uri := bool_decide (uri ∈ test_uris);
  range_map _ m := reverse (map_to_list m);
  range_map_perm _ m := reverse_Permutation (map_to_list m)
|}.

(** A validator built by hand, as the tests of the star check do, whose
    cluster map declares the empty ID and ["b"]. *)
Definition validator_with_empty_id : ReplicateConfigValidator :=
  set_clusterMap
    (<["" := plain_cluster "" "localhost:19530" ["ch-1"]]>
       (<["b" := plain_cluster "b" "localhost:19531" ["ch-1"]]> ∅))
    (NewReplicateConfigValidator None None "" []).

(** One cluster without edges. *)
Definition one_cluster (chans : list string) : option ReplicateConfiguration :=
  Some {| Clusters := [makeCluster "c1" "localhost:19530" chans];
          CrossClusterTopology_ := [] |}.

(** A current configuration that declares the ID ["c1"] twice, with a
    nil cluster in between. [Validate] never checks the current
    configuration. *)
Definition repeated_current_id : option ReplicateConfiguration :=
  Some {| Clusters := [makeCluster "c1" "localhost:19530" ["ch-1"; "ch-2"; "ch-3"];
                       None;
                       makeCluster "c1" "localhost:19530" ["ch-1"]];
          CrossClusterTopology_ := [] |}.

End Samples.

(** * Vocabulary of the properties *)

(** Number of occurrences of a string in a list. *)
Abbreviation occ := (count_occ string_dec).

Section Vocabulary.

Context {env : GoEnv}.

(** [v'] has the inputs of [v]: a check changes at most [clusterMap]
    and [isPChannelIncreasing]. *)
Definition same_inputs (v v' : ReplicateConfigValidator) : Prop :=
  currentClusterID v' = currentClusterID v
  /\ currentPChannels v' = currentPChannels v
  /\ incomingConfig v' = incomingConfig v
  /\ currentConfig v' = currentConfig v.

(** What a run of the cluster-basic loop over [clusters] from the
    validator [v] establishes, for its result [(v', r)]. *)
Definition basic_post (clusters : list (option MilvusCluster))
    (v v' : ReplicateConfigValidator) (r : option error) : Prop :=
  same_inputs v v'
  /\ isPChannelIncreasing v' = isPChannelIncreasing v
  /\ (forall e, r = Some e -> error_phase e = ClusterBasic)
  /\ (r = None ->
      exists cs : list MilvusCluster,
        clusters = Some <$> cs
        /\ NoDup (ClusterId <$> cs)
        /\ (forall c, c ∈ cs -> ClusterId c <> "" /\ clusterMap v !! ClusterId c = None)
        /\ (forall k c, clusterMap v' !! k = Some c <->
                        clusterMap v !! k = Some c \/ (c ∈ cs /\ ClusterId c = k))
        /\ size (clusterMap v') = (size (clusterMap v) + length cs)%nat).

(** The key under which the edge sets hold the edge [e]. *)
Definition key_of (e : CrossClusterTopology) : string :=
  edgeKey (SourceClusterId e) (TargetClusterId e).

(** What a successful pass of the edge loop establishes. *)
Definition edges_ok (cm : gmap string MilvusCluster)
    (topologies : list (option CrossClusterTopology)) : Prop :=
  exists es : list CrossClusterTopology,
    topologies = Some <$> es
    /\ (forall e, e ∈ es ->
          is_Some (cm !! SourceClusterId e) /\ is_Some (cm !! TargetClusterId e))
    /\ NoDup (key_of <$> es).

(** The number of edges that leave [k] and that enter [k]. *)
Definition out_count (k : string) (topologies : list (option CrossClusterTopology)) : nat :=
  length (filter (fun t => GetSourceClusterId t = k) topologies).

Definition in_count (k : string) (topologies : list (option CrossClusterTopology)) : nat :=
  length (filter (fun t => GetTargetClusterId t = k) topologies).

(** A star over the clusters of [cm] with center [C], in terms of the
    edge list. *)
Definition star_with_center (cm : gmap string MilvusCluster)
    (topologies : list (option CrossClusterTopology)) (C : string) : Prop :=
  is_Some (cm !! C)
  /\ Z.of_nat (out_count C topologies) = len_map cm - 1
  /\ in_count C topologies = 0%nat
  /\ forall k, is_Some (cm !! k) -> k <> C ->
       in_count k topologies = 1%nat /\ out_count k topologies = 0%nat.

(** The targets of the edges that leave [k]. *)
Definition targets_of (k : string) (es : list CrossClusterTopology) : list string :=
  TargetClusterId <$> filter (fun e => SourceClusterId e = k) es.

(** The last step of [Validate]: the comparison with the current
    configuration, when there is one. *)
Definition transition_step : check := fun v =>
  match currentConfig v with
  | Some _ => validateConfigComparison v
  | None => (v, None)
  end.

(** The structural phases passed from a fresh validator: what they
    establish about the incoming configuration [cfg] and the validator
    [v1] they leave. *)
Record structural (cfg : ReplicateConfiguration) (cur : option ReplicateConfiguration)
    (localClusterID : string) (localPChannels : list string)
    (cs : list MilvusCluster) (v1 : ReplicateConfigValidator) : Prop := {
  st_clusters : Clusters cfg = Some <$> cs;
  st_nonempty : cs <> [];
  st_nodup : NoDup (ClusterId <$> cs);
  st_ids : forall c, c ∈ cs -> ClusterId c <> "";
  st_map : forall k c, clusterMap v1 !! k = Some c <-> c ∈ cs /\ ClusterId c = k;
  st_size : size (clusterMap v1) = length cs;
  st_inputs : same_inputs
                (NewReplicateConfigValidator (Some cfg) cur localClusterID localPChannels) v1;
  st_flag : isPChannelIncreasing v1 = false;
  st_local : exists c, c ∈ cs /\ ClusterId c = localClusterID
                       /\ localPChannels ≡ₚ Pchannels c;
  st_edges : edges_ok (clusterMap v1) (CrossClusterTopology_ cfg);
  st_star : CrossClusterTopology_ cfg = []
            \/ exists C, star_with_center (clusterMap v1) (CrossClusterTopology_ cfg) C
}.

(** The index of the current configuration that [validateConfigComparison]
    builds: for each cluster ID, the last non-nil current cluster that
    declares it. *)
Definition currentIndex (cur : option ReplicateConfiguration) : gmap string MilvusCluster :=
  build_currentClusterMap (GetClusters cur) ∅.

(** The incoming cluster [ic] grows the pchannel list of the current
    cluster [cc]: it keeps the current list as a prefix and is longer. *)
Definition grows (cc : MilvusCluster) (ic : option MilvusCluster) : Prop :=
  Pchannels cc `prefix_of` GetPchannels ic
  /\ (length (Pchannels cc) < length (GetPchannels ic))%nat.

(** [cc] is the last non-nil cluster of [clusters] whose ID is [k]. *)
Definition last_declared (clusters : list (option MilvusCluster)) (k : string)
    (cc : MilvusCluster) : Prop :=
  exists l1 l2 : list (option MilvusCluster),
    clusters = (l1 ++ Some cc :: l2)%list
    /\ ClusterId cc = k
    /\ forall c, Some c ∈ l2 -> ClusterId c <> k.

(** The same validator with another current configuration. *)
Definition with_current (cur : option ReplicateConfiguration)
    (v : ReplicateConfigValidator) : ReplicateConfigValidator :=
  {| currentClusterID := currentClusterID v;
     currentPChannels := currentPChannels v;
     clusterMap := clusterMap v;
     incomingConfig := incomingConfig v;
     currentConfig := cur;
     isPChannelIncreasing := isPChannelIncreasing v |}.

(** The same validator with another local pchannel list. *)
Definition with_pchannels (pchannels : list string)
    (v : ReplicateConfigValidator) : ReplicateConfigValidator :=
  {| currentClusterID := currentClusterID v;
     currentPChannels := pchannels;
     clusterMap := clusterMap v;
     incomingConfig := incomingConfig v;
     currentConfig := currentConfig v;
     isPChannelIncreasing := isPChannelIncreasing v |}.

(** A replacement of one input of the validator. *)
Inductive input_update :=
| SetCurrent (cur : option ReplicateConfiguration)
| SetPChannels (pchannels : list string).

Definition update (u : input_update) : ReplicateConfigValidator -> ReplicateConfigValidator :=
  match u with
  | SetCurrent cur => with_current cur
  | SetPChannels pchannels => with_pchannels pchannels
  end.

(** The check [c] does not read the input that [u] replaces. *)
Definition ignores (u : input_update) (c : check) : Prop :=
  forall v, c (update u v) = (update u (c v).1, (c v).2).

(** The phases of [Validate] on the validator [v], in the order in
    which [Validate] calls them. *)
Definition phases (v : ReplicateConfigValidator) : list (phase * check) :=
  let clusters := GetClusters (incomingConfig v) in
  let topologies := GetCrossClusterTopology (incomingConfig v) in
  [ (ClusterBasic, validateClusterBasic clusters);
    (Relevance, validateRelevance);
    (EdgeUniqueness, validateTopologyEdgeUniqueness topologies);
    (StarShape, validateTopologyTypeConstraint topologies);
    (Transition, transition_step) ].

(** The checks [cs] one after the other, up to the first error. *)
Fixpoint run_all (cs : list check) : check :=
  match cs with
  | [] => ok
  | c :: cs => c >>> run_all cs
  end.

(** The edges of a configuration as (source, target) pairs. *)
Definition edge_pairs (cfg : option ReplicateConfiguration) : list (string * string) :=
  (fun t => (GetSourceClusterId t, GetTargetClusterId t)) <$> GetCrossClusterTopology cfg.

(** The URI a cluster declares, [""] without connection parameters. *)
Definition uri_of (c : MilvusCluster) : string := GetUri (ConnectionParam_ c).

(** What [validateClusterBasic] asks of one cluster, [parse] telling
    which URIs [url.ParseRequestURI] accepts. *)
Definition cluster_ok (parse : string -> bool) (c : MilvusCluster) : Prop :=
  ClusterId c <> ""
  /\ ContainsAny (ClusterId c) whitespace = false
  /\ ConnectionParam_ c <> None
  /\ uri_of c <> ""
  /\ parse (uri_of c) = true
  /\ Pchannels c <> []
  /\ (forall p, p ∈ Pchannels c -> p <> "")
  /\ NoDup (Pchannels c).

(** What it asks of the clusters together. *)
Definition clusters_ok (parse : string -> bool) (cs : list MilvusCluster) : Prop :=
  Forall (cluster_ok parse) cs
  /\ NoDup (ClusterId <$> cs)
  /\ NoDup (uri_of <$> cs)
  /\ (forall c c', c ∈ cs -> c' ∈ cs -> length (Pchannels c) = length (Pchannels c')).

(** The slot counts the loop accepts from index [i] on: all equal at the
    first turn, all equal to [expectedPchannelCount] afterwards. *)
Definition slots_ok (i ex : Z) (cs : list MilvusCluster) : Prop :=
  if i =? 0 then forall c c', c ∈ cs -> c' ∈ cs -> len (Pchannels c) = len (Pchannels c')
  else forall c, c ∈ cs -> len (Pchannels c) = ex.

(** A star over the cluster IDs [ids] with center [C], in terms of the
    edge list. *)
Definition star_of (ids : list string)
    (topologies : list (option CrossClusterTopology)) (C : string) : Prop :=
  C ∈ ids
  /\ Z.of_nat (out_count C topologies) = len ids - 1
  /\ in_count C topologies = 0%nat
  /\ forall k, k ∈ ids -> k <> C ->
       in_count k topologies = 1%nat /\ out_count k topologies = 0%nat.

(** Some incoming cluster is longer than its entry in the current index. *)
Definition some_cluster_grows (cs : list MilvusCluster)
    (cur : option ReplicateConfiguration) : Prop :=
  exists ic cc, ic ∈ cs /\ currentIndex cur !! ClusterId ic = Some cc
                /\ (length (Pchannels cc) < length (Pchannels ic))%nat.

(** What the transition check asks of the incoming clusters [cs] and
    edges [es] against the current configuration [cur]. *)
Definition transition_ok (cs : list MilvusCluster) (es : list CrossClusterTopology)
    (cur : option ReplicateConfiguration) : Prop :=
  (forall ic cc, ic ∈ cs -> currentIndex cur !! ClusterId ic = Some cc ->
     Pchannels cc `prefix_of` Pchannels ic
     /\ uri_of cc = uri_of ic
     /\ GetToken (ConnectionParam_ cc) = GetToken (ConnectionParam_ ic))
  /\ (some_cluster_grows cs cur ->
      (forall k, k ∈ dom (currentIndex cur) <-> k ∈ ClusterId <$> cs)
      /\ length (GetCrossClusterTopology cur) = length es
      /\ forall e, e ∈ es ->
           exists t', t' ∈ GetCrossClusterTopology cur
                      /\ key_of e = edgeKey (GetSourceClusterId t') (GetTargetClusterId t')).

(** The inputs [Validate] accepts, [parse] telling which URIs
    [url.ParseRequestURI] accepts. *)
Definition accepts (parse : string -> bool)
    (inc cur : option ReplicateConfiguration)
    (localClusterID : string) (localPChannels : list string) : Prop :=
  exists cfg cs es,
    inc = Some cfg
    /\ Clusters cfg = Some <$> cs
    /\ cs <> []
    /\ clusters_ok parse cs
    /\ (exists c, c ∈ cs /\ ClusterId c = localClusterID
                  /\ localPChannels ≡ₚ Pchannels c)
    /\ CrossClusterTopology_ cfg = Some <$> es
    /\ (forall e, e ∈ es -> SourceClusterId e ∈ ClusterId <$> cs
                           /\ TargetClusterId e ∈ ClusterId <$> cs)
    /\ NoDup (key_of <$> es)
    /\ (es = [] \/ exists C, star_of (ClusterId <$> cs) (Some <$> es) C)
    /\ transition_ok cs es cur.

(** The keys of the edges of a configuration. *)
Definition edge_keys (cfg : option ReplicateConfiguration) : list string :=
  (fun t => edgeKey (GetSourceClusterId t) (GetTargetClusterId t))
    <$> GetCrossClusterTopology cfg.

End Vocabulary.

(** * Properties *)

Section Properties.

Context {env : GoEnv}.

(** ** Sequencing *)

Lemma and_then_ok (c1 c2 : check) v v1 r :
  c1 v = (v1, None) -> c2 v1 = r -> (c1 >>> c2) v = r.
Proof. intros H1 H2. unfold and_then. by rewrite H1. Qed.

Lemma and_then_fail (c1 c2 : check) v v1 e :
  c1 v = (v1, Some e) -> (c1 >>> c2) v = (v1, Some e).
Proof. intros H1. unfold and_then. by rewrite H1. Qed.

Lemma and_then_inv (c1 c2 : check) v v' r :
  (c1 >>> c2) v = (v', r) ->
  (exists e, c1 v = (v', Some e) /\ r = Some e)
  \/ (exists v1, c1 v = (v1, None) /\ c2 v1 = (v', r)).
Proof.
  unfold and_then. destruct (c1 v) as [v1 [e|]] eqn:E; intros H.
  - left. exists e. by inversion H.
  - right. by exists v1.
Qed.

(** ** What a check leaves of the validator

    Only [validateClusterBasic] writes [clusterMap] and only
    [validateClusterConsistency] writes [isPChannelIncreasing]. *)

Lemma same_inputs_refl v : same_inputs v v.
Proof. by repeat split. Qed.

Lemma same_inputs_trans v1 v2 v3 :
  same_inputs v1 v2 -> same_inputs v2 v3 -> same_inputs v1 v3.
Proof. unfold same_inputs. intros (?&?&?&?) (?&?&?&?). repeat split; congruence. Qed.

(** ** validateClusterBasic *)

Lemma pchannels_loop_phase clusterID pchannels : forall j s e,
  pchannels_loop clusterID j s pchannels = Some e -> error_phase e = ClusterBasic.
Proof.
  induction pchannels as [|p rest IH]; intros j s e H; simpl in H; [done|].
  repeat case_match; simplify_eq; eauto.
Qed.

Lemma basic_post_fail clusters v e :
  error_phase e = ClusterBasic -> basic_post clusters v v (Some e).
Proof.
  intros He. split; [apply same_inputs_refl|]. split; [done|].
  split; [by intros ? [= <-]|done].
Qed.

Lemma basic_post_step cluster rest v v' r :
  ClusterId cluster <> "" ->
  clusterMap v !! ClusterId cluster = None ->
  basic_post rest (set_clusterMap (<[ClusterId cluster := cluster]> (clusterMap v)) v) v' r ->
  basic_post (Some cluster :: rest) v v' r.
Proof.
  intros Hid Hnew (Hsame & Hflag & Herr & Hok).
  split; [exact Hsame|]. split; [exact Hflag|]. split; [exact Herr|].
  intros Hr. destruct (Hok Hr) as (cs & -> & Hnd & Hfresh & Hmap & Hsize).
  simpl in *. exists (cluster :: cs).
  assert (Hnotin : ClusterId cluster ∉ ClusterId <$> cs).
  { intros Hin. apply list_elem_of_fmap in Hin as (cl & Heq & Hcl).
    destruct (Hfresh cl Hcl) as [_ Hnone]. rewrite <- Heq in Hnone.
    by rewrite lookup_insert_eq in Hnone. }
  split; [done|]. split; [by constructor|].
  split.
  { intros cl Hcl. apply elem_of_cons in Hcl as [->|Hcl]; [done|].
    destruct (Hfresh cl Hcl) as [Hne Hnone]. split; [done|].
    destruct (decide (ClusterId cluster = ClusterId cl)) as [Heq|Hneq].
    - rewrite Heq in Hnone. by rewrite lookup_insert_eq in Hnone.
    - by rewrite lookup_insert_ne in Hnone. }
  split.
  { intros k cl. rewrite Hmap. rewrite elem_of_cons.
    destruct (decide (ClusterId cluster = k)) as [<-|Hneq].
    - rewrite lookup_insert_eq. split.
      + intros [[= ->]|[Hcl Hk]]; [right; by split; [left|]|].
        right. by split; [right|].
      + intros [Hv|[[->|Hcl] Hk]]; [congruence|by left|]. right. by split.
    - rewrite lookup_insert_ne; [|done]. split.
      + intros [?|[Hcl Hk]]; [by left|]. right. by split; [right|].
      + intros [?|[[->|Hcl] Hk]]; [by left|done|]. right. by split. }
  rewrite Hsize. rewrite map_size_insert_None; [simpl; lia|done].
Qed.

Lemma validateClusterBasic_loop_inv clusters : forall i ex f u v v' r,
  validateClusterBasic_loop i ex f u clusters v = (v', r) ->
  basic_post clusters v v' r.
Proof.
  induction clusters as [|[cluster|] rest IH]; intros i ex f u v v' r H; simpl in H.
  - inversion H; subst. split; [apply same_inputs_refl|]. split; [done|].
    split; [done|]. intros _. exists []. split; [done|]. split; [constructor|].
    split; [intros c Hc; by apply elem_of_nil in Hc|].
    split; [|simpl; lia]. intros k c. split; [by left|].
    intros [?|[Hc _]]; [done|by apply elem_of_nil in Hc].
  - repeat case_match; simplify_eq;
      try (apply basic_post_fail; eauto using pchannels_loop_phase; done);
      (apply basic_post_step; [done|done|by eapply IH]).
  - inversion H; subst. by apply basic_post_fail.
Qed.

(** ** equalIgnoreOrder decides equality of multisets *)

Lemma counts_get_insert (m : gmap string Z) k z k' :
  counts_get (<[k := z]> m) k' = if decide (k = k') then z else counts_get m k'.
Proof.
  unfold counts_get. destruct (decide (k = k')) as [->|Hne].
  - by rewrite lookup_insert_eq.
  - by rewrite lookup_insert_ne.
Qed.

Lemma counts_get_empty k : counts_get ∅ k = 0.
Proof. unfold counts_get. by rewrite lookup_empty. Qed.

Lemma count_up_spec a : forall m k,
  counts_get (count_up a m) k = counts_get m k + Z.of_nat (occ a k).
Proof.
  induction a as [|v a IH]; intros m k; simpl; [lia|].
  rewrite IH, counts_get_insert.
  destruct (string_dec v k) as [->|Hne]; case_decide; try done; lia.
Qed.

Lemma count_down_spec b : forall m,
  (forall k, 0 <= counts_get m k) ->
  count_down b m = true <-> forall k, Z.of_nat (occ b k) <= counts_get m k.
Proof.
  induction b as [|v b IH]; intros m Hm; simpl.
  - split; [intros _ k; apply Hm|done].
  - destruct (counts_get m v =? 0) eqn:E.
    + apply Z.eqb_eq in E. split; [done|]. intros H. specialize (H v).
      destruct (string_dec v v); [lia|done].
    + apply Z.eqb_neq in E. pose proof (Hm v) as Hv. rewrite IH.
      * split; intros H k; specialize (H k).
        -- rewrite counts_get_insert in H.
           destruct (string_dec v k) as [->|Hne]; case_decide; try done; lia.
        -- rewrite counts_get_insert.
           destruct (string_dec v k) as [->|Hne]; case_decide; try done; lia.
      * intros k. rewrite counts_get_insert. case_decide; [lia|apply Hm].
Qed.

Lemma occ_le_submseteq (b : list string) : forall a : list string,
  (forall k, (occ b k <= occ a k)%nat) -> b ⊆+ a.
Proof.
  induction b as [|v b IH]; intros a H; [apply submseteq_nil_l|].
  assert (Hin : v ∈ a).
  { apply list_elem_of_In, (count_occ_In string_dec).
    specialize (H v). rewrite count_occ_cons_eq in H by done. lia. }
  apply elem_of_Permutation in Hin as [a' Ha']. rewrite Ha'.
  apply submseteq_skip, IH. intros k. specialize (H k).
  rewrite (proj1 (Permutation_count_occ string_dec _ _) Ha' k) in H.
  simpl in H. destruct (string_dec v k); lia.
Qed.

Lemma equalIgnoreOrder_spec (a b : list string) :
  equalIgnoreOrder a b = true <-> a ≡ₚ b.
Proof.
  unfold equalIgnoreOrder, len.
  destruct (Z.of_nat (length a) =? Z.of_nat (length b)) eqn:E; simpl.
  - apply Z.eqb_eq in E. rewrite count_down_spec.
    + split.
      * intros H. symmetry. apply submseteq_length_Permutation; [|lia].
        apply occ_le_submseteq. intros k. specialize (H k).
        rewrite count_up_spec, counts_get_empty in H. lia.
      * intros H k. rewrite count_up_spec, counts_get_empty.
        rewrite (proj1 (Permutation_count_occ string_dec _ _) H k). lia.
    + intros k. rewrite count_up_spec, counts_get_empty. lia.
  - apply Z.eqb_neq in E. split; [done|]. intros H.
    apply Permutation_length in H. lia.
Qed.

Lemma equalIgnoreOrder_perm (a a' b : list string) :
  a ≡ₚ a' -> equalIgnoreOrder a b = equalIgnoreOrder a' b.
Proof.
  intros H. destruct (equalIgnoreOrder a b) eqn:E1, (equalIgnoreOrder a' b) eqn:E2;
    try done.
  - apply equalIgnoreOrder_spec in E1.
    assert (equalIgnoreOrder a' b = true) by (apply equalIgnoreOrder_spec; by rewrite <- H).
    congruence.
  - apply equalIgnoreOrder_spec in E2.
    assert (equalIgnoreOrder a b = true) by (apply equalIgnoreOrder_spec; by rewrite H).
    congruence.
Qed.

(** ** validateRelevance *)

Lemma validateRelevance_inv v v' r :
  validateRelevance v = (v', r) ->
  v' = v
  /\ (forall e, r = Some e -> error_phase e = Relevance)
  /\ (r = None ->
      exists c, clusterMap v !! currentClusterID v = Some c
                /\ currentPChannels v ≡ₚ Pchannels c).
Proof.
  unfold validateRelevance. intros H.
  destruct (clusterMap v !! currentClusterID v) as [c|] eqn:Hc.
  - destruct (equalIgnoreOrder (currentPChannels v) (Pchannels c)) eqn:Heq;
      simpl in H; inversion H; subst; (split; [done|]); split;
      try (by intros ? [= <-]); try done.
    intros _. exists c. split; [done|]. by apply equalIgnoreOrder_spec.
  - inversion H; subst. split; [done|]. split; [by intros ? [= <-]|done].
Qed.

(** ** The order of a range statement *)

Lemma range_map_elem site (m : gmap string MilvusCluster) k c :
  (k, c) ∈ range_map site m <-> m !! k = Some c.
Proof. rewrite (range_map_perm site m). apply elem_of_map_to_list. Qed.

Lemma range_map_keys site (m : gmap string MilvusCluster) k :
  k ∈ (range_map site m).*1 <-> is_Some (m !! k).
Proof.
  rewrite list_elem_of_fmap. split.
  - intros ([k' c] & -> & Hin). apply range_map_elem in Hin. by exists c.
  - intros [c Hc]. exists (k, c). split; [done|]. by apply range_map_elem.
Qed.

Lemma range_map_NoDup site (m : gmap string MilvusCluster) :
  NoDup (range_map site m).*1.
Proof. rewrite (range_map_perm site m). apply NoDup_fst_map_to_list. Qed.

(** ** validateTopologyEdgeUniqueness *)

Lemma edge_loop_phase cm topologies : forall i s e,
  edge_loop cm i s topologies = Some e -> error_phase e = EdgeUniqueness.
Proof.
  induction topologies as [|[t|] rest IH]; intros i s e H; simpl in H; [done| |].
  - repeat case_match; simplify_eq; eauto.
  - by inversion H.
Qed.

Lemma edge_loop_None cm topologies : forall i (s : gset string),
  edge_loop cm i s topologies = None ->
  exists es : list CrossClusterTopology,
    topologies = Some <$> es
    /\ (forall e, e ∈ es ->
          is_Some (cm !! SourceClusterId e) /\ is_Some (cm !! TargetClusterId e))
    /\ NoDup (key_of <$> es)
    /\ (forall e, e ∈ es -> key_of e ∉ s).
Proof.
  induction topologies as [|[t|] rest IH]; intros i s H; simpl in H.
  - exists []. split; [done|]. split; [by intros e ?%elem_of_nil|].
    split; [constructor|by intros e ?%elem_of_nil].
  - destruct (cm !! SourceClusterId t) eqn:Hs; [|done].
    destruct (cm !! TargetClusterId t) eqn:Ht; [|done].
    case_decide as Hin; [done|].
    apply IH in H as (es & Heq & Hends & Hnd & Hout). subst rest.
    exists (t :: es). split; [done|]. split.
    { intros e [Heq|He]%elem_of_cons; [subst e; by split; eexists|by apply Hends]. }
    split.
    { simpl. constructor; [|done]. intros (e & Hk & He)%list_elem_of_fmap.
      apply (Hout e He). apply elem_of_union. left. apply elem_of_singleton.
      by rewrite <- Hk. }
    intros e [Heq|He]%elem_of_cons; [by subst e|].
    intros Hin'. apply (Hout e He). apply elem_of_union. by right.
  - done.
Qed.

Lemma validateTopologyEdgeUniqueness_inv topologies v v' r :
  validateTopologyEdgeUniqueness topologies v = (v', r) ->
  v' = v
  /\ (forall e, r = Some e -> error_phase e = EdgeUniqueness)
  /\ (r = None -> edges_ok (clusterMap v) topologies).
Proof.
  unfold validateTopologyEdgeUniqueness, len. intros H.
  destruct (Z.of_nat (length topologies) =? 0) eqn:E; inversion H; subst.
  - split; [done|]. split; [done|]. intros _.
    destruct topologies; [|simpl in E; lia].
    exists []. split; [done|]. split; [by intros e ?%elem_of_nil|constructor].
  - split; [done|]. split; [intros e He; by eapply edge_loop_phase|].
    intros Hr. apply edge_loop_None in Hr as (es & ? & ? & ? & _). by exists es.
Qed.

(** ** Degrees *)

Lemma init_degrees_zero ids : forall inD outD,
  (forall k, counts_get inD k = 0) -> (forall k, counts_get outD k = 0) ->
  (forall k, counts_get (init_degrees ids inD outD).1 k = 0)
  /\ (forall k, counts_get (init_degrees ids inD outD).2 k = 0).
Proof.
  induction ids as [|[id c] ids IH]; intros inD outD Hi Ho; simpl; [done|].
  apply IH; intros k; rewrite counts_get_insert; by case_decide.
Qed.

Lemma count_degrees_spec topologies : forall inD outD k,
  counts_get (count_degrees topologies inD outD).1 k
    = counts_get inD k + Z.of_nat (in_count k topologies)
  /\ counts_get (count_degrees topologies inD outD).2 k
    = counts_get outD k + Z.of_nat (out_count k topologies).
Proof.
  unfold in_count, out_count.
  induction topologies as [|t rest IH]; intros inD outD k; simpl; [lia|].
  destruct (IH (<[GetTargetClusterId t := counts_get inD (GetTargetClusterId t) + 1]> inD)
               (<[GetSourceClusterId t := counts_get outD (GetSourceClusterId t) + 1]> outD) k)
    as [-> ->].
  rewrite !counts_get_insert, !filter_cons.
  split; repeat case_decide; simplify_eq; simpl; lia.
Qed.

Lemma degrees_spec cm topologies k :
  counts_get (degrees cm topologies).1 k = Z.of_nat (in_count k topologies)
  /\ counts_get (degrees cm topologies).2 k = Z.of_nat (out_count k topologies).
Proof.
  unfold degrees.
  destruct (init_degrees_zero (range_map 0 cm) ∅ ∅ counts_get_empty counts_get_empty)
    as [Hi Ho].
  destruct (init_degrees (range_map 0 cm) ∅ ∅) as [inD outD]; simpl in *.
  destruct (count_degrees_spec topologies inD outD k) as [-> ->].
  rewrite Hi, Ho. lia.
Qed.

(** ** validateTopologyTypeConstraint *)

Lemma find_center_inr inD outD n ids : forall c0 c,
  find_center inD outD n c0 ids = inr c ->
  c = c0 \/ (c ∈ ids.*1 /\ is_center inD outD n c = true).
Proof.
  induction ids as [|[id cl] ids IH]; intros c0 c H; simpl in H.
  - left. by inversion H.
  - destruct (is_center inD outD n id) eqn:Hc.
    + destruct (negb (bool_decide (c0 = ""))); [done|].
      apply IH in H as [->|[Hin Hcen]]; right; simpl.
      * split; [by left|done].
      * split; [by right|done].
    + apply IH in H as [->|[Hin Hcen]]; [by left|]. right. simpl.
      split; [by right|done].
Qed.

Lemma find_center_phase inD outD n ids : forall c0 e,
  find_center inD outD n c0 ids = inl e -> e = ErrMultipleCenters.
Proof.
  induction ids as [|[id cl] ids IH]; intros c0 e H; simpl in H; [done|].
  repeat case_match; simplify_eq; eauto.
Qed.

(** If at most one of the keys qualifies as center, the search never
    meets a second one. *)
Lemma find_center_unique inD outD n (keys : string -> Prop) ids :
  (forall a b, keys a -> keys b ->
     is_center inD outD n a = true -> is_center inD outD n b = true -> a = b) ->
  forall c0,
  NoDup ids.*1 ->
  (forall k, k ∈ ids.*1 -> keys k) ->
  c0 = "" \/ (keys c0 /\ is_center inD outD n c0 = true /\ c0 ∉ ids.*1) ->
  forall e, find_center inD outD n c0 ids <> inl e.
Proof.
  intros Huniq. induction ids as [|[id cl] ids IH]; intros c0 Hnd Hkeys Hc0 e; simpl;
    [done|].
  simpl in Hnd. apply NoDup_cons in Hnd as [Hid Hnd].
  assert (Hidk : keys id) by (apply Hkeys; simpl; by left).
  assert (Hrest : forall k, k ∈ ids.*1 -> keys k) by (intros k Hk; apply Hkeys; by right).
  destruct (is_center inD outD n id) eqn:Hcen.
  - destruct Hc0 as [->|(Hk0 & Hcen0 & Hnot)].
    + rewrite bool_decide_eq_true_2 by done. simpl.
      apply IH; [done|done|]. right. by repeat split.
    + exfalso. assert (c0 = id) as -> by (by apply Huniq).
      apply Hnot. simpl. by left.
  - apply IH; [done|done|].
    destruct Hc0 as [->|(Hk0 & Hcen0 & Hnot)]; [by left|].
    right. repeat split; [done|done|]. intros Hin. apply Hnot. by right.
Qed.

Lemma check_leaves_phase inD outD c ids e :
  check_leaves inD outD c ids = Some e -> error_phase e = StarShape.
Proof.
  induction ids as [|[id cl] ids IH]; intros H; simpl in H; [done|].
  repeat case_match; simplify_eq; eauto.
Qed.

Lemma check_leaves_None inD outD c ids :
  check_leaves inD outD c ids = None ->
  forall k, k ∈ ids.*1 -> k <> c ->
    counts_get inD k = 1 /\ counts_get outD k = 0.
Proof.
  induction ids as [|[id cl] ids IH]; intros H k Hk Hne; simpl in *.
  - by apply elem_of_nil in Hk.
  - apply elem_of_cons in Hk as [->|Hk].
    + rewrite bool_decide_eq_false_2 in H by done.
      destruct (negb (counts_get inD id =? 1) || negb (counts_get outD id =? 0)) eqn:E;
        [done|].
      apply orb_false_elim in E as [E1 E2].
      apply negb_false_iff in E1, E2. lia.
    + repeat case_match; simplify_eq; eauto.
Qed.

Lemma is_center_spec cm topologies k :
  is_center (degrees cm topologies).1 (degrees cm topologies).2 (len_map cm) k = true
  <-> Z.of_nat (out_count k topologies) = len_map cm - 1
      /\ in_count k topologies = 0%nat.
Proof.
  unfold is_center. destruct (degrees_spec cm topologies k) as [-> ->].
  rewrite andb_true_iff, !Z.eqb_eq. lia.
Qed.

Lemma validateTopologyTypeConstraint_inv topologies v v' r :
  validateTopologyTypeConstraint topologies v = (v', r) ->
  v' = v
  /\ (forall e, r = Some e -> error_phase e = StarShape)
  /\ (r = None -> topologies = [] \/ exists C, star_with_center (clusterMap v) topologies C).
Proof.
  unfold validateTopologyTypeConstraint, len. intros H.
  destruct (Z.of_nat (length topologies) =? 0) eqn:E.
  { inversion H; subst. split; [done|]. split; [done|]. intros _. left.
    destruct topologies; [done|simpl in E; lia]. }
  pose proof (is_center_spec (clusterMap v) topologies) as Hcen.
  pose proof (degrees_spec (clusterMap v) topologies) as Hdeg.
  destruct (degrees (clusterMap v) topologies) as [inD outD]; simpl in *.
  destruct (find_center inD outD (len_map (clusterMap v)) "" (range_map 1 (clusterMap v)))
    as [e|C] eqn:Hfind.
  { inversion H; subst. split; [done|]. split; [|done]. intros e' [= <-].
    by rewrite (find_center_phase _ _ _ _ _ _ Hfind). }
  case_bool_decide as HC.
  { inversion H; subst. split; [done|]. split; [by intros e' [= <-]|done]. }
  inversion H; subst. split; [done|].
  split; [intros e He; by eapply check_leaves_phase|].
  intros Hleaves. right. exists C.
  apply find_center_inr in Hfind as [->|[Hin HcC]]; [done|].
  apply range_map_keys in Hin. apply Hcen in HcC as [Hout Hin0].
  split; [done|]. split; [done|]. split; [done|].
  intros k Hk Hne.
  destruct (check_leaves_None _ _ _ _ Hleaves k) as [Hi Ho];
    [by apply range_map_keys|done|].
  destruct (Hdeg k) as [Hik Hok]. rewrite Hik in Hi. rewrite Hok in Ho. lia.
Qed.

(** ** Counting edges *)

Lemma out_count_Some (es : list CrossClusterTopology) k :
  out_count k (Some <$> es) = length (filter (fun e => SourceClusterId e = k) es).
Proof.
  unfold out_count. induction es as [|e es IH]; [done|].
  rewrite fmap_cons, !filter_cons. simpl. repeat case_decide; simpl; try done; lia.
Qed.

Lemma in_count_zero topologies k :
  in_count k topologies = 0%nat ->
  forall t, t ∈ topologies -> GetTargetClusterId t <> k.
Proof.
  unfold in_count. induction topologies as [|t0 rest IH]; intros H t Ht.
  - by apply elem_of_nil in Ht.
  - rewrite filter_cons in H. case_decide as Hk; [done|].
    apply elem_of_cons in Ht as [->|Ht]; [done|by apply IH].
Qed.

Lemma out_count_zero topologies k :
  out_count k topologies = 0%nat ->
  forall t, t ∈ topologies -> GetSourceClusterId t <> k.
Proof.
  unfold out_count. induction topologies as [|t0 rest IH]; intros H t Ht.
  - by apply elem_of_nil in Ht.
  - rewrite filter_cons in H. case_decide as Hk; [done|].
    apply elem_of_cons in Ht as [->|Ht]; [done|by apply IH].
Qed.

Lemma out_count_all topologies k :
  (forall t, t ∈ topologies -> GetSourceClusterId t = k) ->
  out_count k topologies = length topologies.
Proof.
  unfold out_count. induction topologies as [|t0 rest IH]; intros H; [done|].
  rewrite filter_cons. rewrite decide_True by (apply H; by left).
  simpl. f_equal. apply IH. intros t Ht. apply H. by right.
Qed.

Lemma targets_of_NoDup k es :
  NoDup (key_of <$> es) -> NoDup (targets_of k es).
Proof.
  unfold targets_of. induction es as [|e es IH]; intros Hnd; [constructor|].
  simpl in Hnd. apply NoDup_cons in Hnd as [Hnot Hnd].
  rewrite filter_cons. case_decide as Hk; [|by apply IH].
  simpl. constructor; [|by apply IH].
  intros (e' & Ht & He')%list_elem_of_fmap.
  apply list_elem_of_filter in He' as [Hs He'].
  apply Hnot. apply list_elem_of_fmap. exists e'. split; [|done].
  unfold key_of. by rewrite Ht, Hk, Hs.
Qed.

(** Two declared clusters cannot both be free of incoming edges when
    one of them has an edge to all but one of the clusters. *)
Lemma center_excludes_source_free cm topologies c1 c2 :
  edges_ok cm topologies ->
  is_Some (cm !! c1) -> is_Some (cm !! c2) ->
  Z.of_nat (out_count c1 topologies) = len_map cm - 1 ->
  in_count c1 topologies = 0%nat ->
  in_count c2 topologies = 0%nat ->
  c1 = c2.
Proof.
  intros (es & -> & Hends & Hnd) H1 H2 Hout Hin1 Hin2.
  destruct (decide (c1 = c2)) as [|Hne]; [done|exfalso].
  rewrite out_count_Some in Hout. unfold len_map in Hout.
  pose proof (targets_of_NoDup c1 es Hnd) as HndT.
  assert (Hsub : (list_to_set (targets_of c1 es) : gset string)
                   ⊆ dom cm ∖ ({[c1]} ∪ {[c2]})).
  { intros t Ht. apply elem_of_list_to_set in Ht.
    unfold targets_of in Ht. apply list_elem_of_fmap in Ht as (e & -> & He).
    apply list_elem_of_filter in He as [_ He].
    apply elem_of_difference. split.
    - apply elem_of_dom. by apply Hends.
    - assert (Hmem : Some e ∈ Some <$> es) by (apply list_elem_of_fmap; by exists e).
      intros [Hc%elem_of_singleton|Hc%elem_of_singleton]%elem_of_union.
      + by apply (in_count_zero _ _ Hin1 _ Hmem).
      + by apply (in_count_zero _ _ Hin2 _ Hmem). }
  assert (Hpair : ({[c1]} ∪ {[c2]} : gset string) ⊆ dom cm).
  { intros k [->%elem_of_singleton| ->%elem_of_singleton]%elem_of_union;
      by apply elem_of_dom. }
  apply subseteq_size in Hsub.
  rewrite size_list_to_set in Hsub by done.
  rewrite size_difference in Hsub by done.
  apply subseteq_size in Hpair.
  rewrite size_union, !size_singleton, size_dom in Hsub, Hpair by set_solver.
  unfold targets_of in Hsub. rewrite length_fmap in Hsub. lia.
Qed.

(** ** Validate, phase by phase *)

Lemma Validate_ok_inv v v' :
  Validate v = (v', None) ->
  exists cfg v1,
    incomingConfig v = Some cfg
    /\ Clusters cfg <> []
    /\ validateClusterBasic (Clusters cfg) v = (v1, None)
    /\ validateRelevance v1 = (v1, None)
    /\ validateTopologyEdgeUniqueness (CrossClusterTopology_ cfg) v1 = (v1, None)
    /\ validateTopologyTypeConstraint (CrossClusterTopology_ cfg) v1 = (v1, None)
    /\ transition_step v1 = (v', None).
Proof.
  unfold Validate. intros H.
  destruct (incomingConfig v) as [cfg|] eqn:Hcfg; [|done]. simpl in H.
  destruct (len (Clusters cfg) =? 0) eqn:Hlen; [done|].
  apply and_then_inv in H as [(e & _ & ?)|(v1 & H1 & H)]; [done|].
  apply and_then_inv in H as [(e & _ & ?)|(v2 & H2 & H)]; [done|].
  apply and_then_inv in H as [(e & _ & ?)|(v3 & H3 & H)]; [done|].
  apply and_then_inv in H as [(e & _ & ?)|(v4 & H4 & H)]; [done|].
  destruct (validateRelevance_inv _ _ _ H2) as [-> _].
  destruct (validateTopologyEdgeUniqueness_inv _ _ _ _ H3) as [-> _].
  destruct (validateTopologyTypeConstraint_inv _ _ _ _ H4) as [-> _].
  exists cfg, v1. repeat split; try done.
  intros Hnil. rewrite Hnil in Hlen. done.
Qed.

Lemma run_ok_structural inc cur localClusterID localPChannels v' :
  run inc cur localClusterID localPChannels = (v', None) ->
  exists cfg cs v1,
    inc = Some cfg
    /\ structural cfg cur localClusterID localPChannels cs v1
    /\ transition_step v1 = (v', None).
Proof.
  unfold run. intros H.
  apply Validate_ok_inv in H as (cfg & v1 & Hcfg & Hne & H1 & H2 & H3 & H4 & H5).
  simpl in Hcfg. subst inc.
  apply validateClusterBasic_loop_inv in H1 as (Hsame & Hflag & _ & Hok).
  destruct (Hok eq_refl) as (cs & Hcs & Hnd & Hfresh & Hmap & Hsize).
  apply validateRelevance_inv in H2 as (_ & _ & Hrel).
  destruct (Hrel eq_refl) as (c & Hc & Hperm).
  apply validateTopologyEdgeUniqueness_inv in H3 as (_ & _ & Hedges).
  apply validateTopologyTypeConstraint_inv in H4 as (_ & _ & Hstar).
  simpl in *.
  assert (Hmap' : forall k c, clusterMap v1 !! k = Some c <-> c ∈ cs /\ ClusterId c = k).
  { intros k c0. rewrite Hmap, lookup_empty. split; [by intros [?|?]|by right]. }
  exists cfg, cs, v1. split; [done|]. split; [|done].
  destruct Hsame as (Hid & Hch & Hinc & Hcur).
  split.
  - done.
  - intros ->. by rewrite Hcs in Hne.
  - done.
  - intros c0 Hc0. by apply Hfresh.
  - done.
  - rewrite Hsize, map_size_empty. lia.
  - done.
  - done.
  - exists c. rewrite Hid in Hc. apply Hmap' in Hc as [Hin Heq].
    split; [done|]. split; [done|]. by rewrite Hch in Hperm.
  - by apply Hedges.
  - by apply Hstar.
Qed.

Lemma check_leaves_err inD outD c ids e :
  check_leaves inD outD c ids = Some e -> exists k i o, e = ErrNotStar k i o.
Proof.
  induction ids as [|[id cl] ids IH]; intros H; simpl in H; [done|].
  repeat case_match; simplify_eq; eauto.
Qed.

Lemma declared_iff cfg cur localClusterID localPChannels cs v1 k :
  structural cfg cur localClusterID localPChannels cs v1 ->
  k ∈ GetClusterId <$> Clusters cfg <-> is_Some (clusterMap v1 !! k).
Proof.
  intros St. rewrite (st_clusters _ _ _ _ _ _ St), <- list_fmap_compose. split.
  - intros (c & -> & Hc)%list_elem_of_fmap. exists c.
    by apply (st_map _ _ _ _ _ _ St).
  - intros [c Hc]. apply (st_map _ _ _ _ _ _ St) in Hc as [Hc <-].
    apply list_elem_of_fmap. by exists c.
Qed.

(** C1. When [Validate] succeeds on a non-empty edge list, the graph is
    a star: there is a declared cluster [C] that is the source of every
    edge and the target of none, it is the only such cluster, every
    other declared cluster is the target of exactly one edge and the
    source of none, and there is one edge fewer than there are
    clusters. *)
Theorem Validate_star_uniqueness inc cur localClusterID localPChannels v :
  run inc cur localClusterID localPChannels = (v, None) ->
  GetCrossClusterTopology inc <> [] ->
  exists C,
    C ∈ GetClusterId <$> GetClusters inc
    /\ (forall t, t ∈ GetCrossClusterTopology inc -> GetSourceClusterId t = C)
    /\ (forall t, t ∈ GetCrossClusterTopology inc -> GetTargetClusterId t <> C)
    /\ (forall C', C' ∈ GetClusterId <$> GetClusters inc ->
          (forall t, t ∈ GetCrossClusterTopology inc -> GetSourceClusterId t = C') ->
          (forall t, t ∈ GetCrossClusterTopology inc -> GetTargetClusterId t <> C') ->
          C' = C)
    /\ (forall D, D ∈ GetClusterId <$> GetClusters inc -> D <> C ->
          in_count D (GetCrossClusterTopology inc) = 1%nat
          /\ out_count D (GetCrossClusterTopology inc) = 0%nat)
    /\ len (GetCrossClusterTopology inc) = len (GetClusters inc) - 1.
Proof.
  intros Hrun Hne.
  apply run_ok_structural in Hrun as (cfg & cs & v1 & -> & St & _).
  simpl in *.
  destruct (st_star _ _ _ _ _ _ St) as [Hnil|[C (HC & Hout & Hin & Hleaf)]]; [done|].
  destruct (st_edges _ _ _ _ _ _ St) as (es & Hes & Hends & _).
  assert (Hsrc : forall t, t ∈ CrossClusterTopology_ cfg -> GetSourceClusterId t = C).
  { intros t Ht. destruct (decide (GetSourceClusterId t = C)) as [|Hn]; [done|exfalso].
    pose proof Ht as Ht'. rewrite Hes in Ht'.
    apply list_elem_of_fmap in Ht' as (e & -> & He). simpl in *.
    destruct (Hleaf (SourceClusterId e)) as [_ Hz]; [by apply Hends|done|].
    by apply (out_count_zero _ _ Hz _ Ht). }
  exists C. split; [by apply (declared_iff _ _ _ _ _ _ _ St)|].
  split; [done|]. split; [by apply in_count_zero|]. split.
  { intros C' _ Hsrc' _. destruct (CrossClusterTopology_ cfg) as [|t0 rest]; [done|].
    rewrite <- (Hsrc t0), <- (Hsrc' t0); [done|by left|by left]. }
  split.
  { intros D HD HDC. apply Hleaf; [|done]. by apply (declared_iff _ _ _ _ _ _ _ St). }
  rewrite (out_count_all _ _ Hsrc) in Hout. unfold len, len_map in *.
  rewrite (st_size _ _ _ _ _ _ St) in Hout.
  rewrite (st_clusters _ _ _ _ _ _ St), length_fmap. lia.
Qed.

(** C9. On a non-empty edge list that passes the edge-uniqueness check,
    at most one cluster of the cluster map qualifies as center, so the
    star-shape check never returns "multiple center nodes found". *)
Theorem multiple_centers_unreachable topologies v :
  topologies <> [] ->
  validateTopologyEdgeUniqueness topologies v = (v, None) ->
  (forall c1 c2,
     is_Some (clusterMap v !! c1) -> is_Some (clusterMap v !! c2) ->
     is_center (degrees (clusterMap v) topologies).1
               (degrees (clusterMap v) topologies).2 (len_map (clusterMap v)) c1 = true ->
     is_center (degrees (clusterMap v) topologies).1
               (degrees (clusterMap v) topologies).2 (len_map (clusterMap v)) c2 = true ->
     c1 = c2)
  /\ snd (validateTopologyTypeConstraint topologies v) <> Some ErrMultipleCenters.
Proof.
  intros Hne Hedges.
  apply validateTopologyEdgeUniqueness_inv in Hedges as (_ & _ & Hok).
  specialize (Hok eq_refl).
  assert (Huniq : forall c1 c2,
    is_Some (clusterMap v !! c1) -> is_Some (clusterMap v !! c2) ->
    is_center (degrees (clusterMap v) topologies).1
              (degrees (clusterMap v) topologies).2 (len_map (clusterMap v)) c1 = true ->
    is_center (degrees (clusterMap v) topologies).1
              (degrees (clusterMap v) topologies).2 (len_map (clusterMap v)) c2 = true ->
    c1 = c2).
  { intros c1 c2 H1 H2 [Ho1 Hi1]%is_center_spec [Ho2 Hi2]%is_center_spec.
    by eapply center_excludes_source_free. }
  split; [exact Huniq|].
  unfold validateTopologyTypeConstraint.
  destruct (len topologies =? 0); [done|].
  destruct (degrees (clusterMap v) topologies) as [inD outD]; simpl in *.
  destruct (find_center inD outD (len_map (clusterMap v)) "" (range_map 1 (clusterMap v)))
    as [e|C] eqn:Hfind.
  { exfalso. revert Hfind.
    apply (find_center_unique inD outD _ (fun k => is_Some (clusterMap v !! k)));
      [exact Huniq|apply range_map_NoDup| |by left].
    intros k Hk. by apply range_map_keys in Hk. }
  case_bool_decide; [done|]. simpl.
  intros Hl. apply check_leaves_err in Hl as (k & i & o & ?). done.
Qed.

(** C10. With an empty local cluster ID [Validate] always fails: with a
    pre-check error, a cluster-basic error, or the error that the local
    cluster must be included in the clusters list. *)
Theorem Validate_empty_local_id inc cur localPChannels :
  exists e,
    snd (run inc cur "" localPChannels) = Some e
    /\ (error_phase e = PreCheck \/ error_phase e = ClusterBasic
        \/ e = ErrNotIncluded "").
Proof.
  unfold run, Validate. simpl.
  destruct inc as [cfg|]; [|exists ErrConfigNil; split; [done|by left]]. simpl.
  destruct (len (Clusters cfg) =? 0); [exists ErrClustersEmpty; split; [done|by left]|].
  set (v0 := NewReplicateConfigValidator (Some cfg) cur "" localPChannels).
  destruct (validateClusterBasic (Clusters cfg) v0) as [v1 [e|]] eqn:Hb.
  - exists e. rewrite (and_then_fail _ _ _ _ _ Hb). split; [done|].
    apply validateClusterBasic_loop_inv in Hb as (_ & _ & He & _).
    right. left. by apply He.
  - exists (ErrNotIncluded "").
    pose proof Hb as Hb'.
    apply validateClusterBasic_loop_inv in Hb' as ((Hid & _) & _ & _ & Hok).
    destruct (Hok eq_refl) as (cs & _ & _ & Hfresh & Hmap & _).
    assert (Hnone : clusterMap v1 !! "" = None).
    { destruct (clusterMap v1 !! "") as [c|] eqn:Hc; [|done].
      apply Hmap in Hc as [Hc|[Hc Hk]].
      - simpl in Hc. by rewrite lookup_empty in Hc.
      - by destruct (Hfresh c Hc). }
    assert (Hrel : validateRelevance v1 = (v1, Some (ErrNotIncluded ""))).
    { unfold validateRelevance. rewrite Hid. simpl. by rewrite Hnone. }
    rewrite (and_then_ok _ _ _ _ _ Hb (and_then_fail _ _ _ _ _ Hrel)).
    split; [done|]. by right; right.
Qed.

(** ** The transition check *)

Lemma take_eq_prefix (l k : list string) :
  l = take (length l) k -> l `prefix_of` k.
Proof. intros H. exists (drop (length l) k). rewrite H at 1. by rewrite take_drop. Qed.

Lemma validateClusterConsistency_inv cc ic v v' r :
  validateClusterConsistency (Some cc) ic v = (v', r) ->
  same_inputs v v'
  /\ clusterMap v' = clusterMap v
  /\ (forall e, r = Some e -> error_phase e = Transition)
  /\ (isPChannelIncreasing v' = true -> isPChannelIncreasing v = true \/ grows cc ic)
  /\ (r = None ->
      Pchannels cc `prefix_of` GetPchannels ic
      /\ GetUri (ConnectionParam_ cc) = GetUri (GetConnectionParam ic)
      /\ GetToken (ConnectionParam_ cc) = GetToken (GetConnectionParam ic)).
Proof.
  unfold validateClusterConsistency, len. simpl. intros H.
  destruct (Z.of_nat (length (GetPchannels ic)) <? Z.of_nat (length (Pchannels cc))) eqn:E1.
  { inversion H; subst. split; [apply same_inputs_refl|]. split; [done|].
    split; [by intros ? [= <-]|]. split; [by left|done]. }
  case_bool_decide as Hpre; simpl in H.
  2:{ inversion H; subst. split; [apply same_inputs_refl|]. split; [done|].
      split; [by intros ? [= <-]|]. split; [by left|done]. }
  apply take_eq_prefix in Hpre.
  assert (Hflag : forall b,
    isPChannelIncreasing
      (if Z.of_nat (length (GetPchannels ic)) >? Z.of_nat (length (Pchannels cc))
       then set_isPChannelIncreasing true v else v) = b ->
    b = true -> isPChannelIncreasing v = true \/ grows cc ic).
  { intros b Hb ->.
    destruct (Z.of_nat (length (GetPchannels ic)) >? Z.of_nat (length (Pchannels cc))) eqn:E2;
      [|by left].
    right. split; [done|]. lia. }
  assert (Hsame : forall w,
    w = (if Z.of_nat (length (GetPchannels ic)) >? Z.of_nat (length (Pchannels cc))
         then set_isPChannelIncreasing true v else v) ->
    same_inputs v w /\ clusterMap w = clusterMap v).
  { intros w ->. by destruct (_ >? _). }
  repeat case_bool_decide; simpl in H; inversion H; subst;
    (destruct (Hsame _ eq_refl) as [Hs Hm]; split; [exact Hs|]; split; [exact Hm|];
     split; [by intros ? [= <-]|]; split; [intros Hf; by eapply Hflag|done]).
Qed.

Lemma validateClusterConsistency_unchanged cc ic v :
  Pchannels cc = GetPchannels ic ->
  GetUri (ConnectionParam_ cc) = GetUri (GetConnectionParam ic) ->
  GetToken (ConnectionParam_ cc) = GetToken (GetConnectionParam ic) ->
  validateClusterConsistency (Some cc) ic v = (v, None).
Proof.
  intros Hp Hu Ht. unfold validateClusterConsistency. simpl.
  rewrite <- Hp, <- Hu, <- Ht, Z.ltb_irrefl, firstn_all.
  rewrite !bool_decide_eq_true_2 by done. simpl.
  by rewrite Z.gtb_ltb, Z.ltb_irrefl.
Qed.

Lemma validatePChannelIncreasingConstraints_inv idx v v' r :
  validatePChannelIncreasingConstraints idx v = (v', r) ->
  v' = v /\ (forall e, r = Some e -> error_phase e = Transition).
Proof.
  unfold validatePChannelIncreasingConstraints. intros H.
  destruct (negb (len_map idx =? len_map (clusterMap v)));
    [injection H as <- <-; split; [done|by intros ? [= <-]]|].
  destruct (missing_cluster_loop (clusterMap v) (range_map 3 idx)) as [e|] eqn:Hm.
  { injection H as <- <-. split; [done|]. intros ? [= <-].
    induction (range_map 3 idx) as [|[k c] l IH]; simpl in Hm; [done|].
    destruct (clusterMap v !! k); [by apply IH|]. by inversion Hm. }
  destruct (negb (len _ =? len _));
    [injection H as <- <-; split; [done|by intros ? [= <-]]|].
  injection H as <- <-. split; [done|]. intros e He.
  induction (GetCrossClusterTopology (incomingConfig v)) as [|t l IH]; simpl in He; [done|].
  case_decide; [by apply IH|]. by inversion He.
Qed.

Lemma comparison_loop_inv idx cls : forall v v' r,
  comparison_loop idx cls v = (v', r) ->
  same_inputs v v'
  /\ clusterMap v' = clusterMap v
  /\ (forall e, r = Some e -> error_phase e = Transition)
  /\ (isPChannelIncreasing v' = true ->
      isPChannelIncreasing v = true
      \/ exists ic cc, ic ∈ cls /\ idx !! GetClusterId ic = Some cc /\ grows cc ic)
  /\ (r = None ->
      forall ic cc, ic ∈ cls -> idx !! GetClusterId ic = Some cc ->
        Pchannels cc `prefix_of` GetPchannels ic
        /\ GetUri (ConnectionParam_ cc) = GetUri (GetConnectionParam ic)
        /\ GetToken (ConnectionParam_ cc) = GetToken (GetConnectionParam ic)).
Proof.
  induction cls as [|ic0 cls IH]; intros v v' r H; simpl in H.
  { inversion H; subst. split; [apply same_inputs_refl|]. split; [done|].
    split; [done|]. split; [by left|]. intros _ ic cc Hin. by apply elem_of_nil in Hin. }
  destruct (idx !! GetClusterId ic0) as [cc0|] eqn:Hidx.
  - apply and_then_inv in H as [(e & Hc & ->)|(v1 & Hc & Hrest)].
    + apply validateClusterConsistency_inv in Hc as (Hs & Hm & He & Hf & _).
      split; [done|]. split; [done|]. split; [done|]. split; [|done].
      intros Hflag. destruct (Hf Hflag) as [?|Hg]; [by left|].
      right. exists ic0, cc0. split; [by left|done].
    + apply validateClusterConsistency_inv in Hc as (Hs & Hm & _ & Hf & Hok).
      apply IH in Hrest as (Hs' & Hm' & He' & Hf' & Hok').
      split; [by eapply same_inputs_trans|]. split; [congruence|].
      split; [done|]. split.
      * intros Hflag. destruct (Hf' Hflag) as [Hv1|(ic & cc & Hin & Hl & Hg)].
        -- destruct (Hf Hv1) as [?|Hg]; [by left|].
           right. exists ic0, cc0. split; [by left|done].
        -- right. exists ic, cc. split; [by right|done].
      * intros Hr ic cc [->|Hin]%elem_of_cons Hl.
        -- rewrite Hidx in Hl. inversion Hl; subst. by apply Hok.
        -- by apply Hok'.
  - apply IH in H as (Hs' & Hm' & He' & Hf' & Hok').
    split; [done|]. split; [done|]. split; [done|]. split.
    + intros Hflag. destruct (Hf' Hflag) as [?|(ic & cc & Hin & Hl & Hg)]; [by left|].
      right. exists ic, cc. split; [by right|done].
    + intros Hr ic cc [->|Hin]%elem_of_cons Hl; [congruence|by apply Hok'].
Qed.

Lemma comparison_loop_unchanged idx cls : forall v,
  (forall ic cc, ic ∈ cls -> idx !! GetClusterId ic = Some cc ->
     Pchannels cc = GetPchannels ic
     /\ GetUri (ConnectionParam_ cc) = GetUri (GetConnectionParam ic)
     /\ GetToken (ConnectionParam_ cc) = GetToken (GetConnectionParam ic)) ->
  comparison_loop idx cls v = (v, None).
Proof.
  induction cls as [|ic0 cls IH]; intros v H; simpl; [done|].
  assert (Hrest : comparison_loop idx cls v = (v, None)).
  { apply IH. intros ic cc Hin. apply H. by right. }
  destruct (idx !! GetClusterId ic0) as [cc0|] eqn:Hidx; [|done].
  destruct (H ic0 cc0) as (Hp & Hu & Ht); [by left|done|].
  eapply and_then_ok; [by apply validateClusterConsistency_unchanged|done].
Qed.

Lemma validateConfigComparison_inv v v' r :
  validateConfigComparison v = (v', r) ->
  same_inputs v v'
  /\ clusterMap v' = clusterMap v
  /\ (forall e, r = Some e -> error_phase e = Transition)
  /\ (isPChannelIncreasing v' = true ->
      isPChannelIncreasing v = true
      \/ exists ic cc, ic ∈ GetClusters (incomingConfig v)
           /\ currentIndex (currentConfig v) !! GetClusterId ic = Some cc /\ grows cc ic)
  /\ (r = None ->
      forall ic cc, ic ∈ GetClusters (incomingConfig v) ->
        currentIndex (currentConfig v) !! GetClusterId ic = Some cc ->
        Pchannels cc `prefix_of` GetPchannels ic
        /\ GetUri (ConnectionParam_ cc) = GetUri (GetConnectionParam ic)
        /\ GetToken (ConnectionParam_ cc) = GetToken (GetConnectionParam ic)).
Proof.
  unfold validateConfigComparison, currentIndex. intros H.
  apply and_then_inv in H as [(e & Hc & ->)|(v1 & Hc & Hrest)].
  - apply comparison_loop_inv in Hc as (Hs & Hm & He & Hf & _).
    split; [done|]. split; [done|]. split; [done|]. split; [done|done].
  - apply comparison_loop_inv in Hc as (Hs & Hm & _ & Hf & Hok).
    assert (v' = v1 /\ forall e, r = Some e -> error_phase e = Transition) as [-> He].
    { destruct (isPChannelIncreasing v1).
      - by apply validatePChannelIncreasingConstraints_inv in Hrest.
      - by inversion Hrest. }
    split; [done|]. split; [done|]. split; [done|]. split; [done|].
    intros _. by apply Hok.
Qed.

Lemma transition_step_inv v v' r :
  transition_step v = (v', r) ->
  same_inputs v v'
  /\ clusterMap v' = clusterMap v
  /\ (forall e, r = Some e -> error_phase e = Transition)
  /\ (isPChannelIncreasing v' = true ->
      isPChannelIncreasing v = true
      \/ exists ic cc, ic ∈ GetClusters (incomingConfig v)
           /\ currentIndex (currentConfig v) !! GetClusterId ic = Some cc /\ grows cc ic)
  /\ (r = None ->
      forall ic cc, ic ∈ GetClusters (incomingConfig v) ->
        currentIndex (currentConfig v) !! GetClusterId ic = Some cc ->
        Pchannels cc `prefix_of` GetPchannels ic
        /\ GetUri (ConnectionParam_ cc) = GetUri (GetConnectionParam ic)
        /\ GetToken (ConnectionParam_ cc) = GetToken (GetConnectionParam ic)).
Proof.
  unfold transition_step. intros H.
  destruct (currentConfig v) as [cur|] eqn:Hcur.
  - apply validateConfigComparison_inv in H. by rewrite Hcur in H.
  - injection H as <- <-. split; [apply same_inputs_refl|]. split; [done|].
    split; [done|]. split; [by left|]. intros _ ic cc _ Hl.
    unfold currentIndex in Hl. simpl in Hl. by rewrite lookup_empty in Hl.
Qed.

Lemma Validate_inv v v' r :
  Validate v = (v', r) ->
  (exists e, r = Some e /\ error_phase e <> Transition
             /\ isPChannelIncreasing v' = isPChannelIncreasing v)
  \/ (exists cfg v1,
        incomingConfig v = Some cfg
        /\ Clusters cfg <> []
        /\ same_inputs v v1
        /\ isPChannelIncreasing v1 = isPChannelIncreasing v
        /\ validateClusterBasic (Clusters cfg) v = (v1, None)
        /\ validateRelevance v1 = (v1, None)
        /\ validateTopologyEdgeUniqueness (CrossClusterTopology_ cfg) v1 = (v1, None)
        /\ validateTopologyTypeConstraint (CrossClusterTopology_ cfg) v1 = (v1, None)
        /\ transition_step v1 = (v', r)).
Proof.
  unfold Validate. intros H.
  destruct (incomingConfig v) as [cfg|] eqn:Hcfg;
    [|injection H as <- <-; left; by exists ErrConfigNil].
  simpl in H.
  destruct (len (Clusters cfg) =? 0) eqn:Hlen;
    [injection H as <- <-; left; by exists ErrClustersEmpty|].
  apply and_then_inv in H as [(e & H1 & ->)|(v1 & H1 & H)].
  { apply validateClusterBasic_loop_inv in H1 as (_ & Hf & He & _).
    left. exists e. rewrite (He e eq_refl). by repeat split. }
  pose proof H1 as H1'.
  apply validateClusterBasic_loop_inv in H1' as (Hs & Hf & _ & _).
  apply and_then_inv in H as [(e & H2 & ->)|(v2 & H2 & H)].
  { apply validateRelevance_inv in H2 as (-> & He & _).
    left. exists e. rewrite (He e eq_refl). by repeat split. }
  destruct (validateRelevance_inv _ _ _ H2) as [-> _].
  apply and_then_inv in H as [(e & H3 & ->)|(v3 & H3 & H)].
  { apply validateTopologyEdgeUniqueness_inv in H3 as (-> & He & _).
    left. exists e. rewrite (He e eq_refl). by repeat split. }
  destruct (validateTopologyEdgeUniqueness_inv _ _ _ _ H3) as [-> _].
  apply and_then_inv in H as [(e & H4 & ->)|(v4 & H4 & H)].
  { apply validateTopologyTypeConstraint_inv in H4 as (-> & He & _).
    left. exists e. rewrite (He e eq_refl). by repeat split. }
  destruct (validateTopologyTypeConstraint_inv _ _ _ _ H4) as [-> _].
  right. exists cfg, v1. repeat split; try done; try apply Hs.
  intros Hnil. by rewrite Hnil in Hlen.
Qed.

(** Growth, read off the index [validateConfigComparison] builds. *)
Lemma growth_monotone_index inc cur localClusterID localPChannels v :
  run inc cur localClusterID localPChannels = (v, None) ->
  IsPChannelIncreasing v = true ->
  (forall ic cc,
     Some ic ∈ GetClusters inc -> currentIndex cur !! ClusterId ic = Some cc ->
     Pchannels cc `prefix_of` Pchannels ic)
  /\ (exists ic cc,
        Some ic ∈ GetClusters inc /\ currentIndex cur !! ClusterId ic = Some cc
        /\ Pchannels cc `prefix_of` Pchannels ic
        /\ (length (Pchannels cc) < length (Pchannels ic))%nat).
Proof.
  intros Hrun Hflag.
  apply run_ok_structural in Hrun as (cfg & cs & v1 & -> & St & Htr).
  destruct (st_inputs _ _ _ _ _ _ St) as (_ & _ & Hinc & Hcur). simpl in Hinc, Hcur.
  apply transition_step_inv in Htr as (_ & _ & _ & Hf & Hok).
  rewrite Hinc, Hcur in Hf, Hok. simpl in *. split.
  - intros ic cc Hin Hl. by destruct (Hok eq_refl (Some ic) cc Hin Hl).
  - destruct (Hf Hflag) as [Hv1|(ic & cc & Hin & Hl & Hpre & Hlen)].
    { by rewrite (st_flag _ _ _ _ _ _ St) in Hv1. }
    pose proof Hin as Hin'. rewrite (st_clusters _ _ _ _ _ _ St) in Hin'.
    apply list_elem_of_fmap in Hin' as (c & -> & _).
    by exists c, cc.
Qed.

(** ** Which inputs a check reads *)

Lemma ignores_and_then u c1 c2 :
  ignores u c1 -> ignores u c2 -> ignores u (c1 >>> c2).
Proof.
  intros H1 H2 v. unfold and_then. rewrite H1.
  destruct (c1 v) as [v1 [e|]]; simpl; [done|]. by rewrite H2.
Qed.

Lemma validateClusterBasic_loop_ignores u clusters : forall i ex f us,
  ignores u (validateClusterBasic_loop i ex f us clusters).
Proof.
  induction clusters as [|[cluster|] rest IH]; intros i ex f us v;
    [by destruct u| |by destruct u].
  destruct u; simpl;
    repeat (case_match; simpl; try done); simplify_eq;
    exact (IH _ _ _ _ (set_clusterMap (<[ClusterId cluster := cluster]> (clusterMap v)) v)).
Qed.

Lemma validateRelevance_ignores cur : ignores (SetCurrent cur) validateRelevance.
Proof.
  intros v. unfold validateRelevance. simpl.
  repeat (case_match; simpl; try done).
Qed.

Lemma validateTopologyEdgeUniqueness_ignores u topologies :
  ignores u (validateTopologyEdgeUniqueness topologies).
Proof.
  intros v. unfold validateTopologyEdgeUniqueness.
  destruct u; simpl; repeat (case_match; simpl; try done).
Qed.

Lemma validateTopologyTypeConstraint_ignores u topologies :
  ignores u (validateTopologyTypeConstraint topologies).
Proof.
  intros v. unfold validateTopologyTypeConstraint.
  destruct u; simpl; repeat (case_match; simpl; try done).
Qed.

Lemma validateClusterConsistency_ignores p cc ic :
  ignores (SetPChannels p) (validateClusterConsistency cc ic).
Proof.
  intros v. unfold validateClusterConsistency. simpl.
  repeat (case_match; simpl; try done).
Qed.

Lemma comparison_loop_ignores p idx cls :
  ignores (SetPChannels p) (comparison_loop idx cls).
Proof.
  induction cls as [|ic cls IH]; [done|]. simpl.
  destruct (idx !! GetClusterId ic); [|done].
  apply ignores_and_then; [apply validateClusterConsistency_ignores|done].
Qed.

Lemma validatePChannelIncreasingConstraints_ignores p idx :
  ignores (SetPChannels p) (validatePChannelIncreasingConstraints idx).
Proof.
  intros v. unfold validatePChannelIncreasingConstraints. simpl.
  repeat (case_match; simpl; try done).
Qed.

Lemma validateConfigComparison_ignores p :
  ignores (SetPChannels p) validateConfigComparison.
Proof.
  intros v.
  set (idx := build_currentClusterMap (GetClusters (currentConfig v)) ∅).
  set (rest := fun v : ReplicateConfigValidator =>
                 if isPChannelIncreasing v
                 then validatePChannelIncreasingConstraints idx v
                 else (v, None)).
  assert (Hrest : ignores (SetPChannels p) rest).
  { intros w. unfold rest. simpl. destruct (isPChannelIncreasing w); [|done].
    apply (validatePChannelIncreasingConstraints_ignores p idx w). }
  exact (ignores_and_then (SetPChannels p) _ _
           (comparison_loop_ignores p idx (GetClusters (incomingConfig v))) Hrest v).
Qed.

Lemma transition_step_ignores p : ignores (SetPChannels p) transition_step.
Proof.
  intros v. unfold transition_step. simpl.
  destruct (currentConfig v) as [cur|] eqn:Hcur; [|done].
  apply (validateConfigComparison_ignores p v).
Qed.

Lemma ignores_result u c v v1 r :
  ignores u c -> c v = (v1, r) -> c (update u v) = (update u v1, r).
Proof. intros H Hc. rewrite H. by rewrite Hc. Qed.

Lemma Validate_phases v cfg :
  incomingConfig v = Some cfg -> Clusters cfg <> [] ->
  Validate v =
  (validateClusterBasic (Clusters cfg)
   >>> validateRelevance
   >>> validateTopologyEdgeUniqueness (CrossClusterTopology_ cfg)
   >>> validateTopologyTypeConstraint (CrossClusterTopology_ cfg)
   >>> transition_step) v.
Proof.
  intros Hcfg Hne. unfold Validate. rewrite Hcfg. simpl.
  destruct (Clusters cfg) as [|c l] eqn:Hcl; [done|]. done.
Qed.

(** A configuration that passes the structural checks is compared with
    the current configuration from the validator those checks leave. *)
Lemma run_with_current inc cur localClusterID localPChannels v1 :
  run inc None localClusterID localPChannels = (v1, None) ->
  run inc cur localClusterID localPChannels = transition_step (with_current cur v1).
Proof.
  unfold run. intros H.
  apply Validate_ok_inv in H as (cfg & v1' & Hcfg & Hne & H1 & H2 & H3 & H4 & H5).
  simpl in Hcfg. subst inc.
  assert (v1' = v1) as ->.
  { unfold transition_step in H5.
    apply validateClusterBasic_loop_inv in H1 as ((_ & _ & _ & Hcur) & _).
    simpl in Hcur. rewrite Hcur in H5. by injection H5. }
  change (NewReplicateConfigValidator (Some cfg) cur localClusterID localPChannels)
    with (update (SetCurrent cur)
            (NewReplicateConfigValidator (Some cfg) None localClusterID localPChannels)).
  rewrite (Validate_phases _ cfg) by done.
  eapply and_then_ok;
    [apply ignores_result; [apply validateClusterBasic_loop_ignores|exact H1]|].
  eapply and_then_ok;
    [apply ignores_result; [apply validateRelevance_ignores|exact H2]|].
  eapply and_then_ok;
    [apply ignores_result; [apply validateTopologyEdgeUniqueness_ignores|exact H3]|].
  eapply and_then_ok;
    [apply ignores_result; [apply validateTopologyTypeConstraint_ignores|exact H4]|].
  done.
Qed.

Lemma accepted_when_unchanged inc cur localClusterID localPChannels v :
  run inc None localClusterID localPChannels = (v, None) ->
  (forall ic cc, ic ∈ GetClusters inc -> currentIndex cur !! GetClusterId ic = Some cc ->
     Pchannels cc = GetPchannels ic
     /\ GetUri (ConnectionParam_ cc) = GetUri (GetConnectionParam ic)
     /\ GetToken (ConnectionParam_ cc) = GetToken (GetConnectionParam ic)) ->
  run inc cur localClusterID localPChannels = (with_current cur v, None)
  /\ isPChannelIncreasing v = false.
Proof.
  intros Hrun Hsame. rewrite (run_with_current _ _ _ _ _ Hrun).
  apply run_ok_structural in Hrun as (cfg & cs & v1 & -> & St & Htr).
  destruct (st_inputs _ _ _ _ _ _ St) as (_ & _ & Hinc & Hcur). simpl in Hinc, Hcur.
  unfold transition_step in Htr. rewrite Hcur in Htr. injection Htr as <-.
  split; [|by apply (st_flag _ _ _ _ _ _ St)].
  unfold transition_step. simpl. destruct cur as [cur|]; [|done].
  unfold validateConfigComparison. simpl.
  eapply and_then_ok.
  - apply comparison_loop_unchanged. rewrite Hinc. exact Hsame.
  - simpl. by rewrite (st_flag _ _ _ _ _ _ St).
Qed.

(** C8. An incoming configuration that passes the structural checks and
    keeps pchannels, URI and token of every cluster found in the current
    index is accepted whatever the current cluster set and edge set are,
    and no growth is reported. *)
Theorem Validate_no_growth_accepts inc cur localClusterID localPChannels v :
  run inc None localClusterID localPChannels = (v, None) ->
  (forall ic cc,
     Some ic ∈ GetClusters inc -> currentIndex cur !! ClusterId ic = Some cc ->
     Pchannels cc = Pchannels ic
     /\ GetUri (ConnectionParam_ cc) = GetUri (ConnectionParam_ ic)
     /\ GetToken (ConnectionParam_ cc) = GetToken (ConnectionParam_ ic)) ->
  exists v',
    run inc cur localClusterID localPChannels = (v', None)
    /\ IsPChannelIncreasing v' = false.
Proof.
  intros Hrun Hsame. exists (with_current cur v).
  destruct (accepted_when_unchanged inc cur _ _ _ Hrun) as [Hacc Hflag]; [|done].
  intros [ic|] cc Hin Hl; [by apply Hsame|].
  apply run_ok_structural in Hrun as (cfg & cs & v1 & -> & St & _).
  simpl in Hin. rewrite (st_clusters _ _ _ _ _ _ St) in Hin.
  by apply list_elem_of_fmap in Hin as (c & ? & _).
Qed.

Lemma build_currentClusterMap_lookup cls : forall m k cc,
  build_currentClusterMap cls m !! k = Some cc ->
  (Some cc ∈ cls /\ ClusterId cc = k) \/ m !! k = Some cc.
Proof.
  induction cls as [|[c|] cls IH]; intros m k cc H; simpl in H.
  - by right.
  - apply IH in H as [[Hin Hk]|H]; [left; split; [by right|done]|].
    destruct (decide (ClusterId c = k)) as [<-|Hne].
    + rewrite lookup_insert_eq in H. injection H as ->. left. split; [by left|done].
    + rewrite lookup_insert_ne in H by done. by right.
  - apply IH in H as [[Hin Hk]|H]; [left; split; [by right|done]|by right].
Qed.

Lemma build_currentClusterMap_other cls : forall m k,
  k ∉ GetClusterId <$> cls -> build_currentClusterMap cls m !! k = m !! k.
Proof.
  induction cls as [|[c|] cls IH]; intros m k Hk; simpl in *; [done| |].
  - apply not_elem_of_cons in Hk as [Hne Hk].
    rewrite IH by done. by rewrite lookup_insert_ne.
  - apply not_elem_of_cons in Hk as [_ Hk]. by apply IH.
Qed.

(** An entry of the current index is a declared current cluster, and
    when the current clusters are non-nil with pairwise distinct IDs,
    each of them is its own entry. *)
Lemma currentIndex_declared cur k cc :
  currentIndex cur !! k = Some cc -> Some cc ∈ GetClusters cur /\ ClusterId cc = k.
Proof.
  unfold currentIndex. intros H.
  apply build_currentClusterMap_lookup in H as [?|H]; [done|].
  by rewrite lookup_empty in H.
Qed.

Lemma currentIndex_unique cur (cs : list MilvusCluster) c :
  GetClusters cur = Some <$> cs -> NoDup (ClusterId <$> cs) -> c ∈ cs ->
  currentIndex cur !! ClusterId c = Some c.
Proof.
  unfold currentIndex. intros -> Hnd Hc. generalize (∅ : gmap string MilvusCluster).
  induction cs as [|c0 cs IH]; intros m; [by apply elem_of_nil in Hc|].
  simpl in *. apply NoDup_cons in Hnd as [Hnot Hnd].
  apply elem_of_cons in Hc as [->|Hc]; [|by apply IH].
  rewrite build_currentClusterMap_other; [by rewrite lookup_insert_eq|].
  by rewrite <- list_fmap_compose.
Qed.

Lemma NoDup_fmap_elem_eq {A B} (f : A -> B) (l : list A) x y :
  NoDup (f <$> l) -> x ∈ l -> y ∈ l -> f x = f y -> x = y.
Proof.
  induction l as [|a l IH]; intros Hnd Hx Hy Hf; [by apply elem_of_nil in Hx|].
  simpl in Hnd. apply NoDup_cons in Hnd as [Hnot Hnd].
  apply elem_of_cons in Hx as [->|Hx]; apply elem_of_cons in Hy as [->|Hy]; try done.
  - exfalso. apply Hnot. rewrite Hf. by apply list_elem_of_fmap_2.
  - exfalso. apply Hnot. rewrite <- Hf. by apply list_elem_of_fmap_2.
  - by apply IH.
Qed.

(** The current index holds, for every ID, the last non-nil current
    cluster with that ID. *)
Lemma build_currentClusterMap_app l1 : forall l2 m,
  build_currentClusterMap (l1 ++ l2)%list m
  = build_currentClusterMap l2 (build_currentClusterMap l1 m).
Proof. induction l1 as [|[c|] l1 IH]; intros l2 m; simpl; [done| |]; apply IH. Qed.

Lemma build_currentClusterMap_skip cls : forall m k,
  (forall c, Some c ∈ cls -> ClusterId c <> k) ->
  build_currentClusterMap cls m !! k = m !! k.
Proof.
  induction cls as [|[c|] cls IH]; intros m k H; simpl; [done| |].
  - rewrite IH by (intros c' Hc'; apply H; by right).
    apply lookup_insert_ne. apply H. by left.
  - apply IH. intros c' Hc'. apply H. by right.
Qed.

Lemma build_currentClusterMap_last cls : forall m k cc,
  build_currentClusterMap cls m !! k = Some cc ->
  last_declared cls k cc
  \/ (m !! k = Some cc /\ forall c, Some c ∈ cls -> ClusterId c <> k).
Proof.
  induction cls as [|[c0|] cls IH]; intros m k cc H; simpl in H.
  - right. split; [done|]. by intros c ?%elem_of_nil.
  - apply IH in H as [(l1 & l2 & -> & Hk & Hl2)|[H Hno]].
    { left. by exists (Some c0 :: l1), l2. }
    destruct (decide (ClusterId c0 = k)) as [Heq|Hne].
    + rewrite <- Heq, lookup_insert_eq in H. injection H as <-.
      left. by exists [], cls.
    + rewrite lookup_insert_ne in H by done. right. split; [done|].
      intros c [[= ->]|Hc]%elem_of_cons; [done|by apply Hno].
  - apply IH in H as [(l1 & l2 & -> & Hk & Hl2)|[H Hno]].
    { left. by exists (None :: l1), l2. }
    right. split; [done|]. intros c [?|Hc]%elem_of_cons; [done|by apply Hno].
Qed.

Lemma build_currentClusterMap_is_Some cls : forall m k,
  is_Some (m !! k) \/ (exists c, Some c ∈ cls /\ ClusterId c = k) ->
  is_Some (build_currentClusterMap cls m !! k).
Proof.
  induction cls as [|[c0|] cls IH]; intros m k H; simpl.
  - destruct H as [H|(c & Hc%elem_of_nil & _)]; done.
  - apply IH. destruct (decide (ClusterId c0 = k)) as [<-|Hne].
    { left. rewrite lookup_insert_eq. by eexists. }
    destruct H as [H|(c & Hc & Hk)]; [left; by rewrite lookup_insert_ne|].
    right. exists c. by apply elem_of_cons in Hc as [[= ->]|Hc].
  - apply IH. destruct H as [H|(c & Hc & Hk)]; [by left|].
    right. exists c. by apply elem_of_cons in Hc as [?|Hc].
Qed.

Lemma last_declared_elem cls k cc :
  last_declared cls k cc -> Some cc ∈ cls /\ ClusterId cc = k.
Proof.
  intros (l1 & l2 & -> & Hk & _). split; [|done].
  apply elem_of_app. right. by left.
Qed.

Lemma currentIndex_last_iff cur k cc :
  currentIndex cur !! k = Some cc <-> last_declared (GetClusters cur) k cc.
Proof.
  unfold currentIndex. split.
  - intros H. apply build_currentClusterMap_last in H as [?|[H _]]; [done|].
    by rewrite lookup_empty in H.
  - intros (l1 & l2 & -> & Hk & Hl2). rewrite build_currentClusterMap_app. simpl.
    rewrite build_currentClusterMap_skip by done. rewrite <- Hk. apply lookup_insert_eq.
Qed.

Lemma last_declared_exists cur c :
  Some c ∈ GetClusters cur ->
  exists cc, last_declared (GetClusters cur) (ClusterId c) cc.
Proof.
  intros Hc.
  destruct (build_currentClusterMap_is_Some (GetClusters cur) ∅ (ClusterId c))
    as [cc Hcc]; [right; by exists c|].
  exists cc. by apply currentIndex_last_iff.
Qed.

(** C3, as the code has it. If [Validate] succeeds and
    [IsPChannelIncreasing] then returns true, then for every cluster ID
    present in both configurations the incoming pchannel list has as a
    position-wise prefix the pchannel list of the last non-nil current
    cluster with that ID; when no two different current clusters share
    an ID, that is the pchannel list of every current cluster with that
    ID; and at least one incoming cluster is strictly longer than the
    last current cluster with its ID. *)
Theorem Validate_growth_monotone inc cur localClusterID localPChannels v :
  run inc cur localClusterID localPChannels = (v, None) ->
  IsPChannelIncreasing v = true ->
  (forall ic cc,
     Some ic ∈ GetClusters inc -> Some cc ∈ GetClusters cur ->
     ClusterId cc = ClusterId ic ->
     exists cc', last_declared (GetClusters cur) (ClusterId ic) cc'
                 /\ Pchannels cc' `prefix_of` Pchannels ic)
  /\ ((forall cc cc',
         Some cc ∈ GetClusters cur -> Some cc' ∈ GetClusters cur ->
         ClusterId cc = ClusterId cc' -> cc = cc') ->
      forall ic cc,
        Some ic ∈ GetClusters inc -> Some cc ∈ GetClusters cur ->
        ClusterId cc = ClusterId ic ->
        Pchannels cc `prefix_of` Pchannels ic)
  /\ (exists ic cc,
        Some ic ∈ GetClusters inc
        /\ last_declared (GetClusters cur) (ClusterId ic) cc
        /\ Pchannels cc `prefix_of` Pchannels ic
        /\ (length (Pchannels cc) < length (Pchannels ic))%nat).
Proof.
  intros Hrun Hflag.
  destruct (growth_monotone_index _ _ _ _ _ Hrun Hflag)
    as [Hall (ic & cc & Hin & Hl & Hpre & Hlen)].
  split; [|split].
  - intros ic' cc' Hin' Hcur Hid.
    destruct (last_declared_exists cur cc' Hcur) as [cc'' Hlast].
    rewrite Hid in Hlast. exists cc''. split; [done|].
    apply (Hall ic' cc'' Hin'). by apply currentIndex_last_iff.
  - intros Huniq ic' cc' Hin' Hcur Hid.
    destruct (last_declared_exists cur cc' Hcur) as [cc'' Hlast].
    destruct (last_declared_elem _ _ _ Hlast) as [Hin'' Hid''].
    rewrite (Huniq cc' cc'' Hcur Hin'' (eq_sym Hid'')).
    apply (Hall ic' cc'' Hin'). apply currentIndex_last_iff. by rewrite <- Hid.
  - exists ic, cc. split; [done|]. split; [by apply currentIndex_last_iff|done].
Qed.

(** ** The flag is only ever set

    [validateClusterConsistency] has the one assignment to
    [isPChannelIncreasing], and it assigns true. *)

Lemma validateClusterConsistency_flag_mono current incoming v v' r :
  validateClusterConsistency current incoming v = (v', r) ->
  isPChannelIncreasing v = true -> isPChannelIncreasing v' = true.
Proof.
  unfold validateClusterConsistency. intros H Hv.
  repeat case_match; simplify_eq; done.
Qed.

Lemma comparison_loop_flag_mono idx cls : forall v v' r,
  comparison_loop idx cls v = (v', r) ->
  isPChannelIncreasing v = true -> isPChannelIncreasing v' = true.
Proof.
  induction cls as [|ic0 cls IH]; intros v v' r H Hv; simpl in H.
  { by injection H as <- <-. }
  destruct (idx !! GetClusterId ic0) as [cc0|]; [|by eapply IH].
  apply and_then_inv in H as [(e & Hc & ->)|(v1 & Hc & Hrest)].
  - by eapply validateClusterConsistency_flag_mono.
  - eapply IH; [done|]. by eapply validateClusterConsistency_flag_mono.
Qed.

Lemma transition_step_flag_mono v v' r :
  transition_step v = (v', r) ->
  isPChannelIncreasing v = true -> isPChannelIncreasing v' = true.
Proof.
  unfold transition_step, validateConfigComparison. intros H Hv.
  destruct (currentConfig v); [|by injection H as <- <-].
  apply and_then_inv in H as [(e & Hc & ->)|(v1 & Hc & Hrest)].
  - by eapply comparison_loop_flag_mono.
  - pose proof (comparison_loop_flag_mono _ _ _ _ _ Hc Hv) as Hv1.
    rewrite Hv1 in Hrest.
    apply validatePChannelIncreasingConstraints_inv in Hrest as [-> _]. done.
Qed.

Lemma Validate_flag_mono v v' r :
  Validate v = (v', r) ->
  isPChannelIncreasing v = true -> isPChannelIncreasing v' = true.
Proof.
  intros H Hv.
  apply Validate_inv in H
    as [(e & _ & _ & Hflag)|(cfg & v1 & _ & _ & _ & Hflag & _ & _ & _ & _ & Htr)].
  - by rewrite Hflag.
  - apply (transition_step_flag_mono _ _ _ Htr). by rewrite Hflag.
Qed.

(** C4, as the code has it. A failed [Validate] does not reset the
    flag, on any validator: [IsPChannelIncreasing] returns what it
    returned before the call when the error comes from a phase before
    the transition check; a flag that was true stays true; and a flag
    that is true after the failure was true before the call, or the
    error is one of the transition check and some incoming cluster grows
    the pchannel list of the last non-nil current cluster with its ID.
    On a validator that [NewReplicateConfigValidator] has just
    returned, the flag is false before the call: it is false after an
    error of an earlier phase, and true only after an error of the
    transition check with such a grown cluster. *)
Theorem Validate_failure_flag v v' e :
  Validate v = (v', Some e) ->
  (error_phase e <> Transition -> IsPChannelIncreasing v' = IsPChannelIncreasing v)
  /\ (IsPChannelIncreasing v = true -> IsPChannelIncreasing v' = true)
  /\ (IsPChannelIncreasing v' = true ->
      IsPChannelIncreasing v = true
      \/ (error_phase e = Transition
          /\ exists ic cc,
               ic ∈ GetClusters (incomingConfig v)
               /\ last_declared (GetClusters (currentConfig v)) (GetClusterId ic) cc
               /\ grows cc ic))
  /\ (forall inc cur localClusterID localPChannels,
        v = NewReplicateConfigValidator inc cur localClusterID localPChannels ->
        (error_phase e <> Transition -> IsPChannelIncreasing v' = false)
        /\ (IsPChannelIncreasing v' = true ->
            error_phase e = Transition
            /\ exists ic cc,
                 ic ∈ GetClusters inc
                 /\ last_declared (GetClusters cur) (GetClusterId ic) cc
                 /\ grows cc ic)).
Proof.
  intros Hrun.
  assert (Hpre : error_phase e <> Transition ->
                 IsPChannelIncreasing v' = IsPChannelIncreasing v).
  { intros Hph. apply Validate_inv in Hrun
      as [(e' & [= <-] & _ & Hflag)|(cfg & v1 & _ & _ & _ & _ & _ & _ & _ & _ & Htr)];
      [done|].
    apply transition_step_inv in Htr as (_ & _ & He & _). by destruct (Hph (He e eq_refl)). }
  assert (Hpost : IsPChannelIncreasing v' = true ->
                  IsPChannelIncreasing v = true
                  \/ (error_phase e = Transition
                      /\ exists ic cc,
                           ic ∈ GetClusters (incomingConfig v)
                           /\ last_declared (GetClusters (currentConfig v))
                                (GetClusterId ic) cc
                           /\ grows cc ic)).
  { intros Hv'. pose proof Hrun as Hrun'. apply Validate_inv in Hrun'
      as [(e' & [= <-] & _ & Hflag)
         |(cfg & v1 & _ & _ & (_ & _ & Hinc & Hcur) & Hflag & _ & _ & _ & _ & Htr)].
    { left. unfold IsPChannelIncreasing in *. by rewrite <- Hflag. }
    apply transition_step_inv in Htr as (_ & _ & He & Hf & _).
    rewrite Hinc, Hcur, Hflag in Hf.
    destruct (Hf Hv') as [?|(ic & cc & Hin & Hl & Hg)]; [by left|].
    right. split; [by apply He|]. exists ic, cc. split; [done|].
    split; [by apply currentIndex_last_iff|done]. }
  split; [done|]. split; [by apply (Validate_flag_mono _ _ _ Hrun)|]. split; [done|].
  intros inc cur localClusterID localPChannels ->. split.
  - intros Hph. by rewrite (Hpre Hph).
  - intros Hv'. by destruct (Hpost Hv') as [?|?].
Qed.

(** C5. A configuration that is valid by itself is a valid transition
    from itself, and no growth is reported. *)
Theorem Validate_idempotent x localClusterID localPChannels v :
  run x None localClusterID localPChannels = (v, None) ->
  exists v',
    run x x localClusterID localPChannels = (v', None)
    /\ IsPChannelIncreasing v' = false.
Proof.
  intros Hrun. exists (with_current x v).
  destruct (accepted_when_unchanged x x _ _ _ Hrun) as [Hacc Hflag]; [|done].
  apply run_ok_structural in Hrun as (cfg & cs & v1 & -> & St & _).
  intros ic cc Hin Hl. unfold currentIndex in Hl. simpl in Hin, Hl.
  apply build_currentClusterMap_lookup in Hl as [[Hcc Hk]|Hl];
    [|by rewrite lookup_empty in Hl].
  rewrite (st_clusters _ _ _ _ _ _ St) in Hin, Hcc.
  apply list_elem_of_fmap in Hin as (c & -> & Hc).
  apply list_elem_of_fmap in Hcc as (c' & [= ->] & Hc'). simpl in Hk.
  assert (c' = c) as ->; [|done].
  by apply (NoDup_fmap_elem_eq ClusterId cs c' c (st_nodup _ _ _ _ _ _ St)).
Qed.

(** ** The relevance check and the order of the local pchannels *)

Lemma validateRelevance_perm p v :
  currentPChannels v ≡ₚ p ->
  validateRelevance v = (v, None) ->
  validateRelevance (with_pchannels p v) = (with_pchannels p v, None).
Proof.
  unfold validateRelevance. simpl. intros Hp H.
  destruct (clusterMap v !! currentClusterID v) as [c|]; [|done].
  rewrite <- (equalIgnoreOrder_perm _ _ _ Hp).
  by destruct (equalIgnoreOrder (currentPChannels v) (Pchannels c)).
Qed.

Lemma run_perm inc cur localClusterID localPChannels localPChannels' v :
  localPChannels ≡ₚ localPChannels' ->
  run inc cur localClusterID localPChannels = (v, None) ->
  run inc cur localClusterID localPChannels' = (with_pchannels localPChannels' v, None).
Proof.
  unfold run. intros Hp H.
  apply Validate_ok_inv in H as (cfg & v1 & Hcfg & Hne & H1 & H2 & H3 & H4 & H5).
  simpl in Hcfg. subst inc.
  change (NewReplicateConfigValidator (Some cfg) cur localClusterID localPChannels')
    with (update (SetPChannels localPChannels')
            (NewReplicateConfigValidator (Some cfg) cur localClusterID localPChannels)).
  rewrite (Validate_phases _ cfg) by done.
  eapply and_then_ok;
    [apply ignores_result; [apply validateClusterBasic_loop_ignores|exact H1]|].
  eapply and_then_ok.
  { apply validateRelevance_perm; [|exact H2].
    apply validateClusterBasic_loop_inv in H1 as ((_ & Hch & _) & _).
    by rewrite Hch. }
  eapply and_then_ok;
    [apply (ignores_result (SetPChannels localPChannels'));
       [apply validateTopologyEdgeUniqueness_ignores|exact H3]|].
  eapply and_then_ok;
    [apply (ignores_result (SetPChannels localPChannels'));
       [apply validateTopologyTypeConstraint_ignores|exact H4]|].
  apply (ignores_result (SetPChannels localPChannels')); [apply transition_step_ignores|done].
Qed.

(** C6. The relevance check compares the local pchannels with the
    declared ones as multisets. Once the cluster-basic check has
    indexed the declared clusters, it passes exactly when the local
    cluster is declared with a pchannel list of the same length and the
    same number of occurrences of every element. So [Validate] succeeds
    only if that holds, and permuting the local pchannels does not
    change whether [Validate] succeeds. *)
Theorem Validate_relevance_multiset inc cur localClusterID localPChannels localPChannels' :
  localPChannels ≡ₚ localPChannels' ->
  (snd (run inc cur localClusterID localPChannels) = None
   <-> snd (run inc cur localClusterID localPChannels') = None)
  /\ (snd (run inc cur localClusterID localPChannels) = None ->
      exists c,
        Some c ∈ GetClusters inc /\ ClusterId c = localClusterID
        /\ length localPChannels = length (Pchannels c)
        /\ forall k, occ localPChannels k = occ (Pchannels c) k)
  /\ (forall v1,
        validateClusterBasic (GetClusters inc)
          (NewReplicateConfigValidator inc cur localClusterID localPChannels) = (v1, None) ->
        (validateRelevance v1 = (v1, None)
         <-> exists c,
               Some c ∈ GetClusters inc /\ ClusterId c = localClusterID
               /\ length localPChannels = length (Pchannels c)
               /\ forall k, occ localPChannels k = occ (Pchannels c) k)).
Proof.
  intros Hp. split; [|split].
  - split; intros H.
    + destruct (run inc cur localClusterID localPChannels) as [v r] eqn:Hr.
      simpl in H. subst r. by rewrite (run_perm _ _ _ _ _ _ Hp Hr).
    + destruct (run inc cur localClusterID localPChannels') as [v r] eqn:Hr.
      simpl in H. subst r. symmetry in Hp. by rewrite (run_perm _ _ _ _ _ _ Hp Hr).
  - intros H.
    destruct (run inc cur localClusterID localPChannels) as [v r] eqn:Hr.
    simpl in H. subst r.
    apply run_ok_structural in Hr as (cfg & cs & v1 & -> & St & _).
    destruct (st_local _ _ _ _ _ _ St) as (c & Hc & Hid & Hperm).
    exists c. simpl. rewrite (st_clusters _ _ _ _ _ _ St).
    split; [by apply list_elem_of_fmap_2|]. split; [done|].
    split; [by apply Permutation_length|].
    by apply (Permutation_count_occ string_dec).
  - intros v1 Hbasic.
    apply validateClusterBasic_loop_inv in Hbasic as ((Hid & Hch & _) & _ & _ & Hok).
    destruct (Hok eq_refl) as (cs & Hcs & _ & _ & Hmap & _). simpl in *.
    assert (Hdecl : forall c, clusterMap v1 !! localClusterID = Some c
                              <-> Some c ∈ GetClusters inc /\ ClusterId c = localClusterID).
    { intros c. rewrite Hmap, lookup_empty, Hcs. split.
      - intros [?|[Hc Hk]]; [done|]. split; [by apply list_elem_of_fmap_2|done].
      - intros [(c' & [= <-] & Hc)%list_elem_of_fmap Hk]. by right. }
    split.
    + intros Hrel. apply validateRelevance_inv in Hrel as (_ & _ & Hrel).
      destruct (Hrel eq_refl) as (c & Hc & Hperm). rewrite Hid in Hc. rewrite Hch in Hperm.
      apply Hdecl in Hc as [Hc Hk]. exists c. split; [done|]. split; [done|].
      split; [by apply Permutation_length|].
      by apply (Permutation_count_occ string_dec).
    + intros (c & Hc & Hk & _ & Hocc). unfold validateRelevance.
      rewrite Hid, (proj2 (Hdecl c) (conj Hc Hk)), Hch.
      apply (Permutation_count_occ string_dec) in Hocc.
      by rewrite (proj2 (equalIgnoreOrder_spec _ _) Hocc).
Qed.

(** ** Fail-fast order of the phases *)

Lemma and_then_ok_r (c : check) v : (c >>> ok) v = c v.
Proof. unfold and_then, ok. by destruct (c v) as [v' [e|]]. Qed.

Lemma run_all_first_failure pre : forall (p : check) post v v1 v2 e,
  run_all pre v = (v1, None) ->
  p v1 = (v2, Some e) ->
  run_all (pre ++ p :: post) v = (v2, Some e).
Proof.
  induction pre as [|c pre IH]; intros p post v v1 v2 e Hpre Hp; simpl in *.
  - injection Hpre as <-. by apply and_then_fail.
  - apply and_then_inv in Hpre as [(e' & _ & ?)|(w & Hc & Hrest)]; [done|].
    eapply and_then_ok; [exact Hc|]. by eapply IH.
Qed.

Lemma phase_error_phase v (p : phase * check) w w' e :
  p ∈ phases v -> p.2 w = (w', Some e) -> error_phase e = p.1.
Proof.
  unfold phases. intros Hin Hp.
  repeat (apply elem_of_cons in Hin as [->|Hin]); simpl in *.
  - apply validateClusterBasic_loop_inv in Hp as (_ & _ & He & _). by apply He.
  - apply validateRelevance_inv in Hp as (_ & He & _). by apply He.
  - apply validateTopologyEdgeUniqueness_inv in Hp as (_ & He & _). by apply He.
  - apply validateTopologyTypeConstraint_inv in Hp as (_ & He & _). by apply He.
  - apply transition_step_inv in Hp as (_ & _ & He & _). by apply He.
  - by apply elem_of_nil in Hin.
Qed.

(** C7. The phases run in the order cluster-basic, relevance,
    edge-uniqueness, star-shape, transition, and the first failure is the
    result: if the phases before [p] succeed and [p] fails with [e],
    [Validate] returns [e], an error of the phase [p], whatever the
    later phases would return. *)
Theorem Validate_fail_fast v (pre post : list (phase * check)) (p : phase * check)
    v1 v2 e :
  incomingConfig v <> None ->
  GetClusters (incomingConfig v) <> [] ->
  phases v = (pre ++ p :: post)%list ->
  run_all (snd <$> pre) v = (v1, None) ->
  p.2 v1 = (v2, Some e) ->
  Validate v = (v2, Some e) /\ error_phase e = p.1.
Proof.
  intros Hcfg Hne Hph Hpre Hp.
  destruct (incomingConfig v) as [cfg|] eqn:Hinc; [|done]. simpl in Hne.
  split.
  - rewrite (Validate_phases v cfg Hinc Hne).
    pose proof (run_all_first_failure _ _ (snd <$> post) _ _ _ _ Hpre Hp) as Hrun.
    change (p.2 :: (snd <$> post)) with (snd <$> (p :: post)) in Hrun.
    rewrite <- fmap_app, <- Hph in Hrun. unfold phases in Hrun. rewrite Hinc in Hrun.
    simpl in Hrun. rewrite <- Hrun. unfold and_then, ok.
    repeat (match goal with |- context [match ?c ?w with _ => _ end] =>
              destruct (c w) as [? [?|]]; try done end).
  - apply (phase_error_phase v p v1 v2 e); [|done].
    rewrite Hph. apply elem_of_app. right. by left.
Qed.

(** ** Growth mode *)

Lemma missing_cluster_loop_None cm ids :
  missing_cluster_loop cm ids = None ->
  forall k, k ∈ ids.*1 -> is_Some (cm !! k).
Proof.
  induction ids as [|[id c] ids IH]; intros H k Hk; simpl in *.
  - by apply elem_of_nil in Hk.
  - destruct (cm !! id) as [c'|] eqn:Hid; [|done].
    apply elem_of_cons in Hk as [->|Hk]; [by exists c'|by apply IH].
Qed.

Lemma collect_edges_spec topos : forall (s : gset string) k,
  k ∈ collect_edges topos s <->
  k ∈ s \/ exists t, t ∈ topos /\ k = edgeKey (GetSourceClusterId t) (GetTargetClusterId t).
Proof.
  induction topos as [|t0 topos IH]; intros s k; simpl.
  - split; [by left|]. intros [?|(t & Ht & _)]; [done|by apply elem_of_nil in Ht].
  - rewrite IH, elem_of_union, elem_of_singleton. split.
    + intros [[->|?]|(t & Ht & ->)].
      * right. exists t0. split; [by left|done].
      * by left.
      * right. exists t. split; [by right|done].
    + intros [?|(t & [->|Ht]%elem_of_cons & ->)].
      * left. by right.
      * left. by left.
      * right. by exists t.
Qed.

Lemma edges_in_current_loop_None (s : gset string) topos :
  edges_in_current_loop s topos = None ->
  forall t, t ∈ topos -> edgeKey (GetSourceClusterId t) (GetTargetClusterId t) ∈ s.
Proof.
  induction topos as [|t0 topos IH]; intros H t Ht; simpl in H.
  - by apply elem_of_nil in Ht.
  - case_decide as Hin; [|done].
    apply elem_of_cons in Ht as [->|Ht]; [done|by apply IH].
Qed.

(** What growth mode enforces: the current index and the cluster map
    have the same cluster IDs, the two edge lists have the same length,
    and the key of every incoming edge is the key of a current edge. *)
Lemma validatePChannelIncreasingConstraints_None idx v v' :
  validatePChannelIncreasingConstraints idx v = (v', None) ->
  dom idx = dom (clusterMap v)
  /\ length (GetCrossClusterTopology (currentConfig v))
     = length (GetCrossClusterTopology (incomingConfig v))
  /\ forall t, t ∈ GetCrossClusterTopology (incomingConfig v) ->
       exists t', t' ∈ GetCrossClusterTopology (currentConfig v)
                  /\ edgeKey (GetSourceClusterId t) (GetTargetClusterId t)
                     = edgeKey (GetSourceClusterId t') (GetTargetClusterId t').
Proof.
  unfold validatePChannelIncreasingConstraints, len, len_map. intros H.
  destruct (Z.of_nat (size idx) =? Z.of_nat (size (clusterMap v))) eqn:Hsz; [|done].
  simpl in H. apply Z.eqb_eq in Hsz.
  destruct (missing_cluster_loop (clusterMap v) (range_map 3 idx)) eqn:Hm; [done|].
  destruct (Z.of_nat (length (GetCrossClusterTopology (currentConfig v)))
            =? Z.of_nat (length (GetCrossClusterTopology (incomingConfig v)))) eqn:Hlen;
    [|done].
  simpl in H. apply Z.eqb_eq in Hlen. injection H as _ He.
  split; [|split; [lia|]].
  - apply set_subseteq_size_eq.
    + intros k Hk. apply elem_of_dom in Hk. apply elem_of_dom.
      apply (missing_cluster_loop_None _ _ Hm). by apply range_map_keys.
    + rewrite !size_dom. lia.
  - intros t Ht. pose proof (edges_in_current_loop_None _ _ He t Ht) as Hin.
    apply collect_edges_spec in Hin as [Hin|(t' & Ht' & Heq)]; [done|]. by exists t'.
Qed.

Lemma validateConfigComparison_growth v v' :
  validateConfigComparison v = (v', None) ->
  isPChannelIncreasing v' = true ->
  validatePChannelIncreasingConstraints (currentIndex (currentConfig v)) v' = (v', None).
Proof.
  unfold validateConfigComparison, currentIndex. intros H Hflag.
  apply and_then_inv in H as [(e & _ & ?)|(v1 & _ & Hrest)]; [done|].
  destruct (isPChannelIncreasing v1) eqn:Hv1.
  - by destruct (validatePChannelIncreasingConstraints_inv _ _ _ _ Hrest) as [-> _].
  - injection Hrest as <-. congruence.
Qed.

(** When [Validate] succeeds and reports growth, the incoming cluster
    IDs are those of the current index, there are as many incoming edges
    as current ones, and every incoming edge has the key of a current
    edge. *)
Lemma Validate_growth_mode inc cur localClusterID localPChannels v :
  run inc cur localClusterID localPChannels = (v, None) ->
  IsPChannelIncreasing v = true ->
  (forall k, k ∈ dom (currentIndex cur) <-> k ∈ GetClusterId <$> GetClusters inc)
  /\ length (GetCrossClusterTopology cur) = length (GetCrossClusterTopology inc)
  /\ forall t, t ∈ GetCrossClusterTopology inc ->
       exists t', t' ∈ GetCrossClusterTopology cur
                  /\ edgeKey (GetSourceClusterId t) (GetTargetClusterId t)
                     = edgeKey (GetSourceClusterId t') (GetTargetClusterId t').
Proof.
  intros Hrun Hflag.
  apply run_ok_structural in Hrun as (cfg & cs & v1 & -> & St & Htr).
  destruct (st_inputs _ _ _ _ _ _ St) as (_ & _ & Hinc & Hcur). simpl in Hinc, Hcur.
  unfold transition_step in Htr. rewrite Hcur in Htr.
  unfold IsPChannelIncreasing in Hflag.
  destruct cur as [cur|];
    [|injection Htr as Hv; by rewrite <- Hv, (st_flag _ _ _ _ _ _ St) in Hflag].
  pose proof (validateConfigComparison_inv _ _ _ Htr) as ((_ & _ & Hinc' & Hcur') & Hm & _).
  apply validateConfigComparison_growth in Htr; [|done].
  apply validatePChannelIncreasingConstraints_None in Htr as (Hdom & Hlen & Hkeys).
  rewrite Hcur in Hdom. rewrite Hcur', Hinc', Hcur, Hinc in Hlen, Hkeys.
  split; [|by split].
  intros k. rewrite Hdom, Hm, elem_of_dom.
  symmetry. apply (declared_iff _ _ _ _ _ _ _ St).
Qed.

End Properties.

(** * Which inputs the validator accepts *)

Section Acceptance.

Context {env : GoEnv}.

(** ** validateClusterBasic, exactly *)

Lemma pchannels_loop_None_iff clusterID pchannels : forall j (s : gmap string bool),
  pchannels_loop clusterID j s pchannels = None <->
  (forall p, p ∈ pchannels -> p <> "" /\ default false (s !! p) = false)
  /\ NoDup pchannels.
Proof.
  induction pchannels as [|p rest IH]; intros j s; simpl.
  - split; [|done]. intros _. split; [by intros p ?%elem_of_nil|constructor].
  - destruct (decide (p = "")) as [->|Hp].
    { split; [done|]. intros [H _]. destruct (H "") as [? _]; [by left|done]. }
    destruct (default false (s !! p)) eqn:Hs.
    { split; [done|]. intros [H _]. destruct (H p) as [_ ?]; [by left|congruence]. }
    rewrite IH. split.
    + intros [Hall Hnd]. split.
      * intros q [->|Hq]%elem_of_cons; [done|].
        destruct (Hall q Hq) as [Hq1 Hq2]. split; [done|].
        destruct (decide (p = q)) as [->|Hne];
          [by rewrite lookup_insert_eq in Hq2|by rewrite lookup_insert_ne in Hq2].
      * constructor; [|done]. intros Hin. destruct (Hall p Hin) as [_ Hq2].
        by rewrite lookup_insert_eq in Hq2.
    + intros [Hall Hnd]. apply NoDup_cons in Hnd as [Hnot Hnd]. split; [|done].
      intros q Hq. destruct (Hall q) as [Hq1 Hq2]; [by right|]. split; [done|].
      rewrite lookup_insert_ne; [done|]. by intros ->.
Qed.

(** One turn of the cluster loop on a cluster that meets the
    requirements: the cluster is registered and the loop goes on. *)
Lemma validateClusterBasic_loop_step i ex f u c rest v :
  cluster_ok ParseRequestURI_ok c ->
  u !! uri_of c = None ->
  clusterMap v !! ClusterId c = None ->
  i = 0 \/ len (Pchannels c) = ex ->
  validateClusterBasic_loop i ex f u (Some c :: rest) v
  = validateClusterBasic_loop (i + 1)
      (if i =? 0 then len (Pchannels c) else ex)
      (if i =? 0 then ClusterId c else f)
      (<[uri_of c := ClusterId c]> u) rest
      (set_clusterMap (<[ClusterId c := c]> (clusterMap v)) v).
Proof.
  intros (Hid & Hws & Hconn & Huri & Hparse & Hne & Hall & Hnd) Hu Hm Hlen.
  unfold uri_of in *. simpl.
  destruct (decide (ClusterId c = "")); [done|]. rewrite Hws.
  destruct (ConnectionParam_ c) as [conn|]; [|done]. simpl in *.
  destruct (decide (Uri conn = "")); [done|]. rewrite Hparse, Hu. simpl.
  assert (Hl : (len (Pchannels c) =? 0) = false).
  { apply Z.eqb_neq. unfold len. destruct (Pchannels c); [done|simpl; lia]. }
  rewrite Hl.
  assert (Hloop : pchannels_loop (ClusterId c) 0 ∅ (Pchannels c) = None).
  { apply pchannels_loop_None_iff. split; [|done]. intros p Hp.
    split; [by apply Hall|by rewrite lookup_empty]. }
  rewrite Hloop.
  destruct (i =? 0) eqn:Hi; [by rewrite Hm|].
  destruct Hlen as [->|Hlen]; [done|].
  rewrite (proj2 (Z.eqb_eq _ _) Hlen). simpl. by rewrite Hm.
Qed.

(** Conversely, a turn that does not fail has met the requirements. *)
Lemma validateClusterBasic_loop_step_inv i ex f u c rest v :
  (validateClusterBasic_loop i ex f u (Some c :: rest) v).2 = None ->
  cluster_ok ParseRequestURI_ok c
  /\ u !! uri_of c = None
  /\ clusterMap v !! ClusterId c = None
  /\ (i = 0 \/ len (Pchannels c) = ex).
Proof.
  unfold cluster_ok, uri_of. simpl. intros H.
  destruct (decide (ClusterId c = "")); [done|].
  destruct (ContainsAny (ClusterId c) whitespace) eqn:Hws; [done|].
  destruct (ConnectionParam_ c) as [conn|]; [|done]. simpl in *.
  destruct (decide (Uri conn = "")); [done|].
  destruct (ParseRequestURI_ok (Uri conn)) eqn:Hparse; [|done]. simpl in H.
  destruct (u !! Uri conn) eqn:Hu; [done|].
  destruct (len (Pchannels c) =? 0) eqn:Hl; [done|].
  destruct (pchannels_loop (ClusterId c) 0 ∅ (Pchannels c)) eqn:Hloop; [done|].
  apply pchannels_loop_None_iff in Hloop as [Hall Hnd].
  assert (Hlen : i = 0 \/ len (Pchannels c) = ex).
  { destruct (i =? 0) eqn:Hi; [left; by apply Z.eqb_eq|].
    destruct (len (Pchannels c) =? ex) eqn:He; [right; by apply Z.eqb_eq|done]. }
  assert (Hm : clusterMap v !! ClusterId c = None).
  { destruct (clusterMap v !! ClusterId c) eqn:Hm; [|done]. exfalso.
    destruct (i =? 0); [done|]. by destruct (negb (len (Pchannels c) =? ex)). }
  repeat split; try done.
  - intros Hnil. by rewrite Hnil in Hl.
  - intros p Hp. by apply Hall.
Qed.

Lemma slots_ok_cons i ex c cs :
  0 <= i ->
  slots_ok i ex (c :: cs) <->
  (i = 0 \/ len (Pchannels c) = ex)
  /\ slots_ok (i + 1) (if i =? 0 then len (Pchannels c) else ex) cs.
Proof.
  intros Hi. unfold slots_ok.
  destruct (i =? 0) eqn:E; [apply Z.eqb_eq in E|apply Z.eqb_neq in E];
    (destruct (i + 1 =? 0) eqn:E'; [apply Z.eqb_eq in E'; lia|]).
  - split.
    + intros H. split; [by left|]. intros c' Hc'. symmetry. apply H; [by left|by right].
    + intros [_ H] c1 c2 [->|H1]%elem_of_cons [->|H2]%elem_of_cons; try done.
      * symmetry. by apply H.
      * by apply H.
      * by rewrite (H c1), (H c2).
  - split.
    + intros H. split; [right; apply H; by left|]. intros c' Hc'. apply H. by right.
    + intros [[Hi0|Hc] Hs] c1 Hc1; [lia|].
      apply elem_of_cons in Hc1 as [->|H1]; [done|by apply Hs].
Qed.

Lemma validateClusterBasic_loop_None_iff cs : forall i ex f u v,
  0 <= i ->
  (validateClusterBasic_loop i ex f u (Some <$> cs) v).2 = None <->
  Forall (cluster_ok ParseRequestURI_ok) cs
  /\ NoDup (ClusterId <$> cs)
  /\ (forall c, c ∈ cs -> clusterMap v !! ClusterId c = None)
  /\ NoDup (uri_of <$> cs)
  /\ (forall c, c ∈ cs -> u !! uri_of c = None)
  /\ slots_ok i ex cs.
Proof.
  induction cs as [|c cs IH]; intros i ex f u v Hi.
  - simpl. split; [|done]. intros _. split; [constructor|]. split; [constructor|].
    split; [by intros c ?%elem_of_nil|]. split; [constructor|].
    split; [by intros c ?%elem_of_nil|].
    unfold slots_ok. destruct (i =? 0); [by intros c c' ?%elem_of_nil|by intros c ?%elem_of_nil].
  - rewrite fmap_cons, slots_ok_cons by done. split.
    + intros H.
      destruct (validateClusterBasic_loop_step_inv _ _ _ _ _ _ _ H) as (Hok & Hu & Hm & Hlen).
      rewrite (validateClusterBasic_loop_step _ _ _ _ _ _ _ Hok Hu Hm Hlen) in H.
      apply IH in H as (Hall & Hnd & Hfresh & Hndu & Hfreshu & Hslots); [|lia].
      simpl in *.
      split; [by constructor|]. split.
      { constructor; [|done]. intros (c' & Heq & Hc')%list_elem_of_fmap.
        specialize (Hfresh c' Hc'). rewrite <- Heq in Hfresh.
        by rewrite lookup_insert_eq in Hfresh. }
      split.
      { intros c' [->|Hc']%elem_of_cons; [done|]. specialize (Hfresh c' Hc').
        destruct (decide (ClusterId c = ClusterId c')) as [Heq|Hne];
          [by rewrite Heq, lookup_insert_eq in Hfresh|by rewrite lookup_insert_ne in Hfresh]. }
      split.
      { constructor; [|done]. intros (c' & Heq & Hc')%list_elem_of_fmap.
        specialize (Hfreshu c' Hc'). rewrite <- Heq in Hfreshu.
        by rewrite lookup_insert_eq in Hfreshu. }
      split; [|done].
      intros c' [->|Hc']%elem_of_cons; [done|]. specialize (Hfreshu c' Hc').
      destruct (decide (uri_of c = uri_of c')) as [Heq|Hne];
        [by rewrite Heq, lookup_insert_eq in Hfreshu|by rewrite lookup_insert_ne in Hfreshu].
    + intros (Hall & Hnd & Hfresh & Hndu & Hfreshu & Hlen & Hslots).
      apply Forall_cons in Hall as [Hok Hall]. simpl in Hnd, Hndu.
      apply NoDup_cons in Hnd as [Hnot Hnd]. apply NoDup_cons in Hndu as [Hnotu Hndu].
      rewrite validateClusterBasic_loop_step;
        [|done|apply Hfreshu; by left|apply Hfresh; by left|done].
      apply IH; [lia|]. simpl.
      split; [done|]. split; [done|]. split.
      { intros c' Hc'. rewrite lookup_insert_ne; [apply Hfresh; by right|].
        intros Heq. apply Hnot. rewrite Heq. by apply list_elem_of_fmap_2. }
      split; [done|]. split; [|done].
      intros c' Hc'. rewrite lookup_insert_ne; [apply Hfreshu; by right|].
      intros Heq. apply Hnotu. rewrite Heq. by apply list_elem_of_fmap_2.
Qed.

(** ** validateTopologyEdgeUniqueness, exactly *)

Lemma edge_loop_ok cm (es : list CrossClusterTopology) : forall i (s : gset string),
  (forall e, e ∈ es ->
     is_Some (cm !! SourceClusterId e) /\ is_Some (cm !! TargetClusterId e)) ->
  NoDup (key_of <$> es) ->
  (forall e, e ∈ es -> key_of e ∉ s) ->
  edge_loop cm i s (Some <$> es) = None.
Proof.
  induction es as [|e es IH]; intros i s Hends Hnd Hout; [done|].
  simpl in *. apply NoDup_cons in Hnd as [Hnot Hnd].
  destruct (Hends e) as [[cs Hs] [ct Ht]]; [by left|]. rewrite Hs, Ht.
  rewrite decide_False by (apply (Hout e); by left).
  apply IH; [intros e' He'; apply Hends; by right|done|].
  intros e' He' [Hin%elem_of_singleton|Hin]%elem_of_union.
  - apply Hnot. apply list_elem_of_fmap. by exists e'.
  - apply (Hout e'); [by right|done].
Qed.

Lemma validateTopologyEdgeUniqueness_ok topologies v :
  edges_ok (clusterMap v) topologies ->
  validateTopologyEdgeUniqueness topologies v = (v, None).
Proof.
  intros (es & -> & Hends & Hnd). unfold validateTopologyEdgeUniqueness.
  destruct (len (Some <$> es) =? 0); [done|].
  rewrite edge_loop_ok; [done|done|done|]. intros e _. apply not_elem_of_empty.
Qed.

(** ** validateTopologyTypeConstraint, exactly *)

Lemma find_center_found inD outD n C ids :
  is_center inD outD n C = true ->
  (forall k, k ∈ ids.*1 -> is_center inD outD n k = true -> k = C) ->
  forall c0,
  NoDup ids.*1 ->
  (c0 = "" /\ C ∈ ids.*1) \/ (c0 = C /\ C ∉ ids.*1) ->
  find_center inD outD n c0 ids = inr C.
Proof.
  intros HC Huniq. induction ids as [|[id cl] ids IH]; intros c0 Hnd Hc0; simpl in *.
  - destruct Hc0 as [[_ Hin]|[-> _]]; [by apply elem_of_nil in Hin|done].
  - apply NoDup_cons in Hnd as [Hnot Hnd].
    assert (Hrest : forall k, k ∈ ids.*1 -> is_center inD outD n k = true -> k = C)
      by (intros k Hk; apply Huniq; by right).
    destruct (is_center inD outD n id) eqn:Hid.
    + assert (id = C) as -> by (apply Huniq; [by left|done]).
      destruct Hc0 as [[-> _]|[_ Hn]]; [|exfalso; apply Hn; by left].
      rewrite bool_decide_eq_true_2 by done. simpl.
      apply IH; [done|done|]. by right.
    + assert (id <> C) by (intros ->; congruence).
      apply IH; [done|done|].
      destruct Hc0 as [[-> Hin]|[-> Hn]].
      * left. split; [done|]. by apply elem_of_cons in Hin as [?|?].
      * right. split; [done|]. intros Hin. apply Hn. by right.
Qed.

Lemma check_leaves_ok inD outD C ids :
  (forall k, k ∈ ids.*1 -> k <> C -> counts_get inD k = 1 /\ counts_get outD k = 0) ->
  check_leaves inD outD C ids = None.
Proof.
  induction ids as [|[id cl] ids IH]; intros H; simpl in *; [done|].
  assert (Hrest : check_leaves inD outD C ids = None)
    by (apply IH; intros k Hk; apply H; by right).
  case_bool_decide as Hid; [done|].
  destruct (H id) as [-> ->]; [by left|done|]. done.
Qed.

(** A star whose center has a non-empty ID passes the check, in
    whatever order the cluster map is visited. *)
Lemma validateTopologyTypeConstraint_ok topologies v C :
  C <> "" ->
  star_with_center (clusterMap v) topologies C ->
  validateTopologyTypeConstraint topologies v = (v, None).
Proof.
  intros HC (Hdecl & Hout & Hin & Hleaf). unfold validateTopologyTypeConstraint.
  destruct (len topologies =? 0); [done|].
  pose proof (is_center_spec (clusterMap v) topologies) as Hcen.
  pose proof (degrees_spec (clusterMap v) topologies) as Hdeg.
  destruct (degrees (clusterMap v) topologies) as [inD outD]; simpl in *.
  rewrite (find_center_found inD outD _ C).
  - rewrite bool_decide_eq_false_2 by done.
    rewrite check_leaves_ok; [done|]. intros k Hk Hne.
    apply range_map_keys in Hk. destruct (Hleaf k Hk Hne) as [Hi Ho].
    destruct (Hdeg k) as [-> ->]. lia.
  - by apply Hcen.
  - intros k Hk Hck. apply range_map_keys in Hk. apply Hcen in Hck as [_ Hk0].
    destruct (decide (k = C)) as [|Hne]; [done|].
    destruct (Hleaf k Hk Hne) as [Hk1 _]. lia.
  - apply range_map_NoDup.
  - left. split; [done|]. by apply range_map_keys.
Qed.

(** ** The transition check, exactly *)

Lemma validateClusterConsistency_ok cc ic v :
  Pchannels cc `prefix_of` GetPchannels ic ->
  GetUri (ConnectionParam_ cc) = GetUri (GetConnectionParam ic) ->
  GetToken (ConnectionParam_ cc) = GetToken (GetConnectionParam ic) ->
  validateClusterConsistency (Some cc) ic v
  = (if bool_decide (length (Pchannels cc) < length (GetPchannels ic))%nat
     then set_isPChannelIncreasing true v else v, None).
Proof.
  intros [k Hk] Hu Ht. unfold validateClusterConsistency, len. simpl.
  rewrite Hk, length_app, take_app_length.
  rewrite (proj2 (Z.ltb_ge _ _)) by lia.
  rewrite !bool_decide_eq_true_2 by done. simpl.
  destruct (Z.gtb_spec (Z.of_nat (length (Pchannels cc) + length k))
              (Z.of_nat (length (Pchannels cc))));
    case_bool_decide; try done; lia.
Qed.

Lemma comparison_loop_ok idx cls : forall v,
  (forall ic cc, ic ∈ cls -> idx !! GetClusterId ic = Some cc ->
     Pchannels cc `prefix_of` GetPchannels ic
     /\ GetUri (ConnectionParam_ cc) = GetUri (GetConnectionParam ic)
     /\ GetToken (ConnectionParam_ cc) = GetToken (GetConnectionParam ic)) ->
  exists v',
    comparison_loop idx cls v = (v', None)
    /\ (isPChannelIncreasing v = true -> isPChannelIncreasing v' = true)
    /\ (forall ic cc, ic ∈ cls -> idx !! GetClusterId ic = Some cc ->
          (length (Pchannels cc) < length (GetPchannels ic))%nat ->
          isPChannelIncreasing v' = true).
Proof.
  induction cls as [|ic0 cls IH]; intros v H; simpl.
  { exists v. split; [done|]. split; [done|]. by intros ic cc ?%elem_of_nil. }
  assert (Hrest : forall ic cc, ic ∈ cls -> idx !! GetClusterId ic = Some cc ->
     Pchannels cc `prefix_of` GetPchannels ic
     /\ GetUri (ConnectionParam_ cc) = GetUri (GetConnectionParam ic)
     /\ GetToken (ConnectionParam_ cc) = GetToken (GetConnectionParam ic))
    by (intros ic cc Hin; apply H; by right).
  destruct (idx !! GetClusterId ic0) as [cc0|] eqn:Hidx.
  - destruct (H ic0 cc0) as (Hp & Hu & Ht); [by left|done|].
    pose proof (validateClusterConsistency_ok cc0 ic0 v Hp Hu Ht) as Hstep.
    set (v1 := if bool_decide (length (Pchannels cc0) < length (GetPchannels ic0))%nat
               then set_isPChannelIncreasing true v else v) in *.
    destruct (IH v1 Hrest) as (v' & Hloop & Hmono & Hgrow).
    exists v'. split; [by eapply and_then_ok|]. split.
    + intros Hv. apply Hmono. unfold v1. by case_bool_decide.
    + intros ic cc [->|Hin]%elem_of_cons Hl Hlt; [|by eapply Hgrow].
      rewrite Hidx in Hl. injection Hl as <-. apply Hmono. unfold v1.
      by rewrite bool_decide_eq_true_2.
  - destruct (IH v Hrest) as (v' & Hloop & Hmono & Hgrow).
    exists v'. split; [done|]. split; [done|].
    intros ic cc [->|Hin]%elem_of_cons Hl Hlt; [congruence|by eapply Hgrow].
Qed.

Lemma missing_cluster_loop_ok cm ids :
  (forall k, k ∈ ids.*1 -> is_Some (cm !! k)) -> missing_cluster_loop cm ids = None.
Proof.
  induction ids as [|[id c] ids IH]; intros H; simpl in *; [done|].
  destruct (H id) as [c' ->]; [by left|]. apply IH. intros k Hk. apply H. by right.
Qed.

Lemma edges_in_current_loop_ok (s : gset string) topos :
  (forall t, t ∈ topos -> edgeKey (GetSourceClusterId t) (GetTargetClusterId t) ∈ s) ->
  edges_in_current_loop s topos = None.
Proof.
  induction topos as [|t0 topos IH]; intros H; simpl; [done|].
  rewrite decide_True by (apply H; by left). apply IH. intros t Ht. apply H. by right.
Qed.

Lemma validatePChannelIncreasingConstraints_ok idx v :
  dom idx = dom (clusterMap v) ->
  length (GetCrossClusterTopology (currentConfig v))
  = length (GetCrossClusterTopology (incomingConfig v)) ->
  (forall t, t ∈ GetCrossClusterTopology (incomingConfig v) ->
     exists t', t' ∈ GetCrossClusterTopology (currentConfig v)
                /\ edgeKey (GetSourceClusterId t) (GetTargetClusterId t)
                   = edgeKey (GetSourceClusterId t') (GetTargetClusterId t')) ->
  validatePChannelIncreasingConstraints idx v = (v, None).
Proof.
  intros Hdom Hlen Hkeys. unfold validatePChannelIncreasingConstraints, len, len_map.
  rewrite <- (size_dom idx), Hdom, size_dom, Z.eqb_refl. simpl.
  rewrite missing_cluster_loop_ok.
  2:{ intros k Hk%range_map_keys. apply elem_of_dom. rewrite <- Hdom. by apply elem_of_dom. }
  rewrite Hlen, Z.eqb_refl. simpl.
  rewrite edges_in_current_loop_ok; [done|].
  intros t Ht. apply collect_edges_spec. right. destruct (Hkeys t Ht) as (t' & Ht' & Heq).
  by exists t'.
Qed.

(** ** Validate, exactly *)

Lemma keys_declared (cm : gmap string MilvusCluster) (cs : list MilvusCluster) k :
  (forall k c, cm !! k = Some c <-> c ∈ cs /\ ClusterId c = k) ->
  is_Some (cm !! k) <-> k ∈ ClusterId <$> cs.
Proof.
  intros Hmap. split.
  - intros [c Hc]. apply Hmap in Hc as [Hc <-]. by apply list_elem_of_fmap_2.
  - intros (c & -> & Hc)%list_elem_of_fmap. exists c. by apply Hmap.
Qed.

Lemma star_of_iff (cm : gmap string MilvusCluster) (cs : list MilvusCluster) topologies C :
  (forall k c, cm !! k = Some c <-> c ∈ cs /\ ClusterId c = k) ->
  size cm = length cs ->
  star_with_center cm topologies C <-> star_of (ClusterId <$> cs) topologies C.
Proof.
  intros Hmap Hsize. unfold star_with_center, star_of, len, len_map.
  rewrite length_fmap, Hsize, (keys_declared cm cs C Hmap).
  split; intros (H1 & H2 & H3 & H4); (split; [done|]; split; [done|]; split; [done|]);
    intros k Hk; apply H4; by apply (keys_declared cm cs k Hmap).
Qed.

Lemma basic_fresh_facts (cs : list MilvusCluster) v0 v1 :
  clusterMap v0 = ∅ ->
  validateClusterBasic (Some <$> cs) v0 = (v1, None) ->
  same_inputs v0 v1
  /\ isPChannelIncreasing v1 = isPChannelIncreasing v0
  /\ (forall k c, clusterMap v1 !! k = Some c <-> c ∈ cs /\ ClusterId c = k)
  /\ size (clusterMap v1) = length cs.
Proof.
  intros Hempty H.
  apply validateClusterBasic_loop_inv in H as (Hs & Hf & _ & Hok).
  destruct (Hok eq_refl) as (cs' & Heq & _ & _ & Hmap & Hsize).
  apply (inj (fmap Some)) in Heq. subst cs'.
  split; [done|]. split; [done|]. split.
  - intros k c. rewrite Hmap, Hempty, lookup_empty. split; [by intros [?|?]|by right].
  - rewrite Hsize, Hempty, map_size_empty. lia.
Qed.

Lemma validateRelevance_ok v c :
  clusterMap v !! currentClusterID v = Some c ->
  currentPChannels v ≡ₚ Pchannels c ->
  validateRelevance v = (v, None).
Proof.
  intros Hc Hp. unfold validateRelevance. rewrite Hc.
  by rewrite (proj2 (equalIgnoreOrder_spec _ _) Hp).
Qed.

Lemma transition_step_grown v1 v' ic cc :
  transition_step v1 = (v', None) ->
  ic ∈ GetClusters (incomingConfig v1) ->
  currentIndex (currentConfig v1) !! GetClusterId ic = Some cc ->
  (length (Pchannels cc) < length (GetPchannels ic))%nat ->
  isPChannelIncreasing v' = true.
Proof.
  unfold transition_step, currentIndex. intros H Hin Hl Hlt.
  destruct (currentConfig v1) as [cur|] eqn:Hcur;
    [|simpl in Hl; by rewrite lookup_empty in Hl].
  unfold validateConfigComparison in H. rewrite Hcur in H. simpl in *.
  apply and_then_inv in H as [(e & _ & ?)|(v2 & Hloop & Hrest)]; [done|].
  pose proof (comparison_loop_inv _ _ _ _ _ Hloop) as (_ & _ & _ & _ & Hok).
  destruct (comparison_loop_ok _ _ v1 (Hok eq_refl)) as (v2' & Hloop' & _ & Hgrow).
  rewrite Hloop in Hloop'. injection Hloop' as <-.
  pose proof (Hgrow ic cc Hin Hl Hlt) as Hflag. rewrite Hflag in Hrest.
  destruct (validatePChannelIncreasingConstraints_inv _ _ _ _ Hrest) as [-> _]. done.
Qed.

Lemma run_accepts_sound inc cur localClusterID localPChannels v :
  run inc cur localClusterID localPChannels = (v, None) ->
  accepts ParseRequestURI_ok inc cur localClusterID localPChannels.
Proof.
  intros Hrun. pose proof Hrun as Hrun'.
  apply run_ok_structural in Hrun' as (cfg & cs & v1 & -> & St & Htr).
  pose proof Hrun as Hinv. unfold run in Hinv.
  apply Validate_ok_inv in Hinv as (cfg' & w & [= <-] & _ & Hbasic & _).
  rewrite (st_clusters _ _ _ _ _ _ St) in Hbasic.
  assert (Hb2 : (validateClusterBasic_loop 0 0 "" ∅ (Some <$> cs)
                   (NewReplicateConfigValidator (Some cfg) cur localClusterID
                      localPChannels)).2 = None)
    by (unfold validateClusterBasic in Hbasic; by rewrite Hbasic).
  apply validateClusterBasic_loop_None_iff in Hb2
    as (Hall & Hnd & _ & Hndu & _ & Hslots); [|lia].
  destruct (st_edges _ _ _ _ _ _ St) as (es & Hes & Hends & Hkeys).
  destruct (st_inputs _ _ _ _ _ _ St) as (_ & _ & Hinc & Hcur). simpl in Hinc, Hcur.
  pose proof (transition_step_inv _ _ _ Htr) as (_ & _ & _ & Hf & Hok).
  rewrite Hinc, Hcur in Hf, Hok. simpl in Hf, Hok.
  exists cfg, cs, es. split; [done|]. split; [by apply (st_clusters _ _ _ _ _ _ St)|].
  split; [by apply (st_nonempty _ _ _ _ _ _ St)|]. split.
  { split; [done|]. split; [done|]. split; [done|].
    intros c c' Hc Hc'. unfold slots_ok, len in Hslots. simpl in Hslots.
    specialize (Hslots c c' Hc Hc'). lia. }
  split; [by apply (st_local _ _ _ _ _ _ St)|]. split; [done|]. split.
  { intros e He. destruct (Hends e He) as [Hs Ht].
    split; by apply (keys_declared _ _ _ (st_map _ _ _ _ _ _ St)). }
  split; [done|]. split.
  { destruct (st_star _ _ _ _ _ _ St) as [Hnil|[C HC]].
    - left. rewrite Hes in Hnil. by destruct es.
    - right. exists C. rewrite <- Hes.
      by apply (star_of_iff _ _ _ _ (st_map _ _ _ _ _ _ St) (st_size _ _ _ _ _ _ St)). }
  split.
  - intros ic cc Hic Hl.
    apply (Hok eq_refl (Some ic) cc); [|done].
    rewrite (st_clusters _ _ _ _ _ _ St). by apply list_elem_of_fmap_2.
  - intros (ic & cc & Hic & Hl & Hlt).
    assert (Hflag : IsPChannelIncreasing v = true).
    { apply (transition_step_grown v1 v (Some ic) cc Htr).
      - rewrite Hinc. simpl. rewrite (st_clusters _ _ _ _ _ _ St).
        by apply list_elem_of_fmap_2.
      - by rewrite Hcur.
      - done. }
    destruct (Validate_growth_mode _ _ _ _ _ Hrun Hflag) as (Hdom & Hlen & Hk).
    simpl in *. rewrite (st_clusters _ _ _ _ _ _ St), <- list_fmap_compose in Hdom.
    split; [done|]. split; [by rewrite Hlen, Hes, length_fmap|].
    intros e He. apply (Hk (Some e)). rewrite Hes. by apply list_elem_of_fmap_2.
Qed.

Lemma run_accepts_complete inc cur localClusterID localPChannels :
  accepts ParseRequestURI_ok inc cur localClusterID localPChannels ->
  exists v, run inc cur localClusterID localPChannels = (v, None).
Proof.
  intros (cfg & cs & es & -> & Hcs & Hne & (Hall & Hnd & Hndu & Hlen) & (c & Hc & Hid & Hperm)
          & Hes & Hends & Hkeys & Hstar & Hshared & Hgrowth).
  set (v0 := NewReplicateConfigValidator (Some cfg) cur localClusterID localPChannels).
  unfold run. fold v0.
  rewrite (Validate_phases v0 cfg eq_refl) by (rewrite Hcs; by destruct cs).
  rewrite Hcs, Hes.
  destruct (validateClusterBasic (Some <$> cs) v0) as [v1 r] eqn:Hbasic.
  assert (r = None) as ->.
  { change r with (v1, r).2. rewrite <- Hbasic.
    apply validateClusterBasic_loop_None_iff; [lia|].
    split; [done|]. split; [done|]. split; [by intros ? _; apply lookup_empty|].
    split; [done|]. split; [by intros ? _; apply lookup_empty|].
    unfold slots_ok, len. simpl. intros c1 c2 H1 H2. by rewrite (Hlen c1 c2). }
  destruct (basic_fresh_facts cs v0 v1 eq_refl Hbasic)
    as ((Hlid & Hlch & Hinc & Hcur) & Hflag & Hmap & Hsize).
  simpl in Hlid, Hlch, Hinc, Hcur, Hflag.
  assert (Hrel : validateRelevance v1 = (v1, None)).
  { apply (validateRelevance_ok v1 c); [|by rewrite Hlch].
    rewrite Hlid. by apply Hmap. }
  assert (Hedge : validateTopologyEdgeUniqueness (Some <$> es) v1 = (v1, None)).
  { apply validateTopologyEdgeUniqueness_ok. exists es. split; [done|]. split; [|done].
    intros e He. destruct (Hends e He).
    split; by apply (keys_declared _ _ _ Hmap). }
  assert (Hst : validateTopologyTypeConstraint (Some <$> es) v1 = (v1, None)).
  { destruct Hstar as [->|[C HC]]; [done|].
    apply (validateTopologyTypeConstraint_ok _ _ C);
      [|by apply (star_of_iff _ _ _ _ Hmap Hsize)].
    destruct HC as [(c' & -> & Hc')%list_elem_of_fmap _].
    rewrite Forall_forall in Hall. by destruct (Hall c' Hc'). }
  assert (Htr : exists v, transition_step v1 = (v, None)).
  { unfold transition_step. rewrite Hcur. destruct cur as [cur|]; [|by exists v1].
    unfold validateConfigComparison. rewrite Hcur, Hinc. simpl. rewrite Hcs.
    destruct (comparison_loop_ok (build_currentClusterMap (Clusters cur) ∅)
                (Some <$> cs) v1) as (v2 & Hloop & _ & _).
    { intros ic cc (c' & -> & Hc')%list_elem_of_fmap Hl. by apply Hshared. }
    pose proof (comparison_loop_inv _ _ _ _ _ Hloop)
      as ((_ & _ & Hinc2 & Hcur2) & Hm2 & _ & Hf2 & _).
    destruct (isPChannelIncreasing v2) eqn:Hflag2.
    - exists v2. eapply and_then_ok; [exact Hloop|]. simpl. rewrite Hflag2.
      destruct (Hf2 eq_refl) as [Hv1|(ic & cc & (c' & -> & Hc')%list_elem_of_fmap & Hl & _ & Hlt)];
        [congruence|].
      destruct Hgrowth as (Hdom & Hlenes & Hk); [by exists c', cc|].
      apply validatePChannelIncreasingConstraints_ok.
      + rewrite Hm2. apply set_eq. intros k. rewrite (Hdom k), elem_of_dom.
        symmetry. apply (keys_declared _ _ _ Hmap).
      + rewrite Hcur2, Hinc2, Hcur, Hinc. simpl. rewrite Hes, length_fmap. done.
      + rewrite Hcur2, Hinc2, Hcur, Hinc. simpl. rewrite Hes.
        intros t (e & -> & He)%list_elem_of_fmap. by apply Hk.
    - exists v2. eapply and_then_ok; [exact Hloop|]. simpl. by rewrite Hflag2. }
  destruct Htr as [v Htr]. exists v.
  eapply and_then_ok; [exact Hbasic|]. eapply and_then_ok; [exact Hrel|].
  eapply and_then_ok; [exact Hedge|]. eapply and_then_ok; [exact Hst|]. done.
Qed.

End Acceptance.

(** * Further properties of the validator *)

Section Further.

Context {env : GoEnv}.

(** X1. [equalIgnoreOrder] decides equality of multisets: it returns
    true exactly when every string occurs as often in one list as in the
    other, and it does not depend on the order of its arguments. *)
Theorem equalIgnoreOrder_multiset (a b : list string) :
  (equalIgnoreOrder a b = true <-> forall k, occ a k = occ b k)
  /\ equalIgnoreOrder a b = equalIgnoreOrder b a.
Proof.
  split.
  - rewrite equalIgnoreOrder_spec. apply (Permutation_count_occ string_dec).
  - destruct (equalIgnoreOrder a b) eqn:Hab, (equalIgnoreOrder b a) eqn:Hba; try done.
    + apply equalIgnoreOrder_spec in Hab. symmetry in Hab.
      apply equalIgnoreOrder_spec in Hab. congruence.
    + apply equalIgnoreOrder_spec in Hba. symmetry in Hba.
      apply equalIgnoreOrder_spec in Hba. congruence.
Qed.

(** X2. [Validate] succeeds exactly on the inputs described by
    [accepts]: non-nil clusters that each meet the format requirements,
    pairwise distinct IDs and URIs, one slot count, the local cluster
    declared with the local pchannels up to order, non-nil edges between
    declared clusters with pairwise distinct keys, no edge or a star, and
    the transition requirements against the current index. *)
Theorem Validate_accepts_iff inc cur localClusterID localPChannels :
  (run inc cur localClusterID localPChannels).2 = None
  <-> accepts ParseRequestURI_ok inc cur localClusterID localPChannels.
Proof.
  split.
  - destruct (run inc cur localClusterID localPChannels) as [v r] eqn:Hrun.
    simpl. intros ->. by eapply run_accepts_sound.
  - intros Hacc. destruct (run_accepts_complete _ _ _ _ Hacc) as [v Hv].
    by rewrite Hv.
Qed.

Lemma growth_flag_iff inc cur localClusterID localPChannels v :
  run inc cur localClusterID localPChannels = (v, None) ->
  (IsPChannelIncreasing v = true <->
   exists ic cc,
     Some ic ∈ GetClusters inc /\ currentIndex cur !! ClusterId ic = Some cc
     /\ (length (Pchannels cc) < length (Pchannels ic))%nat).
Proof.
  intros Hrun.
  apply run_ok_structural in Hrun as (cfg & cs & v1 & -> & St & Htr).
  destruct (st_inputs _ _ _ _ _ _ St) as (_ & _ & Hinc & Hcur). simpl in Hinc, Hcur.
  split.
  - intros Hflag. apply transition_step_inv in Htr as (_ & _ & _ & Hf & _).
    destruct (Hf Hflag) as [Hv1|(ic & cc & Hin & Hl & _ & Hlt)].
    { by rewrite (st_flag _ _ _ _ _ _ St) in Hv1. }
    rewrite Hinc in Hin. rewrite Hcur in Hl. simpl in Hin. pose proof Hin as Hin'.
    rewrite (st_clusters _ _ _ _ _ _ St) in Hin'.
    apply list_elem_of_fmap in Hin' as (c & -> & _). by exists c, cc.
  - intros (ic & cc & Hin & Hl & Hlt).
    apply (transition_step_grown v1 v (Some ic) cc Htr);
      [by rewrite Hinc|by rewrite Hcur|done].
Qed.

(** X3. After a successful [Validate], [IsPChannelIncreasing] returns
    true exactly when some incoming cluster has more pchannels than its
    entry in the current index; without a current configuration it
    returns false. *)
Theorem Validate_growth_flag_exact inc cur localClusterID localPChannels v :
  run inc cur localClusterID localPChannels = (v, None) ->
  (IsPChannelIncreasing v = true <->
   exists ic cc,
     Some ic ∈ GetClusters inc /\ currentIndex cur !! ClusterId ic = Some cc
     /\ (length (Pchannels cc) < length (Pchannels ic))%nat)
  /\ (cur = None -> IsPChannelIncreasing v = false).
Proof.
  intros Hrun. pose proof (growth_flag_iff _ _ _ _ _ Hrun) as Hiff.
  split; [exact Hiff|]. intros ->.
  destruct (IsPChannelIncreasing v); [|done].
  destruct (proj1 Hiff eq_refl) as (ic & cc & _ & Hl & _).
  unfold currentIndex in Hl. simpl in Hl. by rewrite lookup_empty in Hl.
Qed.

Lemma ContainsAny_false_iff s chars :
  ContainsAny s chars = false <->
  forall ch, ch ∈ list_ascii_of_string s -> ch ∉ list_ascii_of_string chars.
Proof.
  induction s as [|c s IH]; simpl.
  - split; [by intros _ ch ?%elem_of_nil|done].
  - case_bool_decide as Hc.
    + split; [done|]. intros H. exfalso. apply (H c); [by left|done].
    + rewrite IH. split.
      * intros H ch [->|Hch]%elem_of_cons; [done|by apply H].
      * intros H ch Hch. apply H. by right.
Qed.

(** X4. After a successful [Validate] no declared cluster is nil, the
    cluster IDs are pairwise distinct, non-empty and free of space, tab,
    line feed and carriage return, and the URIs are pairwise distinct,
    non-empty and accepted by [url.ParseRequestURI]. *)
Theorem Validate_cluster_identity inc cur localClusterID localPChannels v :
  run inc cur localClusterID localPChannels = (v, None) ->
  (None ∉ GetClusters inc)
  /\ NoDup (GetClusterId <$> GetClusters inc)
  /\ NoDup ((fun c => GetUri (GetConnectionParam c)) <$> GetClusters inc)
  /\ forall c, Some c ∈ GetClusters inc ->
       ClusterId c <> ""
       /\ (forall ch, ch ∈ list_ascii_of_string (ClusterId c) ->
             ch <> " "%char /\ ch <> "009"%char /\ ch <> "010"%char /\ ch <> "013"%char)
       /\ ConnectionParam_ c <> None
       /\ uri_of c <> ""
       /\ ParseRequestURI_ok (uri_of c) = true.
Proof.
  intros Hrun. apply run_accepts_sound in Hrun
    as (cfg & cs & es & -> & Hcs & _ & (Hall & Hnd & Hndu & _) & _).
  simpl. rewrite Hcs, <- !list_fmap_compose. split.
  { by intros (c & ? & _)%list_elem_of_fmap. }
  split; [done|]. split; [done|].
  intros c (c' & [= <-] & Hc)%list_elem_of_fmap.
  rewrite Forall_forall in Hall.
  destruct (Hall c Hc) as (Hid & Hws & Hconn & Huri & Hparse & _).
  split; [done|]. split; [|done].
  intros ch Hch. pose proof (proj1 (ContainsAny_false_iff _ _) Hws ch Hch) as Hnot.
  simpl in Hnot. repeat split; intros ->; apply Hnot; set_solver.
Qed.

(** X5. After a successful [Validate] every declared cluster has as many
    pchannels as the local pchannel list, at least one, and its pchannels
    are non-empty strings without repetition. *)
Theorem Validate_slots inc cur localClusterID localPChannels v :
  run inc cur localClusterID localPChannels = (v, None) ->
  forall c, Some c ∈ GetClusters inc ->
    length (Pchannels c) = length localPChannels
    /\ (0 < length (Pchannels c))%nat
    /\ NoDup (Pchannels c)
    /\ forall p, p ∈ Pchannels c -> p <> "".
Proof.
  intros Hrun. apply run_accepts_sound in Hrun
    as (cfg & cs & es & -> & Hcs & _ & (Hall & _ & _ & Hlen) & (lc & Hlc & _ & Hperm) & _).
  simpl. rewrite Hcs. intros c (c' & [= <-] & Hc)%list_elem_of_fmap.
  rewrite Forall_forall in Hall.
  destruct (Hall c Hc) as (_ & _ & _ & _ & _ & Hne & Hnonempty & Hnd).
  split; [by rewrite (Hlen c lc Hc Hlc), (Permutation_length Hperm)|].
  split; [destruct (Pchannels c); [done|simpl; lia]|]. by split.
Qed.

Lemma size_list_to_set_le (l : list string) :
  (size (list_to_set l : gset string) <= length l)%nat.
Proof.
  induction l as [|x l IH]; [by rewrite list_to_set_nil, size_empty|].
  rewrite list_to_set_cons, size_union_alt, size_singleton. simpl.
  pose proof (subseteq_size (list_to_set l ∖ {[x]}) (list_to_set l : gset string)) as Hle.
  assert (size (list_to_set l ∖ {[x]} : gset string) <= size (list_to_set l : gset string))%nat
    by (apply Hle; intros y Hy; by apply elem_of_difference in Hy as [? _]).
  lia.
Qed.

(** X6. When [Validate] succeeds and reports growth, the incoming
    clusters have the IDs of the current index, and the incoming edges
    have the same keys as the current edges, in both directions, although
    the code only counts the edges and looks the incoming keys up. *)
Theorem Validate_growth_same_keys inc cur localClusterID localPChannels v :
  run inc cur localClusterID localPChannels = (v, None) ->
  IsPChannelIncreasing v = true ->
  (forall k, k ∈ GetClusterId <$> GetClusters inc <-> k ∈ dom (currentIndex cur))
  /\ (forall key, key ∈ edge_keys inc <-> key ∈ edge_keys cur).
Proof.
  intros Hrun Hflag.
  destruct (Validate_growth_mode _ _ _ _ _ Hrun Hflag) as (Hdom & Hlen & Hk).
  split; [intros k; by rewrite Hdom|].
  apply run_ok_structural in Hrun as (cfg & cs & v1 & -> & St & _).
  destruct (st_edges _ _ _ _ _ _ St) as (es & Hes & _ & Hnd).
  assert (Hnd' : NoDup (edge_keys (Some cfg))).
  { unfold edge_keys. simpl. rewrite Hes, <- list_fmap_compose. exact Hnd. }
  assert (Hsub : (list_to_set (edge_keys (Some cfg)) : gset string)
                   ⊆ list_to_set (edge_keys cur)).
  { intros key Hkey. apply elem_of_list_to_set in Hkey. apply elem_of_list_to_set.
    unfold edge_keys in *. apply list_elem_of_fmap in Hkey as (t & -> & Ht).
    destruct (Hk t Ht) as (t' & Ht' & ->). apply list_elem_of_fmap. by exists t'. }
  assert (Heq : (list_to_set (edge_keys (Some cfg)) : gset string)
                = list_to_set (edge_keys cur)).
  { apply set_subseteq_size_eq; [done|].
    rewrite (size_list_to_set (edge_keys (Some cfg))) by done.
    etrans; [apply size_list_to_set_le|].
    unfold edge_keys. rewrite !length_fmap. simpl in *. lia. }
  intros key. by rewrite <- !(elem_of_list_to_set (C := gset string)), Heq.
Qed.

(** X7. [Validate] rejects every configuration with an edge from a
    cluster to itself: no explicit rule forbids it, the degree
    requirements of the star do. *)
Theorem Validate_rejects_self_edge inc cur localClusterID localPChannels e :
  Some e ∈ GetCrossClusterTopology inc ->
  SourceClusterId e = TargetClusterId e ->
  (run inc cur localClusterID localPChannels).2 <> None.
Proof.
  intros He Hself Hnone.
  destruct (run inc cur localClusterID localPChannels) as [v r] eqn:Hrun.
  simpl in Hnone. subst r.
  apply run_ok_structural in Hrun as (cfg & cs & v1 & -> & St & _). simpl in He.
  destruct (st_star _ _ _ _ _ _ St) as [Hnil|[C (_ & _ & Hin & Hleaf)]].
  { rewrite Hnil in He. by apply elem_of_nil in He. }
  destruct (st_edges _ _ _ _ _ _ St) as (es & Hes & Hends & _).
  pose proof He as He'. rewrite Hes in He'.
  apply list_elem_of_fmap in He' as (e' & [= <-] & He').
  destruct (decide (SourceClusterId e = C)) as [HC|HC].
  - apply (in_count_zero _ _ Hin _ He). simpl. congruence.
  - destruct (Hleaf (SourceClusterId e)) as [_ Hout]; [by apply Hends|done|].
    by apply (out_count_zero _ _ Hout _ He).
Qed.

Lemma validateClusterBasic_loop_duplicate i ex f u c c' rest v :
  cluster_ok ParseRequestURI_ok c ->
  u !! uri_of c = None ->
  i = 0 \/ len (Pchannels c) = ex ->
  clusterMap v !! ClusterId c = Some c' ->
  validateClusterBasic_loop i ex f u (Some c :: rest) v
  = (v, Some (ErrDuplicateClusterID (ClusterId c))).
Proof.
  intros (Hid & Hws & Hconn & Huri & Hparse & Hne & Hall & Hnd) Hu Hlen Hm.
  unfold uri_of in *. simpl.
  destruct (decide (ClusterId c = "")); [done|]. rewrite Hws.
  destruct (ConnectionParam_ c) as [conn|]; [|done]. simpl in *.
  destruct (decide (Uri conn = "")); [done|]. rewrite Hparse, Hu. simpl.
  assert (Hl : (len (Pchannels c) =? 0) = false).
  { apply Z.eqb_neq. unfold len. destruct (Pchannels c); [done|simpl; lia]. }
  rewrite Hl.
  assert (Hloop : pchannels_loop (ClusterId c) 0 ∅ (Pchannels c) = None).
  { apply pchannels_loop_None_iff. split; [|done]. intros p Hp.
    split; [by apply Hall|by rewrite lookup_empty]. }
  rewrite Hloop.
  destruct (i =? 0) eqn:Hi; [by rewrite Hm|].
  destruct Hlen as [->|Hlen]; [done|].
  rewrite (proj2 (Z.eqb_eq _ _) Hlen). simpl. by rewrite Hm.
Qed.

(** X8. A validator serves one call: [Validate] never clears
    [clusterMap], so calling it again on the validator a successful call
    left fails with "duplicate clusterID found" for the first cluster. *)
Theorem Validate_twice_fails inc cur localClusterID localPChannels v :
  run inc cur localClusterID localPChannels = (v, None) ->
  exists c,
    head (GetClusters inc) = Some (Some c)
    /\ Validate v = (v, Some (ErrDuplicateClusterID (ClusterId c))).
Proof.
  intros Hrun. pose proof (run_accepts_sound _ _ _ _ _ Hrun)
    as (cfg & cs & es & -> & Hcs & Hne & (Hall & _) & _).
  apply run_ok_structural in Hrun as (cfg' & cs' & v1 & [= <-] & St & Htr).
  pose proof (st_clusters _ _ _ _ _ _ St) as Hcs'. rewrite Hcs in Hcs'.
  apply (inj (fmap Some)) in Hcs'. subst cs'.
  destruct cs as [|c cs]; [done|]. exists c. simpl. rewrite Hcs. split; [done|].
  apply transition_step_inv in Htr as ((_ & _ & Hinc' & _) & Hm & _).
  destruct (st_inputs _ _ _ _ _ _ St) as (_ & _ & Hinc & _). simpl in Hinc.
  unfold Validate. rewrite Hinc', Hinc. simpl. rewrite Hcs. simpl.
  apply and_then_fail. unfold validateClusterBasic.
  apply (validateClusterBasic_loop_duplicate _ _ _ _ c c).
  - by apply Forall_cons in Hall as [? _].
  - apply lookup_empty.
  - by left.
  - rewrite Hm. apply (st_map _ _ _ _ _ _ St). split; [by left|done].
Qed.

Lemma validateClusterBasic_loop_map_grows clusters : forall i ex f u v v' r,
  validateClusterBasic_loop i ex f u clusters v = (v', r) ->
  clusterMap v ⊆ clusterMap v'.
Proof.
  induction clusters as [|[cluster|] rest IH]; intros i ex f u v v' r H; simpl in H.
  - by injection H as <- _.
  - repeat case_match; simplify_eq; try done;
      (apply IH in H; simpl in H; etrans; [|exact H]; by apply insert_subseteq).
  - by injection H as <- _.
Qed.

(** X9. Whatever its outcome, [Validate] leaves the four inputs of the
    validator as they are and never removes or replaces an entry of
    [clusterMap]. *)
Theorem Validate_keeps_inputs v :
  same_inputs v (Validate v).1 /\ clusterMap v ⊆ clusterMap (Validate v).1.
Proof.
  destruct (Validate v) as [v' r] eqn:H. simpl. unfold Validate in H.
  destruct (incomingConfig v) as [cfg|] eqn:Hcfg;
    [|injection H as <- _; split; [apply same_inputs_refl|done]].
  simpl in H.
  destruct (len (Clusters cfg) =? 0);
    [injection H as <- _; split; [apply same_inputs_refl|done]|].
  assert (Hbasic : forall w r1, validateClusterBasic (Clusters cfg) v = (w, r1) ->
            same_inputs v w /\ clusterMap v ⊆ clusterMap w).
  { intros w r1 Hb. split; [by apply validateClusterBasic_loop_inv in Hb as [? _]|].
    by eapply validateClusterBasic_loop_map_grows. }
  apply and_then_inv in H as [(e & H1 & _)|(v1 & H1 & H)]; [by eapply Hbasic|].
  destruct (Hbasic _ _ H1) as [Hs1 Hm1].
  apply and_then_inv in H as [(e & H2 & _)|(v2 & H2 & H)].
  { by destruct (validateRelevance_inv _ _ _ H2) as [-> _]. }
  destruct (validateRelevance_inv _ _ _ H2) as [-> _].
  apply and_then_inv in H as [(e & H3 & _)|(v3 & H3 & H)].
  { by destruct (validateTopologyEdgeUniqueness_inv _ _ _ _ H3) as [-> _]. }
  destruct (validateTopologyEdgeUniqueness_inv _ _ _ _ H3) as [-> _].
  apply and_then_inv in H as [(e & H4 & _)|(v4 & H4 & H)].
  { by destruct (validateTopologyTypeConstraint_inv _ _ _ _ H4) as [-> _]. }
  destruct (validateTopologyTypeConstraint_inv _ _ _ _ H4) as [-> _].
  apply (transition_step_inv v1 v' r) in H as (Hs & Hm & _).
  split; [by eapply same_inputs_trans|]. by rewrite Hm.
Qed.

(** X10. [validateClusterConsistency] accepts an incoming cluster
    exactly when it keeps the current pchannels as a position-wise prefix
    and has the URI and the token of the current cluster; it then sets
    [isPChannelIncreasing] if the incoming list is longer and changes
    nothing else. *)
Theorem validateClusterConsistency_exact cc ic v :
  ((validateClusterConsistency (Some cc) ic v).2 = None <->
   Pchannels cc `prefix_of` GetPchannels ic
   /\ GetUri (ConnectionParam_ cc) = GetUri (GetConnectionParam ic)
   /\ GetToken (ConnectionParam_ cc) = GetToken (GetConnectionParam ic))
  /\ ((validateClusterConsistency (Some cc) ic v).2 = None ->
      (validateClusterConsistency (Some cc) ic v).1
      = if bool_decide (length (Pchannels cc) < length (GetPchannels ic))%nat
        then set_isPChannelIncreasing true v else v).
Proof.
  assert (Hinv : (validateClusterConsistency (Some cc) ic v).2 = None ->
    Pchannels cc `prefix_of` GetPchannels ic
    /\ GetUri (ConnectionParam_ cc) = GetUri (GetConnectionParam ic)
    /\ GetToken (ConnectionParam_ cc) = GetToken (GetConnectionParam ic)).
  { destruct (validateClusterConsistency (Some cc) ic v) as [v' r] eqn:H. simpl.
    intros ->. by apply validateClusterConsistency_inv in H as (_ & _ & _ & _ & Hok);
      apply Hok. }
  split.
  - split; [exact Hinv|]. intros (Hp & Hu & Ht).
    by rewrite (validateClusterConsistency_ok cc ic v Hp Hu Ht).
  - intros H. destruct (Hinv H) as (Hp & Hu & Ht).
    by rewrite (validateClusterConsistency_ok cc ic v Hp Hu Ht).
Qed.

Lemma append_cons ch (a b : string) : String ch a +:+ b = String ch (a +:+ b).
Proof. reflexivity. Qed.

Lemma append_assoc (a b c : string) : (a +:+ b) +:+ c = a +:+ (b +:+ c).
Proof.
  induction a as [|ch a IH]; [done|]. by rewrite !append_cons, IH.
Qed.

Lemma length_append (a b : string) :
  String.length (a +:+ b) = (String.length a + String.length b)%nat.
Proof.
  induction a as [|ch a IH]; [done|]. rewrite append_cons. simpl. by rewrite IH.
Qed.

(** X11. The key of an edge does not determine the edge: for all
    strings [a], [b], [c] the edges from [a->b] to [c] and from [a] to
    [b->c] are different and have the same key, so between declared
    clusters the edge-uniqueness check reports the second one as a
    duplicate of the first. *)
Theorem edge_key_collision a b c v :
  let e1 := {| SourceClusterId := a +:+ "->" +:+ b; TargetClusterId := c |} in
  let e2 := {| SourceClusterId := a; TargetClusterId := b +:+ "->" +:+ c |} in
  is_Some (clusterMap v !! SourceClusterId e1) ->
  is_Some (clusterMap v !! TargetClusterId e1) ->
  is_Some (clusterMap v !! SourceClusterId e2) ->
  is_Some (clusterMap v !! TargetClusterId e2) ->
  e1 <> e2
  /\ validateTopologyEdgeUniqueness [Some e1; Some e2] v
     = (v, Some (ErrDuplicateEdge (a +:+ "->" +:+ b +:+ "->" +:+ c))).
Proof.
  intros e1 e2 [c1 H1] [c2 H2] [c3 H3] [c4 H4]. split.
  - intros [= Heq _]. apply (f_equal String.length) in Heq.
    rewrite !length_append in Heq. simpl in Heq. lia.
  - unfold validateTopologyEdgeUniqueness. simpl in *.
    rewrite H1, H2, H3, H4.
    rewrite decide_False by apply not_elem_of_empty.
    assert (Hkey : edgeKey a (b +:+ "->" +:+ c) = edgeKey (a +:+ "->" +:+ b) c).
    { unfold edgeKey. by rewrite !append_assoc. }
    rewrite Hkey, decide_True by set_solver.
    unfold edgeKey. by rewrite !append_assoc.
Qed.

Lemma find_center_only_empty inD outD n ids :
  (forall k, k ∈ ids.*1 -> is_center inD outD n k = true -> k = "") ->
  find_center inD outD n "" ids = inr "".
Proof.
  induction ids as [|[id cl] ids IH]; intros H; simpl in *; [done|].
  assert (Hrest : find_center inD outD n "" ids = inr "")
    by (apply IH; intros k Hk; apply H; by right).
  destruct (is_center inD outD n id) eqn:Hid; [|done].
  assert (id = "") as Hempty by (apply H; [by left|done]).
  rewrite Hempty. exact Hrest.
Qed.

(** X12. The star check uses the empty string for "no center yet": on a
    cluster map whose star has the cluster with the empty ID as center it
    reports that no center was found. [Validate] never gets there, since
    cluster-basic rejects empty IDs. *)
Theorem star_center_with_empty_id topologies v :
  topologies <> [] ->
  star_with_center (clusterMap v) topologies "" ->
  validateTopologyTypeConstraint topologies v = (v, Some ErrNoCenter).
Proof.
  intros Hne (Hdecl & Hout & Hin & Hleaf). unfold validateTopologyTypeConstraint, len.
  destruct (Z.of_nat (length topologies) =? 0) eqn:E;
    [destruct topologies; [done|simpl in E; lia]|].
  pose proof (is_center_spec (clusterMap v) topologies) as Hcen.
  destruct (degrees (clusterMap v) topologies) as [inD outD]; simpl in *.
  rewrite find_center_only_empty; [done|].
  intros k Hk Hck. apply range_map_keys in Hk. apply Hcen in Hck as [_ Hk0].
  destruct (decide (k = "")) as [|Hnek]; [done|].
  destruct (Hleaf k Hk Hnek) as [Hk1 _]. lia.
Qed.

Lemma accepts_without_current parse inc cur localClusterID localPChannels :
  accepts parse inc cur localClusterID localPChannels ->
  accepts parse inc None localClusterID localPChannels.
Proof.
  intros (cfg & cs & es & H1 & H2 & H3 & H4 & H5 & H6 & H7 & H8 & H9 & _).
  exists cfg, cs, es. do 9 (split; [done|]). split.
  - intros ic cc _ Hl. unfold currentIndex in Hl. simpl in Hl.
    by rewrite lookup_empty in Hl.
  - intros (ic & cc & _ & Hl & _). unfold currentIndex in Hl. simpl in Hl.
    by rewrite lookup_empty in Hl.
Qed.

(** X13. A configuration without edges is accepted on first install
    whenever its clusters meet the cluster-basic requirements and the
    local cluster is declared with the local pchannels up to order,
    however many clusters it declares. *)
Theorem Validate_accepts_without_edges (cs : list MilvusCluster)
    localClusterID localPChannels :
  cs <> [] ->
  clusters_ok ParseRequestURI_ok cs ->
  (exists c, c ∈ cs /\ ClusterId c = localClusterID /\ localPChannels ≡ₚ Pchannels c) ->
  (run (Some {| Clusters := Some <$> cs; CrossClusterTopology_ := [] |}) None
     localClusterID localPChannels).2 = None.
Proof.
  intros Hne Hok Hlocal.
  destruct (run_accepts_complete
              (Some {| Clusters := Some <$> cs; CrossClusterTopology_ := [] |}) None
              localClusterID localPChannels) as [v Hv]; [|by rewrite Hv].
  exists {| Clusters := Some <$> cs; CrossClusterTopology_ := [] |}, cs, [].
  do 6 (split; [done|]). split; [by intros e ?%elem_of_nil|].
  split; [constructor|]. split; [by left|]. split.
  - intros ic cc _ Hl. unfold currentIndex in Hl. simpl in Hl.
    by rewrite lookup_empty in Hl.
  - intros (ic & cc & _ & Hl & _). unfold currentIndex in Hl. simpl in Hl.
    by rewrite lookup_empty in Hl.
Qed.

(** X14. After a successful [Validate], [clusterMap] is the index of
    the declared clusters: it maps an ID to a cluster exactly when the
    incoming configuration declares that cluster under that ID, and it
    has one entry per declared cluster. *)
Theorem Validate_clusterMap_index inc cur localClusterID localPChannels v :
  run inc cur localClusterID localPChannels = (v, None) ->
  (forall k c, clusterMap v !! k = Some c <->
               Some c ∈ GetClusters inc /\ ClusterId c = k)
  /\ size (clusterMap v) = length (GetClusters inc).
Proof.
  intros Hrun.
  apply run_ok_structural in Hrun as (cfg & cs & v1 & -> & St & Htr).
  apply transition_step_inv in Htr as (_ & Hm & _). rewrite Hm. simpl.
  rewrite (st_clusters _ _ _ _ _ _ St), length_fmap. split.
  - intros k c. rewrite (st_map _ _ _ _ _ _ St). split.
    + intros [Hc Hk]. split; [by apply list_elem_of_fmap_2|done].
    + intros [(c' & [= <-] & Hc)%list_elem_of_fmap Hk]. by split.
  - apply (st_size _ _ _ _ _ _ St).
Qed.

(** X15. The transition check only restricts: a configuration that
    [Validate] accepts against some current configuration is accepted
    without a current configuration as well. *)
Theorem Validate_transition_implies_standalone inc cur localClusterID localPChannels :
  (run inc cur localClusterID localPChannels).2 = None ->
  (run inc None localClusterID localPChannels).2 = None.
Proof.
  destruct (run inc cur localClusterID localPChannels) as [v r] eqn:Hrun.
  simpl. intros ->. apply run_accepts_sound in Hrun.
  apply accepts_without_current in Hrun.
  destruct (run_accepts_complete _ _ _ _ Hrun) as [v' Hv']. by rewrite Hv'.
Qed.

(** X16. [validateClusterBasic] succeeds exactly on a list of non-nil
    clusters that meet the format requirements, have pairwise distinct
    IDs and URIs and one slot count, and whose IDs are not yet in
    [clusterMap]. *)
Theorem cluster_basic_exact clusters v :
  (validateClusterBasic clusters v).2 = None <->
  exists cs : list MilvusCluster,
    clusters = Some <$> cs
    /\ clusters_ok ParseRequestURI_ok cs
    /\ forall c, c ∈ cs -> clusterMap v !! ClusterId c = None.
Proof.
  unfold validateClusterBasic. split.
  - intros H. destruct (validateClusterBasic_loop 0 0 "" ∅ clusters v) as [v' r] eqn:Hb.
    simpl in H. subst r. pose proof Hb as Hb'.
    apply validateClusterBasic_loop_inv in Hb' as (_ & _ & _ & Hok).
    destruct (Hok eq_refl) as (cs & -> & _). exists cs. split; [done|].
    assert (Hb2 : (validateClusterBasic_loop 0 0 "" ∅ (Some <$> cs) v).2 = None)
      by (by rewrite Hb).
    apply validateClusterBasic_loop_None_iff in Hb2
      as (Hall & Hnd & Hfresh & Hndu & _ & Hslots); [|lia].
    split; [|done]. split; [done|]. split; [done|]. split; [done|].
    intros c c' Hc Hc'. unfold slots_ok, len in Hslots. simpl in Hslots.
    specialize (Hslots c c' Hc Hc'). lia.
  - intros (cs & -> & (Hall & Hnd & Hndu & Hlen) & Hfresh).
    apply validateClusterBasic_loop_None_iff; [lia|].
    split; [done|]. split; [done|]. split; [done|]. split; [done|].
    split; [by intros ? _; apply lookup_empty|].
    unfold slots_ok, len. simpl. intros c1 c2 H1 H2. by rewrite (Hlen c1 c2).
Qed.

(** X17. [validateTopologyEdgeUniqueness] succeeds exactly on a list of
    non-nil edges between clusters of [clusterMap] whose keys are
    pairwise distinct, and it leaves the validator as it is. *)
Theorem edge_uniqueness_exact topologies v :
  ((validateTopologyEdgeUniqueness topologies v).2 = None
   <-> edges_ok (clusterMap v) topologies)
  /\ (validateTopologyEdgeUniqueness topologies v).1 = v.
Proof.
  destruct (validateTopologyEdgeUniqueness topologies v) as [v' r] eqn:H. simpl.
  pose proof (validateTopologyEdgeUniqueness_inv _ _ _ _ H) as (-> & _ & Hok).
  split; [|done]. split; [exact Hok|]. intros Hedges.
  rewrite (validateTopologyEdgeUniqueness_ok _ _ Hedges) in H. by injection H.
Qed.

(** X18. On a cluster map without the empty ID, the star check succeeds
    exactly when the edge list is empty or the edges form a star over the
    clusters of the map, in whatever order the map is visited. *)
Theorem star_check_exact topologies v :
  clusterMap v !! "" = None ->
  (validateTopologyTypeConstraint topologies v).2 = None
  <-> topologies = [] \/ exists C, star_with_center (clusterMap v) topologies C.
Proof.
  intros Hempty. split.
  - destruct (validateTopologyTypeConstraint topologies v) as [v' r] eqn:H. simpl.
    intros ->. by apply validateTopologyTypeConstraint_inv in H as (_ & _ & Hok); apply Hok.
  - intros [->|[C HC]]; [done|].
    rewrite (validateTopologyTypeConstraint_ok topologies v C); [done| |done].
    intros ->. destruct HC as [[c Hc] _]. congruence.
Qed.

End Further.

(** X19. Neither the verdict of [Validate] nor the growth flag after a
    success depends on the order in which Go visits the maps: two runs
    that agree on which URIs [url.ParseRequestURI] accepts agree on
    them. *)
Theorem Validate_order_independent (env1 env2 : GoEnv)
    inc cur localClusterID localPChannels :
  (forall uri, @ParseRequestURI_ok env1 uri = @ParseRequestURI_ok env2 uri) ->
  let r1 := @run env1 inc cur localClusterID localPChannels in
  let r2 := @run env2 inc cur localClusterID localPChannels in
  (r1.2 = None <-> r2.2 = None)
  /\ (r1.2 = None -> IsPChannelIncreasing r1.1 = IsPChannelIncreasing r2.1).
Proof.
  intros Hparse r1 r2.
  assert (Hacc : forall id chans,
            accepts (@ParseRequestURI_ok env1) inc cur id chans
            <-> accepts (@ParseRequestURI_ok env2) inc cur id chans).
  { intros id chans. unfold accepts, clusters_ok, cluster_ok.
    by setoid_rewrite Hparse. }
  assert (Hiff : r1.2 = None <-> r2.2 = None).
  { unfold r1, r2. split; intros H.
    - destruct (@run env1 inc cur localClusterID localPChannels) as [v r] eqn:Hrun.
      simpl in H. subst r. apply (@run_accepts_sound env1), Hacc in Hrun.
      destruct (@run_accepts_complete env2 _ _ _ _ Hrun) as [v' Hv']. by rewrite Hv'.
    - destruct (@run env2 inc cur localClusterID localPChannels) as [v r] eqn:Hrun.
      simpl in H. subst r. apply (@run_accepts_sound env2), Hacc in Hrun.
      destruct (@run_accepts_complete env1 _ _ _ _ Hrun) as [v' Hv']. by rewrite Hv'. }
  split; [exact Hiff|]. intros H1. pose proof (proj1 Hiff H1) as H2.
  unfold r1, r2 in *.
  destruct (@run env1 inc cur localClusterID localPChannels) as [v1 e1] eqn:Hrun1.
  destruct (@run env2 inc cur localClusterID localPChannels) as [v2 e2] eqn:Hrun2.
  simpl in *. subst e1 e2.
  destruct (IsPChannelIncreasing v1) eqn:Hf1, (IsPChannelIncreasing v2) eqn:Hf2; try done.
  - apply (@growth_flag_iff env1 _ _ _ _ _ Hrun1) in Hf1.
    apply (@growth_flag_iff env2 _ _ _ _ _ Hrun2) in Hf1. congruence.
  - apply (@growth_flag_iff env2 _ _ _ _ _ Hrun2) in Hf2.
    apply (@growth_flag_iff env1 _ _ _ _ _ Hrun1) in Hf2. congruence.
Qed.

(** * The properties on sample inputs *)

Import Samples.

(** ** The scenarios of the package's tests, run on the embedding *)

Example test_two_cluster_linear :
  let r := @run test_env (two_clusters ["ch-1"; "ch-2"] [edge "c1" "c2"]) None
             "c1" ["ch-1"; "ch-2"] in
  r.2 = None /\ IsPChannelIncreasing r.1 = false.
Proof. vm_compute. by split. Qed.

Example test_whitespace_cluster_id :
  let inc := Some {| Clusters := [makeCluster "cluster 1" "localhost:19530" ["ch-1"]];
                     CrossClusterTopology_ := [] |} in
  error_message <$> (@run test_env inc None "cluster 1" ["ch-1"]).2
  = Some "cluster at index 0 has clusterID 'cluster 1' containing whitespace characters".
Proof. vm_compute. reflexivity. Qed.

Example test_inconsistent_pchannel_count :
  let inc := Some {| Clusters := [makeCluster "c1" "localhost:19530" ["ch-1"; "ch-2"];
                                  makeCluster "c2" "localhost:19531" ["ch-1"]];
                     CrossClusterTopology_ := [] |} in
  error_message <$> (@run test_env inc None "c1" ["ch-1"; "ch-2"]).2
  = Some "cluster 'c2' has 1 pchannels, but expected 2 (same as cluster 'c1')".
Proof. vm_compute. reflexivity. Qed.

Example test_star_violation :
  let inc := Some {| Clusters := GetClusters star3;
                     CrossClusterTopology_ :=
                       GetCrossClusterTopology star3
                       ++ [edge "leaf-cluster-1" "leaf-cluster-2"] |} in
  exists k i o,
    (@run test_env inc None "center-cluster" ["channel-1"; "channel-2"]).2
    = Some (ErrNotStar k i o).
Proof. vm_compute. by eexists _, _, _. Qed.

Example test_growth_with_new_cluster :
  error_message <$>
    (@run test_env (three_clusters ["ch-1"; "ch-2"])
       (two_clusters ["ch-1"] [edge "c1" "c2"]) "c1" ["ch-1"; "ch-2"]).2
  = Some ("when pchannels are increasing, cluster set must remain identical: "
          +:+ "current has 2 clusters, incoming has 3").
Proof. vm_compute. reflexivity. Qed.

Example test_growth_with_flipped_edge :
  error_message <$>
    (@run test_env (two_clusters ["ch-1"; "ch-2"] [edge "c2" "c1"])
       (two_clusters ["ch-1"] [edge "c1" "c2"]) "c1" ["ch-1"; "ch-2"]).2
  = Some ("when pchannels are increasing, topology must remain identical: "
          +:+ "edge 'c2->c1' not in current config").
Proof. vm_compute. reflexivity. Qed.

Example test_prefix_reorder :
  error_message <$>
    (@run test_env (two_clusters ["ch-2"; "ch-1"; "ch-3"] [edge "c1" "c2"])
       (two_clusters ["ch-1"; "ch-2"] [edge "c1" "c2"]) "c1" ["ch-1"; "ch-2"; "ch-3"]).2
  = Some ("cluster 'c1' existing pchannels must be preserved at the same positions: "
          +:+ "current=[ch-1 ch-2], incoming=[ch-2 ch-1 ch-3]").
Proof. vm_compute. reflexivity. Qed.

(** ** The theorems on sample inputs *)

Lemma Validate_star_uniqueness_witness :
  let inc := star3 in
  let r := @run test_env inc None "center-cluster" ["channel-1"; "channel-2"] in
  r = (r.1, None)
  /\ GetCrossClusterTopology inc <> []
  /\ exists C,
       C ∈ GetClusterId <$> GetClusters inc
       /\ (forall t, t ∈ GetCrossClusterTopology inc -> GetSourceClusterId t = C)
       /\ (forall t, t ∈ GetCrossClusterTopology inc -> GetTargetClusterId t <> C)
       /\ (forall C', C' ∈ GetClusterId <$> GetClusters inc ->
             (forall t, t ∈ GetCrossClusterTopology inc -> GetSourceClusterId t = C') ->
             (forall t, t ∈ GetCrossClusterTopology inc -> GetTargetClusterId t <> C') ->
             C' = C)
       /\ (forall D, D ∈ GetClusterId <$> GetClusters inc -> D <> C ->
             in_count D (GetCrossClusterTopology inc) = 1%nat
             /\ out_count D (GetCrossClusterTopology inc) = 0%nat)
       /\ len (GetCrossClusterTopology inc) = len (GetClusters inc) - 1.
Proof.
  intros inc r.
  assert (H1 : r = (r.1, None)) by (vm_compute; reflexivity).
  assert (H2 : GetCrossClusterTopology inc <> []) by discriminate.
  split; [exact H1|]. split; [exact H2|].
  exact (Validate_star_uniqueness inc None _ _ _ H1 H2).
Defined.

Lemma multiple_centers_unreachable_witness :
  let topologies := GetCrossClusterTopology star3 in
  let v := (@run test_env star3 None "center-cluster" ["channel-1"; "channel-2"]).1 in
  topologies <> []
  /\ validateTopologyEdgeUniqueness topologies v = (v, None)
  /\ snd (@validateTopologyTypeConstraint test_env topologies v) <> Some ErrMultipleCenters.
Proof.
  intros topologies v.
  assert (H1 : topologies <> []) by discriminate.
  assert (H2 : validateTopologyEdgeUniqueness topologies v = (v, None))
    by (vm_compute; reflexivity).
  split; [exact H1|]. split; [exact H2|].
  exact (proj2 (@multiple_centers_unreachable test_env topologies v H1 H2)).
Defined.

(** The claim C3 as stated fails: the current configuration declares
    ["c1"] twice, [Validate] compares the incoming cluster with the
    second one only and reports growth, and the first current cluster
    of the same ID is no prefix of the incoming one. *)
Lemma growth_with_repeated_current_id :
  let inc := one_cluster ["ch-1"; "ch-2"] in
  let cur := repeated_current_id in
  let r := @run test_env inc cur "c1" ["ch-1"; "ch-2"] in
  r.2 = None /\ IsPChannelIncreasing r.1 = true
  /\ exists ic cc,
       Some ic ∈ GetClusters inc /\ Some cc ∈ GetClusters cur
       /\ ClusterId cc = ClusterId ic
       /\ ~ Pchannels cc `prefix_of` Pchannels ic.
Proof.
  intros inc cur r. split; [vm_compute; reflexivity|]. split; [vm_compute; reflexivity|].
  exists (plain_cluster "c1" "localhost:19530" ["ch-1"; "ch-2"]),
         (plain_cluster "c1" "localhost:19530" ["ch-1"; "ch-2"; "ch-3"]).
  split; [by left|]. split; [by left|]. split; [reflexivity|].
  intros Hpre. apply prefix_length in Hpre. simpl in Hpre. lia.
Qed.

(** The last of the two current clusters with the ID ["c1"] is the one
    the incoming cluster is compared with. *)
Example test_last_declared :
  last_declared (GetClusters repeated_current_id) "c1"
    (plain_cluster "c1" "localhost:19530" ["ch-1"])
  /\ currentIndex repeated_current_id !! "c1"
     = Some (plain_cluster "c1" "localhost:19530" ["ch-1"]).
Proof.
  split; [|vm_compute; reflexivity].
  exists [makeCluster "c1" "localhost:19530" ["ch-1"; "ch-2"; "ch-3"]; None], [].
  split; [reflexivity|]. split; [reflexivity|]. by intros c ?%elem_of_nil.
Qed.

Lemma Validate_growth_monotone_witness :
  let inc := two_clusters ["ch-1"; "ch-2"] [edge "c1" "c2"] in
  let cur := two_clusters ["ch-1"] [edge "c1" "c2"] in
  let cur' := repeated_current_id in
  let r := @run test_env inc cur "c1" ["ch-1"; "ch-2"] in
  let r' := @run test_env (one_cluster ["ch-1"; "ch-2"]) cur' "c1" ["ch-1"; "ch-2"] in
  (r = (r.1, None) /\ IsPChannelIncreasing r.1 = true
   /\ (forall cc cc',
         Some cc ∈ GetClusters cur -> Some cc' ∈ GetClusters cur ->
         ClusterId cc = ClusterId cc' -> cc = cc')
   /\ (forall ic cc,
         Some ic ∈ GetClusters inc -> Some cc ∈ GetClusters cur ->
         ClusterId cc = ClusterId ic ->
         Pchannels cc `prefix_of` Pchannels ic)
   /\ (exists ic cc,
         Some ic ∈ GetClusters inc
         /\ last_declared (GetClusters cur) (ClusterId ic) cc
         /\ Pchannels cc `prefix_of` Pchannels ic
         /\ (length (Pchannels cc) < length (Pchannels ic))%nat))
  /\ (r' = (r'.1, None) /\ IsPChannelIncreasing r'.1 = true
      /\ (forall ic cc,
            Some ic ∈ GetClusters (one_cluster ["ch-1"; "ch-2"]) ->
            Some cc ∈ GetClusters cur' -> ClusterId cc = ClusterId ic ->
            exists cc', last_declared (GetClusters cur') (ClusterId ic) cc'
                        /\ Pchannels cc' `prefix_of` Pchannels ic)).
Proof.
  intros inc cur cur' r r'.
  assert (H1 : r = (r.1, None)) by (vm_compute; reflexivity).
  assert (H2 : IsPChannelIncreasing r.1 = true) by (vm_compute; reflexivity).
  assert (H1' : r' = (r'.1, None)) by (vm_compute; reflexivity).
  assert (H2' : IsPChannelIncreasing r'.1 = true) by (vm_compute; reflexivity).
  assert (H3 : forall cc cc',
            Some cc ∈ GetClusters cur -> Some cc' ∈ GetClusters cur ->
            ClusterId cc = ClusterId cc' -> cc = cc').
  { clear. intros cc cc' Hc Hc' Hid. simpl in Hc, Hc'.
    apply elem_of_cons in Hc as [Hc|Hc]; [|apply list_elem_of_singleton in Hc];
      apply elem_of_cons in Hc' as [Hc'|Hc']; [| apply list_elem_of_singleton in Hc'
                                              | | apply list_elem_of_singleton in Hc'];
      injection Hc as ->; injection Hc' as ->; first [reflexivity|discriminate Hid]. }
  split.
  - split; [exact H1|]. split; [exact H2|]. split; [exact H3|].
    split; [exact (proj1 (proj2 (@Validate_growth_monotone test_env inc cur _ _ _ H1 H2)) H3)|].
    exact (proj2 (proj2 (@Validate_growth_monotone test_env inc cur _ _ _ H1 H2))).
  - split; [exact H1'|]. split; [exact H2'|].
    exact (proj1 (@Validate_growth_monotone test_env _ cur' _ _ _ H1' H2')).
Defined.

(** The claim C4 as stated fails: growth is detected for [c1], the
    changed token of [c2] fails the call, and the flag stays set. *)
Lemma failed_Validate_keeps_growth_flag :
  let r := @run test_env grown_with_token_change
             (two_clusters ["ch-1"] [edge "c1" "c2"]) "c1" ["ch-1"; "ch-2"] in
  r.2 = Some (ErrTokenChanged "c2") /\ IsPChannelIncreasing r.1 = true.
Proof. vm_compute. split; reflexivity. Qed.

Lemma Validate_failure_flag_witness :
  let inc := grown_with_token_change in
  let cur := two_clusters ["ch-1"] [edge "c1" "c2"] in
  let v := NewReplicateConfigValidator inc cur "c1" ["ch-1"; "ch-2"] in
  let r := @Validate test_env v in
  r = (r.1, Some (ErrTokenChanged "c2"))
  /\ IsPChannelIncreasing r.1 = true
  /\ error_phase (ErrTokenChanged "c2") = Transition
  /\ exists ic cc,
       ic ∈ GetClusters inc /\ last_declared (GetClusters cur) (GetClusterId ic) cc
       /\ grows cc ic.
Proof.
  intros inc cur v r.
  assert (H1 : r = (r.1, Some (ErrTokenChanged "c2"))) by (vm_compute; reflexivity).
  assert (H2 : IsPChannelIncreasing r.1 = true) by (vm_compute; reflexivity).
  split; [exact H1|]. split; [exact H2|].
  exact (proj2 (proj2 (proj2 (proj2 (@Validate_failure_flag test_env v _ _ H1)))
                  inc cur _ _ eq_refl) H2).
Defined.

(** A second call on the validator of a successful growth run fails in
    the cluster-basic check, and the flag of the first call is still
    set. *)
Example test_second_call_keeps_flag :
  let v := (@run test_env (two_clusters ["ch-1"; "ch-2"] [edge "c1" "c2"])
              (two_clusters ["ch-1"] [edge "c1" "c2"]) "c1" ["ch-1"; "ch-2"]).1 in
  let r := @Validate test_env v in
  r.2 = Some (ErrDuplicateClusterID "c1")
  /\ IsPChannelIncreasing v = true /\ IsPChannelIncreasing r.1 = true.
Proof. vm_compute. repeat split; reflexivity. Qed.

Lemma Validate_idempotent_witness :
  let x := two_clusters ["ch-1"; "ch-2"] [edge "c1" "c2"] in
  let r := @run test_env x None "c1" ["ch-1"; "ch-2"] in
  r = (r.1, None)
  /\ exists v', @run test_env x x "c1" ["ch-1"; "ch-2"] = (v', None)
                /\ IsPChannelIncreasing v' = false.
Proof.
  intros x r.
  assert (H1 : r = (r.1, None)) by (vm_compute; reflexivity).
  split; [exact H1|].
  exact (Validate_idempotent x _ _ _ H1).
Defined.

Lemma Validate_relevance_multiset_witness :
  let inc := two_clusters ["ch-1"; "ch-2"] [edge "c1" "c2"] in
  let v0 := NewReplicateConfigValidator inc None "c1" ["ch-2"; "ch-1"] in
  let v1 := (@validateClusterBasic test_env (GetClusters inc) v0).1 in
  ["ch-2"; "ch-1"] ≡ₚ ["ch-1"; "ch-2"]
  /\ (@run test_env inc None "c1" ["ch-2"; "ch-1"]).2 = None
  /\ (@run test_env inc None "c1" ["ch-1"; "ch-2"]).2 = None
  /\ @validateClusterBasic test_env (GetClusters inc) v0 = (v1, None)
  /\ (validateRelevance v1 = (v1, None)
      <-> exists c,
            Some c ∈ GetClusters inc /\ ClusterId c = "c1"
            /\ length ["ch-2"; "ch-1"] = length (Pchannels c)
            /\ forall k, count_occ string_dec ["ch-2"; "ch-1"] k
                         = count_occ string_dec (Pchannels c) k)
  /\ validateRelevance v1 = (v1, None).
Proof.
  intros inc v0 v1.
  assert (H1 : ["ch-2"; "ch-1"] ≡ₚ ["ch-1"; "ch-2"]) by apply perm_swap.
  assert (H2 : (@run test_env inc None "c1" ["ch-2"; "ch-1"]).2 = None)
    by (vm_compute; reflexivity).
  assert (H3 : @validateClusterBasic test_env (GetClusters inc) v0 = (v1, None))
    by (vm_compute; reflexivity).
  pose proof (@Validate_relevance_multiset test_env inc None "c1" _ _ H1) as (Hiff & Honly & Hrel).
  split; [exact H1|]. split; [exact H2|]. split; [exact (proj1 Hiff H2)|].
  split; [exact H3|]. split; [exact (Hrel v1 H3)|].
  exact (proj2 (Hrel v1 H3) (Honly H2)).
Defined.

Lemma Validate_fail_fast_witness :
  let inc := two_clusters ["ch-1"; "ch-2"] [edge "c1" "c9"] in
  let v := NewReplicateConfigValidator inc None "c3" ["ch-1"; "ch-2"] in
  let v1 := (@validateClusterBasic test_env (GetClusters inc) v).1 in
  validateRelevance v1 = (v1, Some (ErrNotIncluded "c3"))
  /\ (validateTopologyEdgeUniqueness (GetCrossClusterTopology inc) v1).2
     = Some (ErrUnknownTarget 0 "c9")
  /\ @Validate test_env v = (v1, Some (ErrNotIncluded "c3"))
  /\ error_phase (ErrNotIncluded "c3") = Relevance.
Proof.
  intros inc v v1.
  assert (H1 : validateRelevance v1 = (v1, Some (ErrNotIncluded "c3")))
    by (vm_compute; reflexivity).
  split; [exact H1|]. split; [vm_compute; reflexivity|].
  apply (@Validate_fail_fast test_env v
           [(ClusterBasic, @validateClusterBasic test_env (GetClusters inc))]
           [(EdgeUniqueness, validateTopologyEdgeUniqueness (GetCrossClusterTopology inc));
            (StarShape, @validateTopologyTypeConstraint test_env (GetCrossClusterTopology inc));
            (Transition, @transition_step test_env)]
           (Relevance, validateRelevance) v1 v1).
  - discriminate.
  - discriminate.
  - reflexivity.
  - vm_compute; reflexivity.
  - exact H1.
Defined.

Lemma Validate_no_growth_accepts_witness :
  let inc := three_clusters ["ch-1"; "ch-2"] in
  let cur := two_clusters ["ch-1"; "ch-2"] [edge "c1" "c2"] in
  let r := @run test_env inc None "c1" ["ch-1"; "ch-2"] in
  r = (r.1, None)
  /\ GetClusterId <$> GetClusters inc <> GetClusterId <$> GetClusters cur
  /\ GetCrossClusterTopology inc <> GetCrossClusterTopology cur
  /\ exists v', @run test_env inc cur "c1" ["ch-1"; "ch-2"] = (v', None)
                /\ IsPChannelIncreasing v' = false.
Proof.
  intros inc cur r.
  assert (H1 : r = (r.1, None)) by (vm_compute; reflexivity).
  split; [exact H1|]. split; [discriminate|]. split; [discriminate|].
  apply (@Validate_no_growth_accepts test_env inc cur _ _ _ H1).
  intros ic cc Hin Hl. clear H1. subst r inc cur. simpl in Hin.
  repeat match type of Hin with
         | _ ∈ _ :: _ => apply elem_of_cons in Hin as [Hin|Hin]
         | _ ∈ [] => by apply elem_of_nil in Hin
         end;
    injection Hin as ->; vm_compute in Hl; try discriminate Hl;
    injection Hl as <-; repeat split; reflexivity.
Defined.

(** ** Growth mode and edge keys

    [validatePChannelIncreasingConstraints] compares edges through the
    key [source + "->" + target], and ["a" + "->" + "a->a"] is the key
    of the reversed edge ["a->a" + "->" + "a"] as well. *)

(** C2 on the code: the current configuration is valid, both clusters
    grow, the only edge is reversed, and [Validate] accepts the
    incoming configuration. *)
Lemma growth_accepts_reversed_edge :
  let cur := arrow_clusters ["ch-1"] "a" "a->a" in
  let inc := arrow_clusters ["ch-1"; "ch-2"] "a->a" "a" in
  let r := @run test_env inc cur "a" ["ch-1"; "ch-2"] in
  (@run test_env cur None "a" ["ch-1"]).2 = None
  /\ edge_pairs cur = [("a", "a->a")]
  /\ edge_pairs inc = [("a->a", "a")]
  /\ edgeKey "a" "a->a" = edgeKey "a->a" "a"
  /\ r.2 = None
  /\ IsPChannelIncreasing r.1 = true.
Proof. vm_compute. repeat split; reflexivity. Qed.

(** ** The further properties on sample inputs *)

Lemma Validate_growth_flag_exact_witness :
  let inc := two_clusters ["ch-1"; "ch-2"] [edge "c1" "c2"] in
  let cur := two_clusters ["ch-1"] [edge "c1" "c2"] in
  let r := @run test_env inc cur "c1" ["ch-1"; "ch-2"] in
  r = (r.1, None)
  /\ (IsPChannelIncreasing r.1 = true <->
      exists ic cc,
        Some ic ∈ GetClusters inc /\ currentIndex cur !! ClusterId ic = Some cc
        /\ (length (Pchannels cc) < length (Pchannels ic))%nat).
Proof.
  intros inc cur r.
  assert (H1 : r = (r.1, None)) by (vm_compute; reflexivity).
  split; [exact H1|].
  exact (proj1 (@Validate_growth_flag_exact test_env inc cur _ _ _ H1)).
Defined.

Lemma Validate_cluster_identity_witness :
  let inc := star3 in
  let r := @run test_env inc None "center-cluster" ["channel-1"; "channel-2"] in
  r = (r.1, None)
  /\ NoDup (GetClusterId <$> GetClusters inc)
  /\ NoDup ((fun c => GetUri (GetConnectionParam c)) <$> GetClusters inc).
Proof.
  intros inc r.
  assert (H1 : r = (r.1, None)) by (vm_compute; reflexivity).
  split; [exact H1|].
  destruct (@Validate_cluster_identity test_env inc None _ _ _ H1) as (_ & H2 & H3 & _).
  exact (conj H2 H3).
Defined.

Lemma Validate_slots_witness :
  let inc := star3 in
  let r := @run test_env inc None "center-cluster" ["channel-2"; "channel-1"] in
  r = (r.1, None)
  /\ forall c, Some c ∈ GetClusters inc ->
       length (Pchannels c) = 2%nat
       /\ (0 < length (Pchannels c))%nat
       /\ NoDup (Pchannels c)
       /\ forall p, p ∈ Pchannels c -> p <> "".
Proof.
  intros inc r.
  assert (H1 : r = (r.1, None)) by (vm_compute; reflexivity).
  split; [exact H1|].
  exact (@Validate_slots test_env inc None _ _ _ H1).
Defined.

Lemma Validate_growth_same_keys_witness :
  let inc := two_clusters ["ch-1"; "ch-2"] [edge "c1" "c2"] in
  let cur := two_clusters ["ch-1"] [edge "c1" "c2"] in
  let r := @run test_env inc cur "c1" ["ch-1"; "ch-2"] in
  r = (r.1, None)
  /\ IsPChannelIncreasing r.1 = true
  /\ (forall k, k ∈ GetClusterId <$> GetClusters inc <-> k ∈ dom (currentIndex cur))
  /\ (forall key, key ∈ edge_keys inc <-> key ∈ edge_keys cur).
Proof.
  intros inc cur r.
  assert (H1 : r = (r.1, None)) by (vm_compute; reflexivity).
  assert (H2 : IsPChannelIncreasing r.1 = true) by (vm_compute; reflexivity).
  split; [exact H1|]. split; [exact H2|].
  exact (@Validate_growth_same_keys test_env inc cur _ _ _ H1 H2).
Defined.

Lemma Validate_rejects_self_edge_witness :
  let inc := two_clusters ["ch-1"] [edge "c1" "c1"] in
  let e := {| SourceClusterId := "c1"; TargetClusterId := "c1" |} in
  Some e ∈ GetCrossClusterTopology inc
  /\ (@run test_env inc None "c1" ["ch-1"]).2 <> None.
Proof.
  intros inc e.
  assert (H1 : Some e ∈ GetCrossClusterTopology inc) by (by left).
  split; [exact H1|].
  exact (@Validate_rejects_self_edge test_env inc None "c1" ["ch-1"] e H1 eq_refl).
Defined.

Lemma Validate_twice_fails_witness :
  let inc := two_clusters ["ch-1"] [edge "c1" "c2"] in
  let r := @run test_env inc None "c1" ["ch-1"] in
  r = (r.1, None)
  /\ exists c, head (GetClusters inc) = Some (Some c)
               /\ @Validate test_env r.1 = (r.1, Some (ErrDuplicateClusterID (ClusterId c))).
Proof.
  intros inc r.
  assert (H1 : r = (r.1, None)) by (vm_compute; reflexivity).
  split; [exact H1|].
  exact (@Validate_twice_fails test_env inc None _ _ _ H1).
Defined.

Lemma edge_key_collision_witness :
  let v := (@run test_env (arrow_clusters ["ch-1"] "a" "a->a") None "a" ["ch-1"]).1 in
  let e1 := {| SourceClusterId := "a->a"; TargetClusterId := "a" |} in
  let e2 := {| SourceClusterId := "a"; TargetClusterId := "a->a" |} in
  is_Some (clusterMap v !! "a->a") /\ is_Some (clusterMap v !! "a")
  /\ e1 <> e2
  /\ validateTopologyEdgeUniqueness [Some e1; Some e2] v
     = (v, Some (ErrDuplicateEdge "a->a->a")).
Proof.
  intros v e1 e2.
  assert (H1 : is_Some (clusterMap v !! "a->a")) by (vm_compute; by eexists).
  assert (H2 : is_Some (clusterMap v !! "a")) by (vm_compute; by eexists).
  split; [exact H1|]. split; [exact H2|].
  exact (edge_key_collision "a" "a" "a" v H1 H2 H2 H1).
Defined.

Lemma star_center_with_empty_id_witness :
  let v := validator_with_empty_id in
  let topologies := [edge "" "b"] in
  topologies <> []
  /\ star_with_center (clusterMap v) topologies ""
  /\ @validateTopologyTypeConstraint test_env topologies v = (v, Some ErrNoCenter).
Proof.
  intros v topologies.
  assert (H1 : topologies <> []) by discriminate.
  assert (H2 : star_with_center (clusterMap v) topologies "").
  { split; [vm_compute; by eexists|]. split; [vm_compute; reflexivity|].
    split; [vm_compute; reflexivity|].
    intros k [c Hk] Hne. simpl in Hk.
    rewrite lookup_insert_ne in Hk by done.
    destruct (decide (k = "b")) as [->|Hnb]; [vm_compute; by split|].
    rewrite lookup_insert_ne, lookup_empty in Hk by done. discriminate. }
  split; [exact H1|]. split; [exact H2|].
  exact (@star_center_with_empty_id test_env topologies v H1 H2).
Defined.

Lemma Validate_accepts_without_edges_witness :
  let cs := [plain_cluster "c1" "localhost:19530" ["ch-1"; "ch-2"];
             plain_cluster "c2" "localhost:19531" ["ch-1"; "ch-2"]] in
  cs <> []
  /\ clusters_ok (@ParseRequestURI_ok test_env) cs
  /\ (@run test_env (Some {| Clusters := Some <$> cs; CrossClusterTopology_ := [] |})
        None "c1" ["ch-2"; "ch-1"]).2 = None.
Proof.
  intros cs.
  assert (H1 : cs <> []) by discriminate.
  assert (Hc : forall id uri, id <> "" -> ContainsAny id whitespace = false ->
            bool_decide (uri ∈ test_uris) = true -> uri <> "" ->
            cluster_ok (@ParseRequestURI_ok test_env) (plain_cluster id uri ["ch-1"; "ch-2"])).
  { intros id uri Hid Hws Hparse Huri. unfold cluster_ok, uri_of. simpl.
    repeat split; try done.
    - intros p Hp. apply elem_of_cons in Hp as [->|Hp]; [done|].
      apply elem_of_cons in Hp as [->|Hp]; [done|]. by apply elem_of_nil in Hp.
    - apply (bool_decide_unpack _). vm_compute. exact I. }
  assert (H2 : clusters_ok (@ParseRequestURI_ok test_env) cs).
  { split; [constructor; [by apply Hc|constructor; [by apply Hc|constructor]]|].
    split; [apply (bool_decide_unpack _); vm_compute; exact I|].
    split; [apply (bool_decide_unpack _); vm_compute; exact I|].
    intros c c' Hc1 Hc2.
    apply elem_of_cons in Hc1 as [->|Hc1]; [|apply elem_of_cons in Hc1 as [->|Hc1];
      [|by apply elem_of_nil in Hc1]];
    (apply elem_of_cons in Hc2 as [->|Hc2]; [|apply elem_of_cons in Hc2 as [->|Hc2];
      [|by apply elem_of_nil in Hc2]]); reflexivity. }
  split; [exact H1|]. split; [exact H2|].
  apply (@Validate_accepts_without_edges test_env cs "c1" ["ch-2"; "ch-1"] H1 H2).
  exists (plain_cluster "c1" "localhost:19530" ["ch-1"; "ch-2"]).
  split; [by left|]. split; [reflexivity|apply perm_swap].
Defined.

Lemma Validate_clusterMap_index_witness :
  let inc := star3 in
  let r := @run test_env inc None "center-cluster" ["channel-1"; "channel-2"] in
  r = (r.1, None)
  /\ size (clusterMap r.1) = 3%nat.
Proof.
  intros inc r.
  assert (H1 : r = (r.1, None)) by (vm_compute; reflexivity).
  split; [exact H1|].
  exact (proj2 (@Validate_clusterMap_index test_env inc None _ _ _ H1)).
Defined.

Lemma Validate_transition_implies_standalone_witness :
  let inc := two_clusters ["ch-1"; "ch-2"] [edge "c1" "c2"] in
  let cur := two_clusters ["ch-1"] [edge "c1" "c2"] in
  (@run test_env inc cur "c1" ["ch-1"; "ch-2"]).2 = None
  /\ (@run test_env inc None "c1" ["ch-1"; "ch-2"]).2 = None.
Proof.
  intros inc cur.
  assert (H1 : (@run test_env inc cur "c1" ["ch-1"; "ch-2"]).2 = None)
    by (vm_compute; reflexivity).
  split; [exact H1|].
  exact (@Validate_transition_implies_standalone test_env inc cur _ _ H1).
Defined.

Lemma Validate_order_independent_witness :
  let inc := star3 in
  let r1 := @run test_env inc None "center-cluster" ["channel-1"; "channel-2"] in
  let r2 := @run reversed_env inc None "center-cluster" ["channel-1"; "channel-2"] in
  (forall uri, @ParseRequestURI_ok test_env uri = @ParseRequestURI_ok reversed_env uri)
  /\ (r1.2 = None <-> r2.2 = None).
Proof.
  intros inc r1 r2.
  assert (H1 : forall uri,
            @ParseRequestURI_ok test_env uri = @ParseRequestURI_ok reversed_env uri)
    by reflexivity.
  split; [exact H1|].
  exact (proj1 (Validate_order_independent test_env reversed_env inc None
                  "center-cluster" ["channel-1"; "channel-2"] H1)).
Defined.

Lemma star_check_exact_witness :
  let v := (@run test_env star3 None "center-cluster" ["channel-1"; "channel-2"]).1 in
  let topologies := GetCrossClusterTopology star3 in
  clusterMap v !! "" = None
  /\ ((@validateTopologyTypeConstraint test_env topologies v).2 = None
      <-> topologies = [] \/ exists C, star_with_center (clusterMap v) topologies C).
Proof.
  intros v topologies.
  assert (H1 : clusterMap v !! "" = None) by (vm_compute; reflexivity).
  split; [exact H1|].
  exact (@star_check_exact test_env topologies v H1).
Defined.
